(** * lxd-backup: delta backups of LXD container exports

    A shallow embedding of [lxd-backup.go]: the fingerprint tables
    ([map[string]string]), the diff against the quarterly baseline, the
    construction of the delta archives, the persisted fingerprint file
    (written and read with Go's [encoding/csv]), the rotation of the
    month, week and day buckets, the listing of the containers and the
    flags that select among them.

    How the program is read:
    - a Go map is a [gmap], a map used as a set a [gset], a slice a list;
      a loop over a map runs over an enumeration of it, and where the
      order can show the enumeration is an argument;
    - the backup directory is a map from paths to files, a file being
      plain bytes or a compressed archive given by the entries its reader
      delivers; the bytes of a compressed archive are not modelled;
    - a function that touches the directory is a state transformer that
      returns or ends the process at a [log.Fatalf] with the directory as
      it then is;
    - [crypto/md5] is a parameter, and so is what the zstd streams do
      that the program cannot tell: how much one [Read] of the decoder
      hands over, and how much of an archive being written has reached
      the file; [encoding/csv] is written out after the [Write],
      [readLine] and [readRecord] of the Go standard library;
    - [lxc] is outside: an export is a file that appears in the
      directory, a listing is the text [lxc list] printed. *)

From Stdlib Require Import ZArith Lia Ascii String DecimalString.
From Stdlib Require Import DecimalPos DecimalZ.
From stdpp Require Import base list strings gmap sorting.

Local Open Scope string_scope.
Local Open Scope list_scope.
Local Open Scope Z_scope.

(** ** Fingerprint tables and the diff of [main] *)

(** [map[string]string]: member path to hex digest. *)
Abbreviation table := (gmap string string).

(** The two results of the comparison: [filesChangedAdded] is a
    [map[string]bool] that only ever stores [true] and is only asked for
    presence, hence a set; [filesRemoved] is a slice that grows by
    [append]. *)
Record diffResult := DiffResult {
  filesChangedAdded : gset string;
  filesRemoved : list string
}.

Definition emptyDiff : diffResult := DiffResult ∅ [].

(** Body of [for fname, md5sumOld := range quarterSums]. *)
Definition scanQuarter (sums : table) (acc : diffResult)
    (e : string * string) : diffResult :=
  let '(fname, md5sumOld) := e in
  match sums !! fname with
  | Some md5sumCurr =>
      if decide (md5sumCurr = md5sumOld) then acc
      else DiffResult ({[fname]} ∪ filesChangedAdded acc) (filesRemoved acc)
  | None =>
      DiffResult (filesChangedAdded acc) (filesRemoved acc ++ [fname])
  end.

(** Body of [for fname := range sums]. *)
Definition scanCurrent (quarterSums : table) (acc : diffResult)
    (e : string * string) : diffResult :=
  match quarterSums !! e.1 with
  | Some _ => acc
  | None => DiffResult ({[e.1]} ∪ filesChangedAdded acc) (filesRemoved acc)
  end.

(** The two loops, run over explicit enumerations [qs] of [quarterSums] and
    [cs] of [sums]: Go ranges over a map in an unspecified order, so the
    order is an input of the model. *)
Definition diffOver (qs cs : list (string * string))
    (quarterSums sums : table) : diffResult :=
  foldl (scanCurrent quarterSums) (foldl (scanQuarter sums) emptyDiff qs) cs.

(** The diff with one fixed enumeration. *)
Definition diffTables (quarterSums sums : table) : diffResult :=
  diffOver (map_to_list quarterSums) (map_to_list sums) quarterSums sums.

(** [len(filesChangedAdded) == 0 && len(filesRemoved) == 0] *)
Definition noChanges (d : diffResult) : bool :=
  bool_decide (filesChangedAdded d = ∅) && bool_decide (filesRemoved d = []).

(** ** Failures

    Every [log.Fatalf] of the functions below ends the process; the
    constructors name the message.  A Go runtime panic ends it too. *)
Inductive failure :=
| FailedOpen (fname : string)
    (* "Failed to open %s" *)
| FailedTarContent (fname : string)
    (* "Failed to read content of tarfile: %s" *)
| FailedCopy
    (* "Failed to io.copy from tar to md5sum" *)
| FailedReadAll (member fname : string) (wanted got : Z)
    (* "Failed to read all data of file %s inside %s. Wanted %d got %d" *)
| FailedReadFromTar (member : string) (got wanted : Z)
    (* "Failed to read %s from tar: %v (%d bytes of %d)", or, when the
       short read came without an error, "tar Input truncated! Wanted %d
       bytes got %d" *)
| FailedDecodeCsv (fname : string)
    (* "Failed to decode csv in %s" *)
| PanicIndexOutOfRange
    (* runtime error: index out of range *)
| PanicMakeSlice.
    (* runtime error: makeslice: len out of range *)

Inductive result (A : Type) :=
| Ok (a : A)
| Err (e : failure).
Arguments Ok {A} a.
Arguments Err {A} e.

(** ** Bytes

    A Go [[]byte] is a list of bytes; a Go [string] is a [string].  The
    conversions [[]byte(s)] and [string(b)] are [list_ascii_of_string] and
    [string_of_list_ascii]. *)
Abbreviation bytes := (list ascii).

Definition LF : ascii := "010"%char.
Definition CR : ascii := "013"%char.
Definition dquote : ascii := "034"%char.
Definition comma : ascii := ","%char.

(** [int64(len(b))] *)
Definition len (b : bytes) : Z := Z.of_nat (length b).

(** ** Archives, as [archive/tar] over [zstd] hands them to the program *)

(** [tar.Header], with the fields the program looks at and two of those it
    only carries along. *)
Record Header := mkHeader {
  Name : string;
  Typeflag : ascii;
  Size : Z;
  Mode : Z;
  Linkname : string
}.

(** [tar.TypeReg = '0'] *)
Definition TypeReg : ascii := "0"%char.

(** One entry of the stream: the header [Next] returns, the bytes that
    reading the entry to its end delivers, and whether those reads end in
    an error instead of [io.EOF].  A sound entry has [Size] bytes and no
    error; a stream cut short delivers fewer. *)
Record member := mkMember {
  hdr : Header;
  payload : bytes;
  readErr : bool
}.

(** A file of the backup directory: plain bytes, or a zstd-compressed tar
    stream given by its entries and by whether it ends properly ([Next]
    returns [io.EOF] after the last entry) or in a decoding error. *)
Inductive file :=
| Plain (data : bytes)
| TarZst (members : list member) (intact : bool).

(** What the tar reader makes of a file: an empty file is an empty stream,
    other plain bytes are no zstd stream and fail at the first [Next]. *)
Definition asArchive (f : file) : list member * bool :=
  match f with
  | TarZst ms ok => (ms, ok)
  | Plain [] => ([], true)
  | Plain _ => ([], false)
  end.

(** The directory: path to file. *)
Abbreviation fs := (gmap string file).

(** ** Digests in text *)

Definition hexDigit (n : N) : ascii :=
  match n with
  | 0 => "0" | 1 => "1" | 2 => "2" | 3 => "3" | 4 => "4" | 5 => "5"
  | 6 => "6" | 7 => "7" | 8 => "8" | 9 => "9" | 10 => "a" | 11 => "b"
  | 12 => "c" | 13 => "d" | 14 => "e" | _ => "f"
  end%N%char.

(** [fmt.Sprintf("%02x", v)] for a byte [v] *)
Definition sprintf02x (v : ascii) : string :=
  let n := N_of_ascii v in
  String (hexDigit (n / 16)) (String (hexDigit (n mod 16)) EmptyString).

(** The [strings.Builder] loop over [h.Sum(nil)] *)
Fixpoint hexString (sum : bytes) : string :=
  match sum with
  | [] => EmptyString
  | v :: rest => sprintf02x v +:+ hexString rest
  end.

(** A regular-file entry, and one whose reads deliver the declared number
    of bytes without error. *)
Definition regular (m : member) : Prop := Typeflag (hdr m) = TypeReg.

Definition sound (m : member) : Prop :=
  readErr m = false ∧ len (payload m) = Size (hdr m).

#[global] Instance regular_dec m : Decision (regular m).
Proof. unfold regular. apply _. Defined.

#[global] Instance sound_dec m : Decision (sound m).
Proof. unfold sound. apply _. Defined.

Section fingerprint.
(** [crypto/md5]: the 16 bytes of [h.Sum(nil)] after the bytes of the
    member went through [h]. *)
Variable md5Sum : bytes → bytes.

(** The [for] loop of [fetchFileDataFromTar] over the entries of the
    stream: [Next], the type test, [io.Copy] into the digest, the size
    test, the insertion into [fd]. *)
Fixpoint fetchLoop (fname : string) (ms : list member) (intact : bool)
    (fd : table) : result table :=
  match ms with
  | [] => if intact then Ok fd else Err (FailedTarContent fname)
  | m :: ms' =>
      if decide (Typeflag (hdr m) ≠ TypeReg) then
        fetchLoop fname ms' intact fd
      else if readErr m then Err FailedCopy
      else if decide (len (payload m) ≠ Size (hdr m)) then
        Err (FailedReadAll (Name (hdr m)) fname (Size (hdr m))
               (len (payload m)))
      else
        fetchLoop fname ms' intact
          (<[Name (hdr m) := hexString (md5Sum (payload m))]> fd)
  end.

Definition fetchFileDataFromTar (fname : string) (σ : fs) : result table :=
  match σ !! fname with
  | None => Err (FailedOpen fname)
  | Some f => let '(ms, intact) := asArchive f in fetchLoop fname ms intact ∅
  end.

(** [fd[hdr.Name] = s.String()] for the entry [m] *)
Definition record1 (fd : table) (m : member) : table :=
  <[Name (hdr m) := hexString (md5Sum (payload m))]> fd.

(** The table after the regular entries of [ms] have been recorded, one
    after the other, on top of [fd]. *)
Definition recorded (ms : list member) (fd : table) : table :=
  foldl record1 fd (filter regular ms).
End fingerprint.
(** ** The process: directory state and fatal exits

    A function of the program runs on the directory and either returns, or
    ends the process at a [log.Fatalf] (or a panic) with the directory as
    it is at that moment: deferred [Close] calls do not run.  Operations of
    the file system itself (create, write, remove) are taken to succeed;
    what fails is a missing file or content that cannot be read. *)
Inductive outcome (A : Type) :=
| Done (a : A) (σ : fs)
| Fatal (e : failure) (σ : fs).
Arguments Done {A} a σ.
Arguments Fatal {A} e σ.

Definition M (A : Type) : Type := fs → outcome A.

#[global] Instance M_ret : MRet M := λ A a σ, Done a σ.
#[global] Instance M_bind : MBind M := λ A B k c σ,
  match c σ with
  | Done a σ' => k a σ'
  | Fatal e σ' => Fatal e σ'
  end.

Definition fatal {A} (e : failure) : M A := λ σ, Fatal e σ.

Definition lift {A} (r : fs → result A) : M A := λ σ,
  match r σ with
  | Ok a => Done a σ
  | Err e => Fatal e σ
  end.

(** [os.Stat(path)] returning no error *)
Definition exists_ (path : string) : M bool := λ σ,
  Done (bool_decide (is_Some (σ !! path))) σ.

(** [os.Open] for reading *)
Definition open (path : string) : M file := λ σ,
  match σ !! path with
  | Some f => Done f σ
  | None => Fatal (FailedOpen path) σ
  end.

(** The content of [path] becomes [f]: [os.OpenFile] with
    [O_TRUNC|O_CREATE|O_WRONLY] and what has been written through it,
    [ioutil.WriteFile]. *)
Definition store (path : string) (f : file) : M unit := λ σ,
  Done tt (<[path := f]> σ).

(** [os.Remove], its error ignored as in [main] *)
Definition remove (path : string) : M unit := λ σ, Done tt (delete path σ).

(** ** [writeProfile] *)
Definition writeProfile (dest profileName profileData : string) : M unit :=
  store (dest +:+ "." +:+ profileName +:+ ".profile")
    (Plain (list_ascii_of_string profileData)).

(** ** [createDeltaBackup] *)

(** What the program cannot tell of the zstd streams it reads and writes;
    both are parameters of the model.
    - [delivered m] is the number of bytes the one [tarreader.Read(d)] of
      the copy loop hands over for the entry [m] when it is asked for
      [hdr.Size] bytes.  A [Read] may return fewer bytes than it is asked
      for and no error: the tar reader passes on what one [Read] of the
      zstd decoder gives, and that is what is left of the block the
      decoder holds.
    - [onDisk out] is what the file of the destination holds while the tar
      writer has been given the entries [out] and nothing has been closed:
      the part of the compressed stream that the zstd writer has flushed
      to the file so far, which may be nothing at all. *)
Record streams := mkStreams {
  delivered : member → Z;
  onDisk : list member → file
}.

(** The entry the tar writer holds after [WriteHeader(hdr)] and
    [Write(d)]. *)
Definition written (h : Header) (d : bytes) : member := mkMember h d false.

(** [n] of [n, err := tarreader.Read(d)] with [d] of [hdr.Size] bytes: not
    more than was asked for, than the entry has, or than the decoder hands
    over at once. *)
Definition readInto (z : streams) (m : member) : Z :=
  Z.max 0 (Z.min (delivered z m) (Z.min (Size (hdr m)) (len (payload m)))).

(** The copy loop.  [out] is what the tar writer has been given so far;
    the file of the destination holds what [onDisk] makes of it.  Whenever
    [n] falls short of [hdr.Size] one of the two tests after [Read] ends
    the process, the first when the read also reported the end of the
    entry or an error, the second (tar Input truncated) when it reported
    none; the model has one failure for both.  The tar writer takes every
    header and every payload it is given. *)
Fixpoint copyLoop (z : streams) (src dest : string)
    (filesChanged : gset string) (ms : list member) (intact : bool)
    (out : list member) : M (list member) :=
  match ms with
  | [] => if intact then mret out else fatal (FailedTarContent src)
  | m :: ms' =>
      let h := hdr m in
      if decide (Name h ∈ filesChanged) then
        _ ← store dest (onDisk z (out ++ [written h []]));
        if decide (Size h < 0) then fatal PanicMakeSlice else
        let n := readInto z m in
        if decide (n ≠ Size h) then
          fatal (FailedReadFromTar (Name h) n (Size h))
        else
          let d := take (Z.to_nat n) (payload m) in
          let out' := out ++ [written h d] in
          _ ← store dest (onDisk z out');
          copyLoop z src dest filesChanged ms' intact out'
      else copyLoop z src dest filesChanged ms' intact out
  end.

(** [fr.WriteString(filesRemoved[i] + "\n")] for every [i] *)
Fixpoint removedManifest (filesRemoved : list string) : bytes :=
  match filesRemoved with
  | [] => []
  | p :: ps => list_ascii_of_string p ++ [LF] ++ removedManifest ps
  end.

(** [os.OpenFile] creates the destination as an empty file; the deferred
    [Close] calls, which run when the function returns and only then,
    complete the archive. *)
Definition createDeltaBackup (z : streams) (src : string)
    (filesChanged : gset string) (filesRemoved : list string)
    (dest profileName profileData : string) : M unit :=
  present ← exists_ dest;
  if (present : bool) then mret tt (* Do nothing, if destination exists *)
  else
    f ← open src;
    let '(ms, intact) := asArchive f in
    _ ← store dest (Plain []);
    out ← copyLoop z src dest filesChanged ms intact [];
    _ ← store (dest +:+ ".removed") (Plain (removedManifest filesRemoved));
    _ ← writeProfile dest profileName profileData;
    (* the deferred Close of the tar writer, the zstd writer and the file *)
    store dest (TarZst out true).


(** What the copy loop writes for the entry [m]: its header and the
    [hdr.Size] bytes read from it. *)
Definition copyOf (m : member) : member :=
  written (hdr m) (take (Z.to_nat (Size (hdr m))) (payload m)).

(** The entries the copy loop picks. *)
Definition selected (filesChanged : gset string) (m : member) : Prop :=
  Name (hdr m) ∈ filesChanged.

#[global] Instance selected_dec filesChanged m :
  Decision (selected filesChanged m).
Proof. unfold selected. apply _. Defined.

(** An entry that the one [Read] of the copy loop hands over whole:
    [n == hdr.Size]. *)
Definition readWhole (z : streams) (m : member) : Prop :=
  readInto z m = Size (hdr m).

#[global] Instance readWhole_dec z m : Decision (readWhole z m).
Proof. unfold readWhole. apply _. Defined.
(** ** [encoding/csv], with the settings of [csv.NewWriter] and
    [csv.NewReader]

    [Comma] is [','], [UseCRLF], [LazyQuotes] and [TrimLeadingSpace] are
    off and there is no [Comment] character. *)

(** [bytes.IndexByte] *)
Fixpoint indexByte (c : ascii) (b : bytes) : option nat :=
  match b with
  | [] => None
  | x :: b' => if decide (x = c) then Some 0%nat else S <$> indexByte c b'
  end.

(** *** Writer *)

(** The UTF-8 encodings of the code points [unicode.IsSpace] accepts.
    [utf8.DecodeRuneInString] gives one of these code points only for its
    own shortest encoding, so that the first rune of a field is a space
    exactly when the field starts with one of these byte sequences. *)
Definition spaceRunes : list (list N) :=
  [ [9]; [10]; [11]; [12]; [13]; [32]; [194; 133]; [194; 160];
    [225; 154; 128];
    [226; 128; 128]; [226; 128; 129]; [226; 128; 130]; [226; 128; 131];
    [226; 128; 132]; [226; 128; 133]; [226; 128; 134]; [226; 128; 135];
    [226; 128; 136]; [226; 128; 137]; [226; 128; 138];
    [226; 128; 168]; [226; 128; 169]; [226; 128; 175];
    [226; 129; 159]; [227; 128; 128] ]%N.

Definition hasPrefix (b prefix : bytes) : bool :=
  bool_decide (take (length prefix) b = prefix).

Definition firstRuneIsSpace (field : bytes) : bool :=
  existsb (λ r, hasPrefix field (ascii_of_N <$> r)) spaceRunes.

Definition special (c : ascii) : bool :=
  bool_decide (c = LF ∨ c = CR ∨ c = dquote ∨ c = comma).

(** [Writer.fieldNeedsQuotes] *)
Definition fieldNeedsQuotes (field : string) : bool :=
  if decide (field = EmptyString) then false
  else if decide (field = "\.") then true
  else if existsb special (list_ascii_of_string field) then true
  else firstRuneIsSpace (list_ascii_of_string field).

(** The inner loop of [Writer.Write] on a quoted field: a quote is
    written twice, a carriage return and a line feed as they are. *)
Fixpoint escapeField (field : bytes) : bytes :=
  match field with
  | [] => []
  | c :: field' =>
      if decide (c = dquote) then dquote :: dquote :: escapeField field'
      else c :: escapeField field'
  end.

Definition writeField (field : string) : bytes :=
  if fieldNeedsQuotes field then
    [dquote] ++ escapeField (list_ascii_of_string field) ++ [dquote]
  else list_ascii_of_string field.

(** [for n, field := range record]: a comma before every field but the
    first. *)
Fixpoint writeFields (n : nat) (record : list string) : bytes :=
  match record with
  | [] => []
  | field :: record' =>
      (if decide (0 < n)%nat then [comma] else []) ++ writeField field
      ++ writeFields (S n) record'
  end.

(** [Writer.Write] *)
Definition Write (record : list string) : bytes :=
  writeFields 0 record ++ [LF].

(** [Writer.WriteAll]: every record, then [Flush]. *)
Fixpoint WriteAll (records : list (list string)) : bytes :=
  match records with
  | [] => []
  | record :: records' => Write record ++ WriteAll records'
  end.

(** *** Reader *)

Inductive csvError := ErrBareQuote | ErrQuote | ErrFieldCount.

(** What a step of the reader comes back with: a value, a parse error, the
    end of the input, or the recursion budget of the model used up (which
    the budgets given below never let happen). *)
Inductive csvResult (A : Type) :=
| Got (a : A)
| Failed (e : csvError)
| EndOfFile
| NoFuel.
Arguments Got {A} a.
Arguments Failed {A} e.
Arguments EndOfFile {A}.
Arguments NoFuel {A}.

(** [lengthNL] *)
Definition lengthNL (b : bytes) : nat :=
  if bool_decide (last b = Some LF) then 1%nat else 0%nat.

(** For backwards compatibility, drop trailing CR before EOF. *)
Definition dropFinalCR (line : bytes) : bytes :=
  if bool_decide (last line = Some CR) then take (length line - 1) line
  else line.

(** Normalize CR LF to LF on all input lines. *)
Definition normalizeCRLF (line : bytes) : bytes :=
  let n := length line in
  if bool_decide ((2 ≤ n)%nat ∧ line !! (n - 2)%nat = Some CR
                  ∧ line !! (n - 1)%nat = Some LF)
  then take (n - 2) line ++ [LF]
  else line.

(** [Reader.readLine]: the line, the input left, and whether the error
    is [io.EOF]. *)
Definition readLine (input : bytes) : bytes * bytes * bool :=
  match indexByte LF input with
  | Some i => (normalizeCRLF (take (S i) input), drop (S i) input, false)
  | None =>
      match input with
      | [] => ([], [], true)
      | _ => (normalizeCRLF (dropFinalCR input), [], false)
      end
  end.

(** The [parseField] loop of [Reader.readRecord] and, inside it, the loop
    over a quoted field.  [line] is the line being cut up, [rest] the input
    not read yet, [fields] the fields of the record so far and [buf] the
    bytes of the quoted field so far. *)
Fixpoint parseField (fuel : nat) (line rest : bytes) (fields : list string)
    {struct fuel} : csvResult (list string * bytes) :=
  match fuel with
  | O => NoFuel
  | S fuel' =>
      if bool_decide (head line = Some dquote) then
        (* Quoted string field *)
        parseQuoted fuel' (drop 1 line) rest [] fields
      else
        (* Non-quoted string field *)
        let i := indexByte comma line in
        let field :=
          match i with
          | Some i => take i line
          | None => take (length line - lengthNL line) line
          end in
        if bool_decide (is_Some (indexByte dquote field)) then
          Failed ErrBareQuote
        else
          let fields' := fields ++ [string_of_list_ascii field] in
          match i with
          | Some i => parseField fuel' (drop (S i) line) rest fields'
          | None => Got (fields', rest)
          end
  end
with parseQuoted (fuel : nat) (line rest buf : bytes) (fields : list string)
    {struct fuel} : csvResult (list string * bytes) :=
  match fuel with
  | O => NoFuel
  | S fuel' =>
      match indexByte dquote line with
      | Some i =>
          (* Hit next quote. *)
          let buf' := buf ++ take i line in
          let line' := drop (S i) line in
          if bool_decide (head line' = Some dquote) then
            (* two quotes in a row: append a quote *)
            parseQuoted fuel' (drop 1 line') rest (buf' ++ [dquote]) fields
          else if bool_decide (head line' = Some comma) then
            (* quote, comma: end of field *)
            parseField fuel' (drop 1 line') rest
              (fields ++ [string_of_list_ascii buf'])
          else if bool_decide (lengthNL line' = length line') then
            (* quote, end of line: end of record *)
            Got (fields ++ [string_of_list_ascii buf'], rest)
          else
            (* quote, then anything else: invalid non-escaped quote *)
            Failed ErrQuote
      | None =>
          if bool_decide (0 < length line)%nat then
            (* Hit end of line (copy all data so far). *)
            let '(line2, rest2, _) := readLine rest in
            parseQuoted fuel' line2 rest2 (buf ++ line) fields
          else
            (* Abrupt end of file. *)
            Failed ErrQuote
      end
  end.

(** The first loop of [readRecord] (empty lines are passed over) and then
    the fields of the line found. *)
Fixpoint parseRecord (fuel : nat) (input : bytes)
    : csvResult (list string * bytes) :=
  match fuel with
  | O => NoFuel
  | S fuel' =>
      let '(line, rest, eof) := readLine input in
      if (eof : bool) then EndOfFile
      else if bool_decide (length line = lengthNL line) then
        parseRecord fuel' rest
      else parseField (S (length line + length rest)) line rest []
  end.

(** The reader: the expected number of fields and the input not read. *)
Record Reader := mkReader {
  FieldsPerRecord : Z;
  unread : bytes
}.

(** [Reader.readRecord]: the record and the reader after it. *)
Definition readRecord (rd : Reader) : csvResult (list string * Reader) :=
  match parseRecord (S (length (unread rd))) (unread rd) with
  | Got (dst, rest) =>
      if decide (0 < FieldsPerRecord rd) then
        if decide (Z.of_nat (length dst) ≠ FieldsPerRecord rd) then
          Failed ErrFieldCount
        else Got (dst, mkReader (FieldsPerRecord rd) rest)
      else if decide (FieldsPerRecord rd = 0) then
        Got (dst, mkReader (Z.of_nat (length dst)) rest)
      else Got (dst, mkReader (FieldsPerRecord rd) rest)
  | Failed e => Failed e
  | EndOfFile => EndOfFile
  | NoFuel => NoFuel
  end.

(** The loop of [Reader.ReadAll] *)
Fixpoint readAllLoop (fuel : nat) (rd : Reader)
    (records : list (list string)) : csvResult (list (list string)) :=
  match fuel with
  | O => NoFuel
  | S fuel' =>
      match readRecord rd with
      | Got (record, rd') => readAllLoop fuel' rd' (records ++ [record])
      | Failed e => Failed e
      | EndOfFile => Got records
      | NoFuel => NoFuel
      end
  end.

(** [Reader.ReadAll] *)
Definition ReadAll (rd : Reader) : csvResult (list (list string)) :=
  readAllLoop (S (length (unread rd))) rd [].

(** [csv.NewReader(f)] *)
Definition NewReader (input : bytes) : Reader := mkReader 0 input.

(** ** The fingerprint file: [writeFileData] and [loadFileData] *)

(** [sort.Strings]: increasing in the order of Go's [<] on strings, which
    compares byte by byte. *)
Definition sortStrings (names : list string) : list string :=
  merge_sort String.le names.

(** The slice [fl] of two-field records that [writeFileData] hands to the
    csv writer. *)
Definition fileDataRecords (fd : table) : list (list string) :=
  let fdnames := sortStrings (map_to_list fd).*1 in
  (λ name, [name; default EmptyString (fd !! name)]) <$> fdnames.

Definition writeFileData (out : string) (fd : table) : M unit :=
  store out (Plain (WriteAll (fileDataRecords fd))).

(** The loop [checksums[l[0]] = l[1]]; indexing beyond the fields of a
    record panics. *)
Fixpoint fillChecksums (c : list (list string)) (checksums : table)
    : result table :=
  match c with
  | [] => Ok checksums
  | l :: c' =>
      match l !! 0%nat, l !! 1%nat with
      | Some path, Some md5sum =>
          fillChecksums c' (<[path := md5sum]> checksums)
      | _, _ => Err PanicIndexOutOfRange
      end
  end.

(** [loadFileData] on the bytes of the file *)
Definition parseFileData (fname : string) (data : bytes) : result table :=
  match ReadAll (NewReader data) with
  | Got c => fillChecksums c ∅
  | _ => Err (FailedDecodeCsv fname)
  end.

(** [loadFileData].  The bytes of a compressed archive are not part of the
    model; reading one as a fingerprint file is taken to fail in the csv
    decoder. *)
Definition loadFileData (fname : string) (σ : fs) : result table :=
  match σ !! fname with
  | None => Err (FailedOpen fname)
  | Some (Plain data) => parseFileData fname data
  | Some (TarZst _ _) => Err (FailedDecodeCsv fname)
  end.

(** The records as they stand in a fingerprint file: what the reader
    returns when it does not compare the numbers of fields
    ([FieldsPerRecord] negative). *)
Definition recordsOf (data : bytes) : csvResult (list (list string)) :=
  ReadAll (mkReader (-1) data).

(** The table that maps the first field of every record to its second, a
    later record overriding an earlier one. *)
Definition tableOfRecords (c : list (list string)) : table :=
  foldl (λ t l, <[default EmptyString (l !! 0%nat)
                    := default EmptyString (l !! 1%nat)]> t) ∅ c.

(** ** Vocabulary of the round trip *)

(** A carriage return directly followed by a line feed somewhere in [b]. *)
Fixpoint hasCRLF (b : bytes) : bool :=
  match b with
  | [] => false
  | x :: b' =>
      (bool_decide (x = CR) && bool_decide (head b' = Some LF)) || hasCRLF b'
  end.

(** Input that [readLine] cuts into lines without changing a byte: no
    carriage return before a line feed, and a line feed at the end. *)
Definition plain (input : bytes) : Prop :=
  hasCRLF input = false ∧ (input = [] ∨ last input = Some LF).

(** Bytes that can be followed by anything without a carriage return, line
    feed pair arising. *)
Definition tidy (b : bytes) : Prop :=
  hasCRLF b = false ∧ last b ≠ Some CR.

(** The first line of the input, up to and with its line feed, and the
    input after it. *)
Definition firstLine (input : bytes) : bytes * bytes :=
  match indexByte LF input with
  | Some i => (take (S i) input, drop (S i) input)
  | None => (input, [])
  end.

(** The two loops of the reader started on the input [input], whose first
    line is the line being cut up. *)
Definition fieldsFrom (input : bytes) (fields : list string)
    : csvResult (list string * bytes) :=
  parseField (S (length input)) (firstLine input).1 (firstLine input).2 fields.

Definition quotedFrom (input buf : bytes) (fields : list string)
    : csvResult (list string * bytes) :=
  parseQuoted (S (length input)) (firstLine input).1 (firstLine input).2
    buf fields.

(** ** [main]: bucket names, rotation and the backup of one container *)

(** [fmt.Sprintf("%d", n)] *)
Definition sprintfD (n : Z) : string :=
  DecimalString.NilZero.string_of_int (Z.to_int n).

(** The calendar fields of [now := time.Now()] that [main] reads:
    [now.Year()], [now.Month()], [now.Day()], [now.Weekday()] (0 = Sunday),
    the week of [now.ISOWeek()], and the text of [now.String()]. *)
Record Time := mkTime {
  Year : Z;
  Month : Z;
  Day : Z;
  Weekday : Z;
  ISOWeek : Z;
  timeString : string
}.

(** [fmt.Sprintf("-Q%d%d.tar.zst", now.Year(), now.Month()/4)]; Go's [/] on
    integers truncates. *)
Definition quarter (now : Time) : string :=
  "-Q" +:+ sprintfD (Year now) +:+ sprintfD (Month now ÷ 4) +:+ ".tar.zst".

(** [fmt.Sprintf("-M%d-delta.tar.zst", now.Month())] *)
Definition monthDelta (now : Time) : string :=
  "-M" +:+ sprintfD (Month now) +:+ "-delta.tar.zst".

(** [fmt.Sprintf("-WN%d-delta.tar.zst", w%4)] *)
Definition weekDelta (now : Time) : string :=
  "-WN" +:+ sprintfD (Z.rem (ISOWeek now) 4) +:+ "-delta.tar.zst".

(** [fmt.Sprintf("-WD%d-delta.tar.zst", now.Weekday())] *)
Definition dayDelta (now : Time) : string :=
  "-WD" +:+ sprintfD (Weekday now) +:+ "-delta.tar.zst".

(** [containerState], without the running state and the host, which only
    the calls of [lxc] and the filters use. *)
Record containerState := mkContainer {
  name : string;
  profileName : string;
  profile : string
}.

(** The three [os.Remove] before the deltas are built; [base] is
    [lxdBackupPrefix + c.name]. *)
Definition evictBuckets (now : Time) (base : string) : M unit :=
  _ ← (if decide (Day now = 1) then remove (base +:+ monthDelta now)
       else mret tt);
  _ ← (if decide (Weekday now = 1) (* monday *) then
         remove (base +:+ weekDelta now)
       else mret tt);
  remove (base +:+ dayDelta now).

Definition noChangesLog (now : Time) : bytes :=
  list_ascii_of_string (timeString now +:+ ": No changes") ++ [LF].

Definition statusLog (now : Time) (d : diffResult) : bytes :=
  list_ascii_of_string
    (timeString now +:+ ": "
     +:+ sprintfD (Z.of_nat (size (filesChangedAdded d)))
     +:+ " files changed/added, "
     +:+ sprintfD (Z.of_nat (length (filesRemoved d))) +:+ " removed.")
  ++ [LF].

(** The rest of the loop body of [main] once the diff [d] is known, from
    the test for no changes to the removal of the temporary export. *)
Definition deltaStage (z : streams) (now : Time) (base exportName : string)
    (d : diffResult) (c : containerState) : M unit :=
  if noChanges d then store (base +:+ ".log") (Plain (noChangesLog now))
  else
    _ ← evictBuckets now base;
    _ ← createDeltaBackup z exportName (filesChangedAdded d) (filesRemoved d)
          (base +:+ monthDelta now) (profileName c) (profile c);
    _ ← createDeltaBackup z exportName (filesChangedAdded d) (filesRemoved d)
          (base +:+ weekDelta now) (profileName c) (profile c);
    _ ← createDeltaBackup z exportName (filesChangedAdded d) (filesRemoved d)
          (base +:+ dayDelta now) (profileName c) (profile c);
    _ ← store (base +:+ ".log") (Plain (statusLog now d));
    remove exportName.

Section main.
Variable md5Sum : bytes → bytes.
Variable z : streams.

(** The loop body of [main] for one container.  [lxc export] is the
    file [exported] appearing under the export name; stopping and
    starting the container leave the directory alone.  [tmpName] is the
    name made from [time.Now().UnixNano()].  The two maps are ranged over
    in the order of [map_to_list]. *)
Definition backupContainer (now : Time) (lxdBackupPrefix : string)
    (c : containerState) (exported : file) (tmpName : string) : M unit :=
  let base := lxdBackupPrefix +:+ name c in
  let qBackup := base +:+ quarter now in
  present ← exists_ qBackup;
  let exportName := if (present : bool) then tmpName else qBackup in
  _ ← store exportName exported;
  sums ← lift (fetchFileDataFromTar md5Sum exportName);
  if present then
    quarterSums ← lift (loadFileData (qBackup +:+ ".md5sum"));
    deltaStage z now base exportName (diffTables quarterSums sums) c
  else
    (* Save md5sums for quarterly *)
    _ ← writeFileData (exportName +:+ ".md5sum") sums;
    writeProfile exportName (profileName c) (profile c).
End main.
(** ** Sample archives and directories for the examples *)

(** A stand-in for the digest in the examples: one byte, the length of the
    input. *)
Definition sampleSum (b : bytes) : bytes := [ascii_of_nat (length b)].

Definition fileHeader (path : string) (size : Z) : Header :=
  mkHeader path TypeReg size 420 EmptyString.

Definition dirHeader (path : string) : Header :=
  mkHeader path "5"%char 0 493 EmptyString.

Definition rootDir : member := mkMember (dirHeader "rootfs/") [] false.

Definition fileA : member :=
  mkMember (fileHeader "rootfs/a" 3) (list_ascii_of_string "aaa") false.

Definition fileB : member :=
  mkMember (fileHeader "rootfs/b" 2) (list_ascii_of_string "bb") false.

(** An entry that declares five bytes in a stream that ends after two: the
    tar reader reports an unexpected end of the input. *)
Definition cutShort : member :=
  mkMember (fileHeader "rootfs/c" 5) (list_ascii_of_string "cc") true.

Definition exportName : string := "lxd-temporary-backup-1.tar.zstd".

Definition soundExport : fs :=
  {[ exportName := TarZst [rootDir; fileA; fileB] true ]}.


Definition brokenExport : fs :=
  {[ exportName := TarZst [fileA; cutShort] false ]}.

Definition monthSlot : string := "lxd-backup-web-M7-delta.tar.zst".

(** Streams as the small samples meet them: the decoder hands over every
    entry at once, and nothing of an archive reaches the file before the
    zstd writer is closed. *)
Definition wholeReads : streams :=
  mkStreams (λ m, Size (hdr m)) (λ _, Plain []).

(** The directory after the build of [monthSlot] from [brokenExport] broke
    off: the slot is there, and empty. *)
Definition afterCrash : fs := <[ monthSlot := Plain [] ]> brokenExport.

(** A regular file of 128 KiB, alone in an export.  The decoder holds a
    block of 131072 bytes of the tar stream, of which the header of the
    entry takes the first 512: one [Read] hands over the 130560 bytes that
    are left of the block. *)
Definition bigFile : member :=
  mkMember (fileHeader "rootfs/big" 131072)
    (repeat "x"%char (Z.to_nat 131072)) false.

Definition bigExport : fs := {[ exportName := TarZst [bigFile] true ]}.

Definition blockReads : streams :=
  mkStreams (λ _, 131072 - 512) (λ _, Plain []).

(** Monday 1 July 2024, in ISO week 27. *)
Definition firstOfJuly : Time := mkTime 2024 7 1 1 27 "2024-07-01 02:00:00".

Definition web : containerState := mkContainer "web" "default" "config: {}".

(** A directory with the baseline of the running period, its fingerprint
    file, and the three slots left by earlier runs. *)
Definition withOldSlots : fs :=
  {[ "lxd-backup-web-Q20241.tar.zst" := TarZst [rootDir; fileA; fileB] true;
     "lxd-backup-web-Q20241.tar.zst.md5sum" :=
       Plain (list_ascii_of_string "rootfs/a,03" ++ [LF]
              ++ list_ascii_of_string "rootfs/b,02" ++ [LF]);
     "lxd-backup-web-M7-delta.tar.zst" := TarZst [fileA] true;
     "lxd-backup-web-WN3-delta.tar.zst" := TarZst [fileA] true;
     "lxd-backup-web-WD1-delta.tar.zst" := TarZst [fileB] true ]}.

(** A fingerprint file whose only record has three fields, and one whose
    records have one field each. *)
Definition threeFields : bytes :=
  list_ascii_of_string "rootfs/a,03,extra" ++ [LF].

Definition oneField : bytes :=
  list_ascii_of_string "rootfs/a" ++ [LF]
  ++ list_ascii_of_string "rootfs/b" ++ [LF].

(** An archive in which [rootfs/a] comes twice, and a fingerprint file with
    two records for it. *)
Definition fileAagain : member :=
  mkMember (fileHeader "rootfs/a" 5) (list_ascii_of_string "AAAAA") false.

Definition twiceInArchive : fs :=
  {[ exportName := TarZst [fileA; fileB; fileAagain] true ]}.

Definition twiceInFile : fs :=
  {[ "baseline.md5sum" :=
       Plain (list_ascii_of_string "rootfs/a,03" ++ [LF]
              ++ list_ascii_of_string "rootfs/a,05" ++ [LF]) ]}.

(** A path with a carriage return and a line feed in it, the same path
    without the carriage return, and a table with the first. *)
Definition crlfPath : string := String "a" (String CR (String LF "b")).

Definition lfPath : string := String "a" (String LF "b").

Definition crlfTable : table := {[ crlfPath := "03" ]}.


(** The directory after the month slot was built from the sample export,
    with [rootfs/b] changed and [rootfs/old] removed. *)
Definition afterDelta : fs :=
  {[ exportName := TarZst [rootDir; fileA; fileB] true;
     monthSlot := TarZst [fileB] true;
     monthSlot +:+ ".removed" :=
       Plain (list_ascii_of_string "rootfs/old" ++ [LF]);
     monthSlot +:+ ".default.profile" :=
       Plain (list_ascii_of_string "config: {}") ]}.
(** ** The containers: [lxcList], the flags of [main], the filters *)

Inductive runningState := stateRunning | stateStopped.

(** [containerState] in full: the three fields the backup of a container
    reads, the host and the running state. *)
Record listed := mkListed {
  container : containerState;
  host : string;
  state : runningState
}.

(** The failures of [lxcList]. *)
Inductive listFailure :=
| FailedConvertCsv
    (* "Failed to convert raw CSV to [][]string" *)
| UnknownState (cname cstate : string)
    (* "Unknown state for %s - %s - Giving up." *)
| ListIndexOutOfRange.
    (* runtime error: index out of range *)

(** The [switch] on [containersCsv[i][1]] *)
Definition stateOf (s : string) : option runningState :=
  if decide (s = "STOPPED") then Some stateStopped
  else if decide (s = "RUNNING") then Some stateRunning
  else None.

(** The loop of [lxcList] over the records of the listing, from record
    [i] on.  [profileShow i] is what [execLxc] returns for the profile of
    record [i].  The state is looked at first, then the name, the profile
    name and the host. *)
Fixpoint containersFrom (profileShow : nat → string) (i : nat)
    (containersCsv : list (list string)) : listFailure + list listed :=
  match containersCsv with
  | [] => inr []
  | row :: rows =>
      match row !! 1%nat with
      | None => inl ListIndexOutOfRange
      | Some st =>
          match stateOf st with
          | None => inl (UnknownState (default EmptyString (row !! 0%nat)) st)
          | Some s =>
              match row !! 0%nat, row !! 3%nat, row !! 2%nat with
              | Some cname, Some pname, Some h =>
                  match containersFrom profileShow (S i) rows with
                  | inr containers =>
                      inr (mkListed (mkContainer cname pname (profileShow i))
                             h s :: containers)
                  | inl e => inl e
                  end
              | _, _, _ => inl ListIndexOutOfRange
              end
          end
      end
  end.

(** [lxcList] on the output [stdout] of [lxc list -c nsLP -f csv]. *)
Definition lxcList (profileShow : nat → string) (stdout : string)
    : listFailure + list listed :=
  match ReadAll (NewReader (list_ascii_of_string stdout)) with
  | Got containersCsv => containersFrom profileShow 0 containersCsv
  | _ => inl FailedConvertCsv
  end.

(** Record [row], the record [i] of the listing, is what container [c]
    was made from. *)
Definition listedAs (profileShow : nat → string) (i : nat)
    (row : list string) (c : listed) : Prop :=
  row !! 0%nat = Some (name (container c))
  ∧ row !! 1%nat = Some (match state c with
                         | stateRunning => "RUNNING"
                         | stateStopped => "STOPPED"
                         end)
  ∧ row !! 2%nat = Some (host c)
  ∧ row !! 3%nat = Some (profileName (container c))
  ∧ profile (container c) = profileShow i.

(** A record the loop of [lxcList] gets past: four fields or more, the
    second of them one of the two states. *)
Definition wellListed (row : list string) : Prop :=
  (4 ≤ length row)%nat
  ∧ (row !! 1%nat = Some "STOPPED" ∨ row !! 1%nat = Some "RUNNING").

#[global] Instance wellListed_dec row : Decision (wellListed row).
Proof. unfold wellListed. apply _. Defined.

(** [strings.Split(s, ",")]: the pieces of [s] between the commas, one more
    than there are commas. *)
Fixpoint splitComma (s : string) : list string :=
  match s with
  | EmptyString => [EmptyString]
  | String c s' =>
      if decide (c = comma) then EmptyString :: splitComma s'
      else
        match splitComma s' with
        | piece :: pieces => String c piece :: pieces
        | [] => [String c EmptyString]
        end
  end.

(** [toMap] of [main]: a [map[string]bool] that holds [true] for every
    piece that is not empty, hence a set. *)
Definition toMap (s : string) : gset string :=
  foldl (λ m v, if decide (0 < String.length v)%nat then {[v]} ∪ m else m)
    ∅ (splitComma s).

(** The loop of [filterHost] and of [filterCont]: [key] is the host or the
    name, [ctmp] the slice being filled. *)
Fixpoint filterLoop (key : listed → string) (containers : list listed)
    (keys : gset string) (inc : bool) (ctmp : list listed) : list listed :=
  match containers with
  | [] => ctmp
  | c :: containers' =>
      filterLoop key containers' keys inc
        (if decide (bool_decide (key c ∈ keys) = inc) then ctmp ++ [c]
         else ctmp)
  end.

Definition filterHost (containers : list listed) (hosts : gset string)
    (inc : bool) : list listed :=
  if decide (size hosts = 0%nat) then containers
  else filterLoop host containers hosts inc [].

Definition filterCont (containers : list listed) (names : gset string)
    (inc : bool) : list listed :=
  if decide (size names = 0%nat) then containers
  else filterLoop (λ c, name (container c)) containers names inc [].

(** What [main] does with the four flags and the listing: it gives up when
    both an include and an exclude list are given for the containers or for
    the hosts, and filters otherwise. *)
Inductive flagFailure :=
| BothContainerLists
    (* "You can only include or exclude containers. Not include and
       exclude." *)
| BothHostLists.
    (* "You can only include or exclude hosts. Not include and exclude." *)

Definition selectContainers (contExcStr contIncStr hostExcStr hostIncStr
    : string) (containers : list listed) : flagFailure + list listed :=
  if decide (0 < String.length contExcStr ∧ 0 < String.length contIncStr)%nat
  then inl BothContainerLists
  else if decide (0 < String.length hostExcStr
                  ∧ 0 < String.length hostIncStr)%nat
  then inl BothHostLists
  else
    let hostExc := toMap hostExcStr in
    let hostInc := toMap hostIncStr in
    let contExc := toMap contExcStr in
    let contInc := toMap contIncStr in
    let containers := filterHost containers hostExc false in
    let containers := filterHost containers hostInc true in
    let containers := filterCont containers contExc false in
    inr (filterCont containers contInc true).


(** ** The names [main] gives to the files of one container *)

(** [lxdBackupPrefix + c.name] *)
Definition baseName (lxdBackupPrefix : string) (c : containerState)
    : string :=
  lxdBackupPrefix +:+ name c.

(** [qBackup := lxdBackupPrefix + c.name + quarter] *)
Definition qBackup (now : Time) (lxdBackupPrefix : string)
    (c : containerState) : string :=
  baseName lxdBackupPrefix c +:+ quarter now.

(** [exportName + ".md5sum"] *)
Definition md5sumFile (exportName : string) : string :=
  exportName +:+ ".md5sum".

(** [dest + "." + profileName + ".profile"] *)
Definition profileFile (dest profileName : string) : string :=
  dest +:+ "." +:+ profileName +:+ ".profile".

(** [dest + ".removed"] *)
Definition removedFile (dest : string) : string := dest +:+ ".removed".

(** [lxdBackupPrefix + c.name + ".log"] *)
Definition logFile (lxdBackupPrefix : string) (c : containerState)
    : string :=
  baseName lxdBackupPrefix c +:+ ".log".

(** The archive a delta slot holds when it is built from an export with the
    entries [ms] for the diff [d]. *)
Definition deltaOf (d : diffResult) (ms : list member) : file :=
  TarZst (filter (selected (filesChangedAdded d)) ms) true.

(** Wednesday 3 July 2024, in ISO week 27. *)
Definition thirdOfJuly : Time := mkTime 2024 7 3 3 27 "2024-07-03 02:00:00".

(** [rootfs/b] after it grew by two bytes. *)
Definition fileBgrown : member :=
  mkMember (fileHeader "rootfs/b" 4) (list_ascii_of_string "bbbb") false.

(** The directory an outcome leaves, whether the process went on or
    ended. *)
Definition outcomeState {A} (o : outcome A) : fs :=
  match o with
  | Done _ σ => σ
  | Fatal _ σ => σ
  end.

(** A step of the process that leaves every path outside [P] as it
    was, however it ends. *)
Definition keepsOutside {A} (P : string → Prop) (m : M A) : Prop :=
  ∀ σ p, ¬ P p → outcomeState (m σ) !! p = σ !! p.

(** The fourteen names the loop body of [main] uses for a container: the
    temporary name, the quarterly backup with its fingerprint file and its
    profile, the log, and the three slots, each with its list of removed
    paths and its profile. *)
Definition namesOf (now : Time) (lxdBackupPrefix : string)
    (c : containerState) (tmpName : string) : list string :=
  let slots := (λ s, baseName lxdBackupPrefix c +:+ s)
                 <$> [monthDelta now; weekDelta now; dayDelta now] in
  [tmpName; qBackup now lxdBackupPrefix c;
   md5sumFile (qBackup now lxdBackupPrefix c);
   profileFile (qBackup now lxdBackupPrefix c) (profileName c);
   logFile lxdBackupPrefix c]
  ++ slots ++ (removedFile <$> slots)
  ++ ((λ dest, profileFile dest (profileName c)) <$> slots).
(** * Properties *)

(** ** The diff *)

Section diff_facts.
Context (quarterSums sums : table).

Lemma scanQuarter_changed qs acc p :
  p ∈ filesChangedAdded (foldl (scanQuarter sums) acc qs) ↔
  p ∈ filesChangedAdded acc ∨
  ∃ dOld dCur, (p, dOld) ∈ qs ∧ sums !! p = Some dCur ∧ dCur ≠ dOld.
Proof.
  revert acc. induction qs as [|[f o] qs IH]; intros acc; simpl.
  - split; [auto|]. intros [?|(?&?&H&_)]; [done|]. by apply elem_of_nil in H.
  - rewrite IH. unfold scanQuarter.
    destruct (sums !! f) as [c|] eqn:Hf; [destruct (decide (c = o))|]; simpl.
    + split.
      * intros [?|(x&y&?&?&?)]; [by left|].
        right; exists x, y; split_and!; [by right|done..].
      * intros [?|(x&y&Hin&?&?)]; [by left|].
        apply elem_of_cons in Hin as [[= -> ->]|?]; [congruence|].
        right; exists x, y; done.
    + rewrite elem_of_union, elem_of_singleton.
      split.
      * intros [[->|?]|(x&y&?&?&?)]; [|by left|].
        { right; exists o, c; split_and!; [by left|done..]. }
        right; exists x, y; split_and!; [by right|done..].
      * intros [?|(x&y&Hin&?&?)]; [left; by right|].
        apply elem_of_cons in Hin as [[= -> ->]|?]; [left; by left|].
        right; exists x, y; done.
    + split.
      * intros [?|(x&y&?&?&?)]; [by left|].
        right; exists x, y; split_and!; [by right|done..].
      * intros [?|(x&y&Hin&?&?)]; [by left|].
        apply elem_of_cons in Hin as [[= -> ->]|?]; [congruence|].
        right; exists x, y; done.
Qed.

Lemma scanQuarter_removed qs acc :
  filesRemoved (foldl (scanQuarter sums) acc qs) =
  filesRemoved acc ++ filter (λ f, sums !! f = None) qs.*1.
Proof.
  revert acc. induction qs as [|[f o] qs IH]; intros acc; simpl.
  - by rewrite app_nil_r.
  - rewrite IH. unfold scanQuarter. rewrite filter_cons. simpl.
    destruct (sums !! f) as [c|] eqn:Hf.
    + destruct (decide (Some c = None)) as [?|_]; [done|].
      by destruct (decide (c = o)).
    + destruct (decide (None = None)) as [_|?]; [|done].
      simpl. by rewrite <-app_assoc.
Qed.

Lemma scanCurrent_changed cs acc p :
  p ∈ filesChangedAdded (foldl (scanCurrent quarterSums) acc cs) ↔
  p ∈ filesChangedAdded acc ∨ (p ∈ cs.*1 ∧ quarterSums !! p = None).
Proof.
  revert acc. induction cs as [|[f c] cs IH]; intros acc; simpl.
  - split; [auto|]. intros [?|[H _]]; [done|]. by apply elem_of_nil in H.
  - rewrite IH. unfold scanCurrent. simpl.
    destruct (quarterSums !! f) as [o|] eqn:Hf; simpl.
    + rewrite elem_of_cons. split; [tauto|].
      intros [?|[[->|?] ?]]; [tauto|congruence|tauto].
    + rewrite elem_of_union, elem_of_singleton, elem_of_cons.
      split; [intros [[->|?]|[? ?]]; tauto|].
      intros [?|[[->|?] ?]]; tauto.
Qed.

Lemma scanCurrent_removed cs acc :
  filesRemoved (foldl (scanCurrent quarterSums) acc cs) = filesRemoved acc.
Proof.
  revert acc. induction cs as [|[f c] cs IH]; intros acc; simpl; [done|].
  rewrite IH. unfold scanCurrent. simpl. by destruct (quarterSums !! f).
Qed.
End diff_facts.

(** C1. For every baseline table and current table, and whatever the order
    in which the two maps are ranged over, the diff puts a path in
    [filesChangedAdded] exactly when the current table has it with a digest
    the baseline does not give it (absent or different), puts a path in
    [filesRemoved] exactly when the baseline has it and the current table
    does not (once each), the two are disjoint, and a path with the same
    digest in both tables is in neither. *)
Theorem diff_classifies (quarterSums sums : table)
    (qs cs : list (string * string)) :
  qs ≡ₚ map_to_list quarterSums →
  cs ≡ₚ map_to_list sums →
  (let r := diffOver qs cs quarterSums sums in
   (∀ p, p ∈ filesChangedAdded r ↔
         ∃ d, sums !! p = Some d ∧ quarterSums !! p ≠ Some d) ∧
   (∀ p, p ∈ filesRemoved r ↔ is_Some (quarterSums !! p) ∧ sums !! p = None) ∧
   NoDup (filesRemoved r) ∧
   (∀ p, p ∈ filesChangedAdded r → p ∉ filesRemoved r) ∧
   (∀ p d, quarterSums !! p = Some d → sums !! p = Some d →
           (p ∉ filesChangedAdded r) ∧ (p ∉ filesRemoved r))).
Proof.
  intros Hqs Hcs r.
  assert (Hq : ∀ p d, (p, d) ∈ qs ↔ quarterSums !! p = Some d).
  { intros p d. rewrite Hqs. apply elem_of_map_to_list. }
  assert (Hc : ∀ p, p ∈ cs.*1 ↔ is_Some (sums !! p)).
  { intros p. rewrite Hcs. rewrite list_elem_of_fmap. split.
    - intros ([k v]&->&Hin). apply elem_of_map_to_list in Hin. by exists v.
    - intros [v Hv]. exists (p, v). split; [done|].
      by apply elem_of_map_to_list. }
  assert (Hch : ∀ p, p ∈ filesChangedAdded r ↔
        ∃ d, sums !! p = Some d ∧ quarterSums !! p ≠ Some d).
  { intros p. unfold r, diffOver.
    rewrite scanCurrent_changed, scanQuarter_changed, Hc. simpl. split.
    - intros [[Hin|(o&c&Hin&Hs&Hne)]|[[c Hs] Hn]].
      + by apply elem_of_empty in Hin.
      + exists c. split; [done|]. apply Hq in Hin. congruence.
      + exists c. split; [done|]. congruence.
    - intros (c&Hs&Hne). destruct (quarterSums !! p) as [o|] eqn:Ho.
      + left; right. exists o, c. rewrite Hq. split_and!; congruence.
      + right. split; [by exists c|done]. }
  assert (Hrm : ∀ p, p ∈ filesRemoved r ↔
        is_Some (quarterSums !! p) ∧ sums !! p = None).
  { intros p. unfold r, diffOver.
    rewrite scanCurrent_removed, scanQuarter_removed. simpl.
    rewrite list_elem_of_filter, list_elem_of_fmap. split.
    - intros [Hn ([k v]&->&Hin)]. apply Hq in Hin. split; [by exists v|done].
    - intros [[v Hv] Hn]. split; [done|].
      exists (p, v). split; [done|]. by apply Hq. }
  split_and!; [done|done| | |].
  - unfold r, diffOver.
    rewrite scanCurrent_removed, scanQuarter_removed. simpl.
    apply NoDup_filter. rewrite Hqs. apply NoDup_fst_map_to_list.
  - intros p [c [Hs _]]%Hch [_ Hn]%Hrm. congruence.
  - intros p d Ho Hs. split.
    + intros (c&Hs'&Hne)%Hch. congruence.
    + intros [_ Hn]%Hrm. congruence.
Qed.

(** The scenario of the specification: [a] unchanged, [b] changed, [c]
    added, nothing removed. *)
Lemma diff_classifies_witness :
  let B : table := <["a" := "h1"]> (<["b" := "h2"]> ∅) in
  let C : table := <["a" := "h1"]> (<["b" := "h3"]> (<["c" := "h4"]> ∅)) in
  let r := diffOver (map_to_list B) (map_to_list C) B C in
  (∀ p, p ∈ filesChangedAdded r ↔ ∃ d, C !! p = Some d ∧ B !! p ≠ Some d) ∧
  (∀ p, p ∈ filesRemoved r ↔ is_Some (B !! p) ∧ C !! p = None) ∧
  NoDup (filesRemoved r) ∧
  (∀ p, p ∈ filesChangedAdded r → p ∉ filesRemoved r) ∧
  (∀ p d, B !! p = Some d → C !! p = Some d →
          (p ∉ filesChangedAdded r) ∧ (p ∉ filesRemoved r)).
Proof.
  intros B C.
  exact (diff_classifies B C (map_to_list B) (map_to_list C)
           (reflexivity _) (reflexivity _)).
Defined.

(** ** Fingerprinting *)

Section fetch_facts.
Variable md5Sum : bytes → bytes.

Lemma record_keeps_is_Some (l : list member) (g : table) k :
  is_Some (g !! k) →
  is_Some (foldl (record1 md5Sum) g l !! k).
Proof.
  revert g. induction l as [|y l IH]; intros g Hg; simpl; [done|].
  apply IH. unfold record1. destruct (decide (Name (hdr y) = k)) as [->|].
  - rewrite lookup_insert_eq. by eexists.
  - by rewrite lookup_insert_ne.
Qed.

Lemma fetchLoop_sound fname ms intact fd :
  Forall (λ m, regular m → sound m) ms →
  fetchLoop md5Sum fname ms intact fd =
    if intact then Ok (recorded md5Sum ms fd) else Err (FailedTarContent fname).
Proof.
  intros Hall. revert fd. induction Hall as [|m ms Hm _ IH]; intros fd.
  - done.
  - simpl. unfold recorded. rewrite filter_cons.
    destruct (decide (regular m)) as [Hr|Hn].
    + rewrite decide_False by (intros H; by apply H).
      destruct (Hm Hr) as [-> Hlen].
      rewrite decide_False by (intros H; by apply H).
      apply IH.
    + rewrite decide_True by done. apply IH.
Qed.

Lemma fetchLoop_app_sound fname pre ms intact fd :
  Forall (λ m, regular m → sound m) pre →
  fetchLoop md5Sum fname (pre ++ ms) intact fd =
    fetchLoop md5Sum fname ms intact (recorded md5Sum pre fd).
Proof.
  intros Hall. revert fd. induction Hall as [|m pre Hm _ IH]; intros fd.
  - done.
  - simpl. unfold recorded. rewrite filter_cons.
    destruct (decide (regular m)) as [Hr|Hn].
    + rewrite decide_False by (intros H; by apply H).
      destruct (Hm Hr) as [-> Hlen].
      rewrite decide_False by (intros H; by apply H).
      apply IH.
    + rewrite decide_True by done. apply IH.
Qed.

Lemma fetchLoop_Ok_inv fname ms intact fd fd' :
  fetchLoop md5Sum fname ms intact fd = Ok fd' →
  Forall (λ m, regular m → sound m) ms ∧ intact = true.
Proof.
  revert fd. induction ms as [|m ms IH]; intros fd; simpl.
  - destruct intact; [done|discriminate].
  - destruct (decide (Typeflag (hdr m) ≠ TypeReg)) as [Hn|Hr].
    + intros [Hall ?]%IH. split; [|done]. constructor; [|done].
      intros Hreg. by destruct Hn.
    + destruct (readErr m) eqn:He; [discriminate|].
      destruct (decide (len (payload m) ≠ Size (hdr m))) as [|Hlen];
        [discriminate|].
      intros [Hall ?]%IH. split; [|done]. constructor; [|done].
      intros _. split; [done|]. by apply dec_stable.
Qed.

Lemma recorded_last_wins pre m post fd :
  regular m →
  Forall (λ x, regular x → Name (hdr x) ≠ Name (hdr m)) post →
  recorded md5Sum (pre ++ m :: post) fd !! Name (hdr m)
    = Some (hexString (md5Sum (payload m))).
Proof.
  intros Hr Hpost. unfold recorded.
  rewrite filter_app, filter_cons, decide_True by done.
  rewrite foldl_app. simpl.
  generalize (foldl (record1 md5Sum) fd (filter regular pre)).
  intros fd0.
  assert (H : ∀ g : table,
    g !! Name (hdr m) = Some (hexString (md5Sum (payload m))) →
    foldl (record1 md5Sum) g (filter regular post) !! Name (hdr m)
      = Some (hexString (md5Sum (payload m)))).
  { clear fd0. induction Hpost as [|x post Hx _ IH]; intros g Hg; [done|].
    rewrite filter_cons.
    destruct (decide (regular x)) as [Hrx|]; [|by apply IH].
    simpl. apply IH. unfold record1. rewrite lookup_insert_ne; [done|].
    by apply Hx. }
  apply H. unfold record1. by rewrite lookup_insert_eq.
Qed.

Lemma recorded_lookup_Some ms fd p d :
  recorded md5Sum ms fd !! p = Some d →
  fd !! p = Some d ∨
  ∃ m, m ∈ ms ∧ regular m ∧ Name (hdr m) = p
       ∧ d = hexString (md5Sum (payload m)).
Proof.
  unfold recorded. revert fd. induction ms as [|m ms IH]; intros fd; [by left|].
  rewrite filter_cons. destruct (decide (regular m)) as [Hr|Hn].
  - simpl. intros [Hfd|(x&?&?&?&?)]%IH.
    + unfold record1 in Hfd. destruct (decide (Name (hdr m) = p)) as [<-|Hne].
      * rewrite lookup_insert_eq in Hfd. injection Hfd as <-.
        right. exists m. split_and!; [left|done..].
      * rewrite lookup_insert_ne in Hfd by done. by left.
    + right. exists x. split_and!; [by right|done..].
  - intros [?|(x&?&?&?&?)]%IH; [by left|].
    right. exists x. split_and!; [by right|done..].
Qed.

Lemma recorded_lookup_is_Some ms fd m :
  m ∈ ms → regular m → is_Some (recorded md5Sum ms fd !! Name (hdr m)).
Proof.
  unfold recorded. intros Hin Hr.
  assert (Hin' : m ∈ filter regular ms) by (by apply list_elem_of_filter).
  revert fd. induction (filter regular ms) as [|x l IH]; intros fd.
  - by apply elem_of_nil in Hin'.
  - simpl. apply elem_of_cons in Hin' as [->|Hin']; [|by apply IH].
    apply record_keeps_is_Some. unfold record1.
    rewrite lookup_insert_eq. by eexists.
Qed.
End fetch_facts.

(** C9 (amended). Fingerprinting an archive whose entries before [m] are
    fine: if [m] is not a regular file it is passed over, whatever reading
    it would deliver; if [m] is a regular file and the copy into the digest
    reports an error, fingerprinting fails with the copy error, which names
    neither the member nor any byte count; if the copy reports no error but
    consumed a number of bytes other than the declared size, it fails with
    the error naming the member path, the archive, the declared size and
    the number of bytes consumed; otherwise the digest of [m] is recorded
    under its path and the loop goes on.  When every regular entry is sound
    and the stream ends properly, the table returned has an entry for the
    path of every regular member and no entry that does not come from
    one. *)
Theorem fetch_member_outcome (md5Sum : bytes → bytes) (fname : string)
    (pre : list member) (m : member) (post : list member) (intact : bool) :
  Forall (λ x, regular x → sound x) pre →
  (let run := fetchLoop md5Sum fname (pre ++ m :: post) intact ∅ in
   let before := recorded md5Sum pre ∅ in
   (¬ regular m → run = fetchLoop md5Sum fname post intact before)
   ∧ (regular m → readErr m = true → run = Err FailedCopy)
   ∧ (regular m → readErr m = false → len (payload m) ≠ Size (hdr m) →
      run = Err (FailedReadAll (Name (hdr m)) fname (Size (hdr m))
                   (len (payload m))))
   ∧ (regular m → sound m →
      run = fetchLoop md5Sum fname post intact
              (<[Name (hdr m) := hexString (md5Sum (payload m))]> before))
   ∧ (Forall (λ x, regular x → sound x) (m :: post) → intact = true →
      ∃ fd, run = Ok fd
        ∧ (∀ x, x ∈ pre ++ m :: post → regular x →
                is_Some (fd !! Name (hdr x)))
        ∧ (∀ p d, fd !! p = Some d →
                  ∃ x, x ∈ pre ++ m :: post ∧ regular x ∧ Name (hdr x) = p
                       ∧ d = hexString (md5Sum (payload x))))).
Proof.
  intros Hpre run before. unfold run.
  rewrite fetchLoop_app_sound by done. fold before. simpl.
  split_and!.
  - intros Hn. by rewrite decide_True.
  - intros Hr He. rewrite decide_False by (intros H; by apply H).
    by rewrite He.
  - intros Hr He Hl. rewrite decide_False by (intros H; by apply H).
    rewrite He. by rewrite decide_True.
  - intros Hr [He Hl]. rewrite decide_False by (intros H; by apply H).
    rewrite He. by rewrite decide_False by (intros H; by apply H).
  - intros Hall ->.
    assert (Hall' : Forall (λ x, regular x → sound x) (pre ++ m :: post)).
    { by apply Forall_app. }
    pose proof (fetchLoop_sound md5Sum fname _ true ∅ Hall') as Hrun.
    rewrite fetchLoop_app_sound in Hrun by done. simpl in Hrun.
    fold before in Hrun. rewrite Hrun.
    eexists. split; [done|]. split.
    + intros x Hx Hr. by apply recorded_lookup_is_Some.
    + intros p d [Hfd|H]%recorded_lookup_Some; [|done].
      by rewrite lookup_empty in Hfd.
Qed.

(** A directory entry, a sound file and then a file that delivers two of
    its declared three bytes without an error being reported: the failure
    names the member and the two counts. *)
Lemma fetch_member_outcome_witness :
  fetchLoop sampleSum exportName
    ([rootDir; fileA]
     ++ mkMember (fileHeader "rootfs/b" 3) (list_ascii_of_string "bb") false
     :: [fileB]) true ∅
  = Err (FailedReadAll "rootfs/b" exportName 3 2).
Proof.
  refine (proj1 (proj2 (proj2 (fetch_member_outcome sampleSum exportName
    [rootDir; fileA]
    (mkMember (fileHeader "rootfs/b" 3) (list_ascii_of_string "bb") false)
    [fileB] true _))) eq_refl eq_refl _).
  - repeat constructor; vm_compute; intros; try done.
  - vm_compute. discriminate.
Defined.

(** C9, as stated, fails: for the regular member [rootfs/c], which declares
    five bytes and delivers two before the reader reports the end of the
    input, fingerprinting fails with the copy error and not with the error
    that names the member and the byte counts. *)
Lemma cut_short_member_fails_in_copy :
  regular cutShort
  ∧ len (payload cutShort) = 2 ∧ Size (hdr cutShort) = 5
  ∧ fetchFileDataFromTar sampleSum exportName brokenExport = Err FailedCopy.
Proof. split_and!; reflexivity. Qed.

(** ** The delta archive *)

Lemma append_ne_self (s t : string) : t ≠ EmptyString → s +:+ t ≠ s.
Proof.
  intros Ht H. apply Ht. clear Ht.
  induction s as [|a s IH]; [done|].
  apply IH. by injection H.
Qed.

Lemma copyOf_sound m : sound m → copyOf m = m.
Proof.
  intros [He Hl]. unfold copyOf, written. destruct m as [h p e]; simpl in *.
  subst e. f_equal. rewrite <-Hl. unfold len. rewrite Nat2Z.id.
  by rewrite firstn_all.
Qed.

Lemma readInto_whole z m : readInto z m = Size (hdr m) ↔ readWhole z m.
Proof. done. Qed.

Lemma readWhole_bounds z m :
  readWhole z m →
  0 ≤ Size (hdr m) ∧ Size (hdr m) ≤ len (payload m).
Proof. unfold readWhole, readInto, len. lia. Qed.

Lemma readWhole_sound z m :
  sound m → Size (hdr m) ≤ delivered z m → readWhole z m.
Proof.
  intros [_ Hl] Hd. unfold readWhole, readInto.
  unfold len in *. lia.
Qed.

Section copy_loop.
Context (z : streams) (src dest : string) (filesChanged : gset string).

Lemma copyLoop_Done ms intact out σ out' σ' :
  copyLoop z src dest filesChanged ms intact out σ = Done out' σ' →
  out' = out ++ (copyOf <$> filter (selected filesChanged) ms)
  ∧ intact = true
  ∧ Forall (λ m, selected filesChanged m → readWhole z m) ms
  ∧ ∀ p, p ≠ dest → σ' !! p = σ !! p.
Proof.
  revert out σ. induction ms as [|m ms IH]; intros out σ; simpl.
  - destruct intact; [|discriminate]. intros [= <- <-].
    by rewrite app_nil_r.
  - rewrite filter_cons.
    destruct (decide (Name (hdr m) ∈ filesChanged)) as [Hsel|Hsel].
    + rewrite (decide_True (P := selected filesChanged m)) by exact Hsel.
      unfold mbind, M_bind, store at 1.
      destruct (decide (Size (hdr m) < 0)); [discriminate|].
      destruct (decide (readInto z m ≠ Size (hdr m)))
        as [|Hn%dec_stable]; [discriminate|].
      unfold store at 1. rewrite Hn. intros Hrun.
      apply IH in Hrun as (->&->&Hall&Hframe).
      split_and!; [by rewrite fmap_cons, <-app_assoc|done| |].
      * constructor; [|done]. intros _. by apply readInto_whole.
      * intros p Hp. by rewrite Hframe, !lookup_insert_ne.
    + rewrite (decide_False (P := selected filesChanged m)) by exact Hsel.
      intros Hrun. apply IH in Hrun as (->&->&Hall&Hframe).
      split_and!; [done..| |done].
      constructor; [|done]. by intros ?.
Qed.

Lemma copyLoop_Fatal ms intact out σ e σ' f0 :
  σ !! dest = Some f0 →
  copyLoop z src dest filesChanged ms intact out σ = Fatal e σ' →
  ∃ f, σ' = <[dest := f]> σ ∧ (f = f0 ∨ ∃ out', f = onDisk z out').
Proof.
  revert out σ f0. induction ms as [|m ms IH]; intros out σ f0 Hdest; simpl.
  - destruct intact; [discriminate|]. intros [= <- <-].
    exists f0. split; [by rewrite insert_id|by left].
  - destruct (decide (Name (hdr m) ∈ filesChanged)) as [Hsel|Hsel].
    + unfold mbind, M_bind, store at 1.
      destruct (decide (Size (hdr m) < 0)).
      { intros [= <- <-]. eexists. split; [done|]. right. by eexists. }
      destruct (decide (readInto z m ≠ Size (hdr m))).
      { intros [= <- <-]. eexists. split; [done|]. right. by eexists. }
      unfold store at 1. intros Hrun.
      eapply IH in Hrun as (f&->&Hf); [|by rewrite lookup_insert_eq].
      exists f. split; [by rewrite !insert_insert_eq|].
      right. destruct Hf as [->|?]; [by eexists|done].
    + by apply IH.
Qed.

Lemma copyLoop_whole ms out σ :
  Forall (λ m, selected filesChanged m → readWhole z m) ms →
  ∃ σ',
    copyLoop z src dest filesChanged ms true out σ
    = Done (out ++ (copyOf <$> filter (selected filesChanged) ms)) σ'.
Proof.
  intros Hall. revert out σ.
  induction Hall as [|m ms Hm _ IH]; intros out σ; simpl.
  - rewrite app_nil_r. by eexists.
  - rewrite filter_cons.
    destruct (decide (Name (hdr m) ∈ filesChanged)) as [Hsel|Hsel].
    + rewrite (decide_True (P := selected filesChanged m)) by exact Hsel.
      pose proof (Hm Hsel) as Hw.
      pose proof (readWhole_bounds z m Hw) as [Hs _].
      apply readInto_whole in Hw.
      unfold mbind, M_bind, store at 1.
      rewrite decide_False by lia.
      rewrite decide_False by (by intros ?).
      unfold store at 1. rewrite Hw.
      destruct (IH (out ++ [written (hdr m)
                              (take (Z.to_nat (Size (hdr m))) (payload m))])
                  (<[dest := onDisk z
                       (out ++ [written (hdr m)
                                  (take (Z.to_nat (Size (hdr m)))
                                     (payload m))])]>
                     (<[dest := onDisk z (out ++ [written (hdr m) []])]> σ)))
        as [σ' ->].
      exists σ'. by rewrite fmap_cons, <-app_assoc.
    + rewrite (decide_False (P := selected filesChanged m)) by exact Hsel.
      apply IH.
Qed.
End copy_loop.

Lemma copyOf_selected_sound (filesChanged : gset string) (ms : list member) :
  Forall (λ m, selected filesChanged m → sound m) ms →
  copyOf <$> filter (selected filesChanged) ms
  = filter (selected filesChanged) ms.
Proof.
  intros Hall. rewrite <-(list_fmap_id (filter _ ms)) at 2.
  apply list_fmap_ext. intros i m Hm.
  apply list_elem_of_lookup_2, list_elem_of_filter in Hm as [Hsel Hin].
  rewrite Forall_forall in Hall. by apply copyOf_sound, Hall.
Qed.

Section delta_facts.
Context (z : streams) (src : string) (filesChanged : gset string)
  (filesRemoved : list string) (dest profileName profileData : string).

Lemma createDeltaBackup_present σ :
  is_Some (σ !! dest) →
  createDeltaBackup z src filesChanged filesRemoved dest profileName
    profileData σ = Done tt σ.
Proof.
  intros Hd. unfold createDeltaBackup, mbind, M_bind, exists_.
  by rewrite bool_decide_eq_true_2.
Qed.

Lemma createDeltaBackup_absent σ f :
  σ !! dest = None →
  σ !! src = Some f →
  createDeltaBackup z src filesChanged filesRemoved dest profileName
    profileData σ =
  match copyLoop z src dest filesChanged (asArchive f).1 (asArchive f).2 []
          (<[dest := Plain []]> σ) with
  | Done out σ2 =>
      Done tt
        (<[dest := TarZst out true]>
           (<[dest +:+ "." +:+ profileName +:+ ".profile"
                := Plain (list_ascii_of_string profileData)]>
              (<[dest +:+ ".removed" := Plain (removedManifest filesRemoved)]>
                 σ2)))
  | Fatal e σ2 => Fatal e σ2
  end.
Proof.
  intros Hd Hs. unfold createDeltaBackup, mbind, M_bind, exists_, open.
  rewrite bool_decide_eq_false_2 by (rewrite Hd; by intros [? ?]).
  rewrite Hs. destruct (asArchive f) as [ms intact]. simpl.
  unfold store at 1.
  by destruct (copyLoop z src dest filesChanged ms intact []
                 (<[dest := Plain []]> σ)).
Qed.

Lemma createDeltaBackup_Done_present σ σ' :
  createDeltaBackup z src filesChanged filesRemoved dest profileName
    profileData σ = Done tt σ' →
  is_Some (σ' !! dest).
Proof.
  destruct (σ !! dest) as [d|] eqn:Hd.
  - rewrite createDeltaBackup_present by (by rewrite Hd).
    intros [= <-]. by rewrite Hd.
  - unfold createDeltaBackup, mbind, M_bind, exists_, open.
    rewrite bool_decide_eq_false_2 by (rewrite Hd; by intros [? ?]).
    destruct (σ !! src) as [f|]; [|discriminate].
    destruct (asArchive f) as [ms intact]. unfold store at 1.
    destruct (copyLoop z src dest filesChanged ms intact []
                 (<[dest := Plain []]> σ)); [|discriminate].
    unfold store, writeProfile, store. intros [= <-].
    by rewrite lookup_insert_eq.
Qed.

(** The four ways a call can go. *)
Lemma createDeltaBackup_cases (σ : fs) :
  (is_Some (σ !! dest)
   ∧ createDeltaBackup z src filesChanged filesRemoved dest profileName
       profileData σ = Done tt σ)
  ∨ (σ !! dest = None ∧ σ !! src = None
     ∧ createDeltaBackup z src filesChanged filesRemoved dest profileName
         profileData σ = Fatal (FailedOpen src) σ)
  ∨ (σ !! dest = None
     ∧ ∃ e f,
         (f = Plain [] ∨ ∃ out, f = onDisk z out)
         ∧ createDeltaBackup z src filesChanged filesRemoved dest
             profileName profileData σ = Fatal e (<[dest := f]> σ))
  ∨ (σ !! dest = None
     ∧ ∃ f,
         σ !! src = Some f ∧ (asArchive f).2 = true
         ∧ Forall (λ m, selected filesChanged m → readWhole z m)
             (asArchive f).1
         ∧ createDeltaBackup z src filesChanged filesRemoved dest
             profileName profileData σ
           = Done tt
               (<[dest := TarZst (copyOf <$> filter (selected filesChanged)
                                               (asArchive f).1) true]>
                  (<[dest +:+ "." +:+ profileName +:+ ".profile"
                       := Plain (list_ascii_of_string profileData)]>
                     (<[dest +:+ ".removed"
                          := Plain (removedManifest filesRemoved)]> σ)))).
Proof.
  destruct (σ !! dest) as [d|] eqn:Hdest.
  { left. split; [done|]. apply createDeltaBackup_present. by rewrite Hdest. }
  right. destruct (σ !! src) as [f|] eqn:Hsrc.
  - right. rewrite (createDeltaBackup_absent σ f) by done.
    assert (<[dest := Plain []]> σ !! dest = Some (Plain []))
      as Hopen by apply lookup_insert_eq.
    destruct (copyLoop z src dest filesChanged (asArchive f).1 (asArchive f).2
                [] (<[dest := Plain []]> σ)) as [out σ2|e σ2] eqn:Hrun.
    + right. split; [done|]. exists f.
      apply copyLoop_Done in Hrun as (->&Hint&Hall&Hframe).
      split_and!; [done..|]. f_equal. simpl.
      apply map_eq. intros p. rewrite !lookup_insert.
      repeat case_decide; try done.
      rewrite Hframe by done. by rewrite lookup_insert_ne.
    + left. split; [done|].
      eapply copyLoop_Fatal in Hrun as (f'&->&Hf); [|done].
      exists e, f'. by rewrite insert_insert_eq.
  - left. split_and!; [done..|].
    unfold createDeltaBackup, mbind, M_bind, exists_, open.
    rewrite Hdest.
    rewrite bool_decide_eq_false_2 by (by intros [? ?]).
    by rewrite Hsrc.
Qed.

(** A build from an archive that is intact and whose changed entries
    come whole. *)
Lemma createDeltaBackup_whole σ ms :
  σ !! dest = None →
  σ !! src = Some (TarZst ms true) →
  Forall (λ m, selected filesChanged m → readWhole z m) ms →
  createDeltaBackup z src filesChanged filesRemoved dest profileName
    profileData σ
  = Done tt
      (<[dest := TarZst (copyOf <$> filter (selected filesChanged) ms)
                   true]>
         (<[dest +:+ "." +:+ profileName +:+ ".profile"
              := Plain (list_ascii_of_string profileData)]>
            (<[dest +:+ ".removed"
                 := Plain (removedManifest filesRemoved)]> σ))).
Proof.
  intros Hd Hs Hall.
  destruct (createDeltaBackup_cases σ)
    as [[[? ?] _]|[(_&?&_)|[(_&e&f&_&Hrun)|(_&f&Hf&_&_&Hrun)]]];
    [congruence..| |].
  - exfalso. rewrite (createDeltaBackup_absent σ _ Hd Hs) in Hrun. simpl in Hrun.
    destruct (copyLoop_whole z src dest filesChanged ms []
                (<[dest := Plain []]> σ) Hall) as [σ' Hloop].
    by rewrite Hloop in Hrun.
  - rewrite Hs in Hf. by injection Hf as <-.
Qed.

(** A build whose first entry is changed and comes short. *)
Lemma createDeltaBackup_short σ m ms intact :
  σ !! dest = None →
  σ !! src = Some (TarZst (m :: ms) intact) →
  selected filesChanged m →
  0 ≤ Size (hdr m) →
  readInto z m ≠ Size (hdr m) →
  createDeltaBackup z src filesChanged filesRemoved dest profileName
    profileData σ
  = Fatal (FailedReadFromTar (Name (hdr m)) (readInto z m) (Size (hdr m)))
      (<[dest := onDisk z [written (hdr m) []]]> σ).
Proof.
  intros Hd Hs Hsel Hsize Hshort.
  rewrite (createDeltaBackup_absent σ _ Hd Hs).
  cbv beta iota delta [asArchive fst snd copyLoop].
  rewrite (decide_True (P := Name (hdr m) ∈ filesChanged)) by exact Hsel.
  unfold mbind, M_bind, store at 1.
  rewrite decide_False by lia. rewrite decide_True by done.
  unfold fatal. by rewrite insert_insert_eq.
Qed.
End delta_facts.

(** C3 (the code falls short of it).  [createDeltaBackup] returns from
    building a destination that did not exist exactly when the source
    archive is intact to its end and the one [Read] of every entry whose
    path is in [filesChanged] hands the entry over whole.  The archive it
    then leaves at the destination is closed and holds, in the order of
    the source, exactly the entries of the source whose path is in
    [filesChanged], each with the header of the source entry and the
    [Size] bytes read from it, and nothing else; for sound entries these
    are the source's own.  An entry that the decoder hands over in pieces
    ends the process instead, however sound the archive. *)
Theorem delta_holds_changed_members (z : streams) (src : string)
    (filesChanged : gset string) (filesRemoved : list string)
    (dest profileName profileData : string) (σ : fs)
    (ms : list member) (intact : bool) :
  σ !! dest = None →
  σ !! src = Some (TarZst ms intact) →
  (∀ σ',
     createDeltaBackup z src filesChanged filesRemoved dest profileName
       profileData σ = Done tt σ' →
     σ' !! dest
       = Some (TarZst (copyOf <$> filter (selected filesChanged) ms) true))
  ∧ ((∃ σ',
        createDeltaBackup z src filesChanged filesRemoved dest profileName
          profileData σ = Done tt σ')
     ↔ intact = true
       ∧ Forall (λ m, selected filesChanged m → readWhole z m) ms)
  ∧ (Forall (λ m, selected filesChanged m → sound m) ms →
     copyOf <$> filter (selected filesChanged) ms
     = filter (selected filesChanged) ms).
Proof.
  intros Hd Hs.
  destruct (createDeltaBackup_cases z src filesChanged filesRemoved dest
              profileName profileData σ)
    as [[[? ?] _]|[(_&?&_)|[(_&e&f&_&Hrun)|(_&f&Hf&Hint&Hall&Hrun)]]];
    [congruence..| |].
  - split_and!.
    + intros σ'. by rewrite Hrun.
    + split.
      * intros [σ' Hdone]. by rewrite Hrun in Hdone.
      * intros [-> Hall]. exfalso.
        rewrite (createDeltaBackup_whole z src filesChanged filesRemoved
                   dest profileName profileData σ ms Hd Hs Hall) in Hrun.
        discriminate Hrun.
    + apply copyOf_selected_sound.
  - rewrite Hs in Hf. injection Hf as <-. simpl in *. subst intact.
    split_and!.
    + intros σ'. rewrite Hrun. intros [= <-]. by rewrite lookup_insert_eq.
    + split; [done|]. intros _. by eexists.
    + apply copyOf_selected_sound.
Qed.

(** C4. When a file already exists at the destination, [createDeltaBackup]
    returns with the directory exactly as it was: nothing is written to the
    destination, to its [.removed] manifest or to its profile file.  And
    whenever a call has returned, a second call with the same arguments
    returns with the directory exactly as the first call left it. *)
Theorem existing_destination_noop (z : streams) (src : string)
    (filesChanged : gset string) (filesRemoved : list string)
    (dest profileName profileData : string) (σ : fs) :
  (is_Some (σ !! dest) →
   createDeltaBackup z src filesChanged filesRemoved dest profileName
     profileData σ = Done tt σ)
  ∧ (∀ σ1,
       createDeltaBackup z src filesChanged filesRemoved dest profileName
         profileData σ = Done tt σ1 →
       createDeltaBackup z src filesChanged filesRemoved dest profileName
         profileData σ1 = Done tt σ1).
Proof.
  split.
  - apply createDeltaBackup_present.
  - intros σ1 H1. apply createDeltaBackup_present.
    by apply createDeltaBackup_Done_present in H1.
Qed.

(** C6 (amended). A [createDeltaBackup] that ends in a fatal error either
    failed to open the source, before the destination was created, and
    left the directory as it was; or it leaves a file behind at the
    destination, which did not exist before: the empty file that
    [os.OpenFile] created, or what the zstd writer had flushed of the
    entries written when the process ended, which for a small archive is
    nothing either.  Every later [createDeltaBackup] for that destination
    finds the file and returns without building anything. *)
Theorem fatal_leaves_unfinished_destination (z : streams) (src : string)
    (filesChanged : gset string) (filesRemoved : list string)
    (dest profileName profileData : string) (σ σ' : fs) (e : failure) :
  createDeltaBackup z src filesChanged filesRemoved dest profileName
    profileData σ = Fatal e σ' →
  (e = FailedOpen src ∧ σ' = σ ∧ σ !! dest = None)
  ∨ (∃ f,
       σ !! dest = None
       ∧ σ' = <[dest := f]> σ
       ∧ (f = Plain [] ∨ ∃ out, f = onDisk z out)
       ∧ ∀ z2 src2 filesChanged2 filesRemoved2 profileName2 profileData2,
           createDeltaBackup z2 src2 filesChanged2 filesRemoved2 dest
             profileName2 profileData2 σ' = Done tt σ').
Proof.
  destruct (createDeltaBackup_cases z src filesChanged filesRemoved dest
              profileName profileData σ)
    as [[_ ->]|[(Hd&_&->)|[(Hd&e'&f&Hf&->)|(_&f&_&_&_&->)]]];
    [discriminate| | |discriminate].
  - intros [= <- <-]. by left.
  - intros [= <- <-]. right. exists f. split_and!; [done..|].
    intros. apply createDeltaBackup_present. by rewrite lookup_insert_eq.
Qed.

(** On a sound export with [rootfs/b] changed and every entry handed over
    whole, the month slot is built and holds [rootfs/b] alone. *)
Lemma delta_holds_changed_members_witness :
  (∀ σ',
     createDeltaBackup wholeReads exportName {["rootfs/b"]} [] monthSlot
       "default" "config: {}" soundExport = Done tt σ' →
     σ' !! monthSlot
       = Some (TarZst (copyOf <$> filter (selected {["rootfs/b"]})
                                    [rootDir; fileA; fileB]) true))
  ∧ ((∃ σ',
        createDeltaBackup wholeReads exportName {["rootfs/b"]} [] monthSlot
          "default" "config: {}" soundExport = Done tt σ')
     ↔ true = true
       ∧ Forall (λ m, selected {["rootfs/b"]} m → readWhole wholeReads m)
           [rootDir; fileA; fileB])
  ∧ (Forall (λ m, selected {["rootfs/b"]} m → sound m)
       [rootDir; fileA; fileB] →
     copyOf <$> filter (selected {["rootfs/b"]}) [rootDir; fileA; fileB]
     = filter (selected {["rootfs/b"]}) [rootDir; fileA; fileB]).
Proof.
  apply (delta_holds_changed_members wholeReads exportName {["rootfs/b"]} []
           monthSlot "default" "config: {}" soundExport
           [rootDir; fileA; fileB] true); reflexivity.
Defined.

Example sample_delta_members :
  createDeltaBackup wholeReads exportName {["rootfs/b"]} [] monthSlot
    "default" "config: {}" soundExport
  = Done tt
      (<[monthSlot := TarZst [fileB] true]>
         (<[monthSlot +:+ ".default.profile"
            := Plain (list_ascii_of_string "config: {}")]>
            (<[monthSlot +:+ ".removed" := Plain []]> soundExport))).
Proof. reflexivity. Qed.

(** C3 fails in the code: the export holds one sound regular file of
    128 KiB, which fingerprinting reads to its end; the decoder hands the
    copy loop the 130560 bytes left of its block, the read is taken for a
    truncated input, the process ends, and the month slot stays behind
    empty, without the changed file. *)
Lemma sound_entry_in_pieces_ends_build :
  sound bigFile
  ∧ fetchFileDataFromTar sampleSum exportName bigExport
    = Ok (recorded sampleSum [bigFile] ∅)
  ∧ createDeltaBackup blockReads exportName {["rootfs/big"]} [] monthSlot
      "default" "config: {}" bigExport
    = Fatal (FailedReadFromTar "rootfs/big" 130560 131072)
        (<[monthSlot := Plain []]> bigExport).
Proof.
  assert (Hlen : len (payload bigFile) = 131072).
  { unfold len. change (payload bigFile)
      with (repeat "x"%char (Z.to_nat 131072)).
    rewrite repeat_length. by apply Z2Nat.id. }
  assert (Hsound : sound bigFile) by (by split).
  split_and!.
  - exact Hsound.
  - unfold fetchFileDataFromTar, bigExport.
    rewrite lookup_singleton_eq.
    cbv beta iota delta [asArchive].
    apply fetchLoop_sound. constructor; [done|constructor].
  - assert (Hread : readInto blockReads bigFile = 130560).
    { unfold readInto. rewrite Hlen. reflexivity. }
    rewrite <-Hread.
    apply (createDeltaBackup_short blockReads exportName {["rootfs/big"]} []
             monthSlot "default" "config: {}" bigExport bigFile [] true).
    + unfold bigExport. by apply lookup_singleton_ne.
    + unfold bigExport. apply lookup_singleton_eq.
    + unfold selected. change (Name (hdr bigFile)) with "rootfs/big".
      by apply elem_of_singleton.
    + done.
    + rewrite Hread. done.
Qed.

(** C6, as stated, fails: the build of the month slot from an export whose
    second changed entry is cut short ends in a fatal error; the slot,
    which did not exist, stays behind as an empty file, and the next build
    for the slot takes it as built. *)
Lemma half_written_delta_is_kept :
  brokenExport !! monthSlot = None
  ∧ createDeltaBackup wholeReads exportName {["rootfs/a"; "rootfs/c"]} []
      monthSlot "default" "config: {}" brokenExport
    = Fatal (FailedReadFromTar "rootfs/c" 2 5) afterCrash
  ∧ afterCrash !! monthSlot = Some (Plain [])
  ∧ createDeltaBackup wholeReads exportName {["rootfs/a"; "rootfs/c"]} []
      monthSlot "default" "config: {}" afterCrash
    = Done tt afterCrash.
Proof. split_and!; reflexivity. Qed.

Lemma fatal_leaves_unfinished_destination_witness :
  (FailedReadFromTar "rootfs/c" 2 5 = FailedOpen exportName
   ∧ afterCrash = brokenExport ∧ brokenExport !! monthSlot = None)
  ∨ (∃ f,
       brokenExport !! monthSlot = None
       ∧ afterCrash = <[monthSlot := f]> brokenExport
       ∧ (f = Plain [] ∨ ∃ out, f = onDisk wholeReads out)
       ∧ ∀ z2 src2 filesChanged2 filesRemoved2 profileName2 profileData2,
           createDeltaBackup z2 src2 filesChanged2 filesRemoved2 monthSlot
             profileName2 profileData2 afterCrash = Done tt afterCrash).
Proof.
  apply (fatal_leaves_unfinished_destination wholeReads exportName
           {["rootfs/a"; "rootfs/c"]} [] monthSlot "default" "config: {}").
  reflexivity.
Defined.

(** ** Bucket names and rotation *)

(** C7: the code at the twelve months of 2022.  The key of the baseline
    is the year followed by [Month/4], so that January to March share a
    key, April to July share the next, August to November the third, and
    December has one of its own: July is not with August and September,
    and October and November are not with December. *)
Theorem quarter_keys_of_2022 :
  (λ m, quarter (mkTime 2022 m 15 0 1 EmptyString))
    <$> [1; 2; 3; 4; 5; 6; 7; 8; 9; 10; 11; 12]
  = [ "-Q20220.tar.zst"; "-Q20220.tar.zst"; "-Q20220.tar.zst";
      "-Q20221.tar.zst"; "-Q20221.tar.zst"; "-Q20221.tar.zst";
      "-Q20221.tar.zst";
      "-Q20222.tar.zst"; "-Q20222.tar.zst"; "-Q20222.tar.zst";
      "-Q20222.tar.zst";
      "-Q20223.tar.zst" ].
Proof. reflexivity. Qed.

Lemma append_cancel (s a b : string) : s +:+ a = s +:+ b → a = b.
Proof. apply (inj (String.app s)). Qed.

Lemma log_is_no_slot (now : Time) (base : string) :
  base +:+ ".log" ≠ base +:+ monthDelta now
  ∧ base +:+ ".log" ≠ base +:+ weekDelta now
  ∧ base +:+ ".log" ≠ base +:+ dayDelta now.
Proof. split_and!; intros H%append_cancel; discriminate H. Qed.

Lemma evictBuckets_run (now : Time) (base : string) (σ : fs) :
  evictBuckets now base σ =
  Done tt
    (delete (base +:+ dayDelta now)
       ((if decide (Weekday now = 1) then delete (base +:+ weekDelta now)
         else id)
          ((if decide (Day now = 1) then delete (base +:+ monthDelta now)
            else id) σ))).
Proof.
  unfold evictBuckets, mbind, M_bind, remove.
  by destruct (decide (Day now = 1)), (decide (Weekday now = 1)).
Qed.

(** C5 (amended). On a run that has computed the diff [d]: when the diff is
    empty only the log is written, and the month, week and day slots are
    left as they were; when the diff is not empty, the slots are evicted by
    the calendar alone, before the first build: the day slot always, the
    month slot when the day of the month is 1, the week slot when the
    weekday is Monday, no other file being touched, and the three builds,
    the log and the removal of the export run on the directory so
    evicted. *)
Theorem eviction_only_with_changes (z : streams) (now : Time)
    (base exportName : string)
    (d : diffResult) (c : containerState) (σ : fs) :
  (noChanges d = true →
   deltaStage z now base exportName d c σ
     = Done tt (<[base +:+ ".log" := Plain (noChangesLog now)]> σ)
   ∧ ∀ slot, slot ∈ [monthDelta now; weekDelta now; dayDelta now] →
       (<[base +:+ ".log" := Plain (noChangesLog now)]> σ) !! (base +:+ slot)
         = σ !! (base +:+ slot))
  ∧ (noChanges d = false →
     ∃ σe,
       evictBuckets now base σ = Done tt σe
       ∧ σe !! (base +:+ dayDelta now) = None
       ∧ (Day now = 1 → σe !! (base +:+ monthDelta now) = None)
       ∧ (Weekday now = 1 → σe !! (base +:+ weekDelta now) = None)
       ∧ (∀ p, p ∉ [base +:+ monthDelta now; base +:+ weekDelta now;
                    base +:+ dayDelta now] → σe !! p = σ !! p)
       ∧ deltaStage z now base exportName d c σ
         = (_ ← createDeltaBackup z exportName (filesChangedAdded d)
                  (filesRemoved d) (base +:+ monthDelta now)
                  (profileName c) (profile c);
            _ ← createDeltaBackup z exportName (filesChangedAdded d)
                  (filesRemoved d) (base +:+ weekDelta now)
                  (profileName c) (profile c);
            _ ← createDeltaBackup z exportName (filesChangedAdded d)
                  (filesRemoved d) (base +:+ dayDelta now)
                  (profileName c) (profile c);
            _ ← store (base +:+ ".log") (Plain (statusLog now d));
            remove exportName) σe).
Proof.
  split.
  - intros Hno. unfold deltaStage. rewrite Hno. split; [done|].
    destruct (log_is_no_slot now base) as (Hm & Hw & Hd).
    intros slot Hin. rewrite lookup_insert_ne; [done|].
    repeat (apply elem_of_cons in Hin as [->|Hin]); [done..|].
    by apply elem_of_nil in Hin.
  - intros Hch. eexists. split; [apply evictBuckets_run|].
    split_and!.
    + by rewrite lookup_delete_eq.
    + intros H1. rewrite (decide_True (P := Day now = 1)) by done.
      destruct (decide (base +:+ dayDelta now = base +:+ monthDelta now))
        as [->|]; [by rewrite lookup_delete_eq|].
      rewrite lookup_delete_ne by done.
      destruct (decide (Weekday now = 1)).
      * destruct (decide (base +:+ weekDelta now = base +:+ monthDelta now))
          as [->|]; [by rewrite lookup_delete_eq|].
        rewrite lookup_delete_ne by done. by rewrite lookup_delete_eq.
      * simpl. by rewrite lookup_delete_eq.
    + intros H1. rewrite (decide_True (P := Weekday now = 1)) by done.
      destruct (decide (base +:+ dayDelta now = base +:+ weekDelta now))
        as [->|]; [by rewrite lookup_delete_eq|].
      rewrite lookup_delete_ne by done. by rewrite lookup_delete_eq.
    + intros p Hp.
      rewrite lookup_delete_ne by (intros <-; apply Hp; set_solver).
      destruct (decide (Weekday now = 1)), (decide (Day now = 1)); simpl;
        rewrite ?lookup_delete_ne; try done;
        intros <-; apply Hp; set_solver.
    + unfold deltaStage. rewrite Hch.
      unfold mbind at 1, M_bind at 1. by rewrite evictBuckets_run.
Qed.

(** C5, as stated, fails: on Monday 1 July 2024 the export of [web] is the
    same as the baseline, and the run leaves the month, week and day slots
    of earlier runs where they are. *)
Lemma unchanged_export_evicts_nothing :
  Day firstOfJuly = 1 ∧ Weekday firstOfJuly = 1
  ∧ ∃ σ',
      backupContainer sampleSum wholeReads firstOfJuly "lxd-backup-" web
        (TarZst [rootDir; fileA; fileB] true) exportName withOldSlots
      = Done tt σ'
      ∧ σ' !! ("lxd-backup-web" +:+ monthDelta firstOfJuly)
        = Some (TarZst [fileA] true)
      ∧ σ' !! ("lxd-backup-web" +:+ weekDelta firstOfJuly)
        = Some (TarZst [fileA] true)
      ∧ σ' !! ("lxd-backup-web" +:+ dayDelta firstOfJuly)
        = Some (TarZst [fileB] true).
Proof.
  split; [done|]. split; [done|].
  eexists. split; [vm_compute; reflexivity|].
  split_and!; reflexivity.
Qed.

(** ** The csv reader: lines, the recursion budget *)

Lemma indexByte_Some c b i :
  indexByte c b = Some i →
  b !! i = Some c ∧ (c ∉ take i b) ∧ (i < length b)%nat.
Proof.
  revert i. induction b as [|x b IH]; intros i; simpl; [done|].
  destruct (decide (x = c)) as [->|Hne].
  - intros [= <-]. simpl. split_and!; [done|apply not_elem_of_nil|lia].
  - destruct (indexByte c b) as [j|]; [|done]. intros [= <-].
    destruct (IH j eq_refl) as (?&?&?). simpl. split_and!; [done| |lia].
    rewrite not_elem_of_cons. split; [congruence|done].
Qed.

Lemma indexByte_None c b : indexByte c b = None ↔ c ∉ b.
Proof.
  induction b as [|x b IH]; simpl.
  - split; [intros _; apply not_elem_of_nil|done].
  - rewrite not_elem_of_cons. destruct (decide (x = c)) as [->|Hne].
    + split; [done|]. by intros [? _].
    + destruct (indexByte c b) as [j|].
      * split; [done|]. intros [_ Hn]. by apply IH in Hn.
      * split; [|done]. intros _. split; [congruence|]. by apply IH.
Qed.

Lemma indexByte_app c a b :
  c ∉ a → indexByte c (a ++ c :: b) = Some (length a).
Proof.
  induction a as [|x a IH]; simpl; intros Hn.
  - by rewrite decide_True.
  - apply not_elem_of_cons in Hn as [Hne Hn].
    rewrite decide_False by congruence. by rewrite IH.
Qed.

Lemma normalizeCRLF_length line :
  (length (normalizeCRLF line) ≤ length line)%nat.
Proof.
  unfold normalizeCRLF. case_bool_decide as H; [|lia].
  rewrite length_app, length_take. simpl. lia.
Qed.

Lemma dropFinalCR_length line :
  (length (dropFinalCR line) ≤ length line)%nat.
Proof.
  unfold dropFinalCR. case_bool_decide; [|lia]. rewrite length_take. lia.
Qed.

Lemma readLine_length input line rest eof :
  readLine input = (line, rest, eof) →
  (length line + length rest ≤ length input)%nat
  ∧ (eof = false → (length rest < length input)%nat)
  ∧ (eof = true → input = []).
Proof.
  unfold readLine. destruct (indexByte LF input) as [i|] eqn:Hi.
  - intros [= <- <- <-]. apply indexByte_Some in Hi as (_&_&Hlt).
    pose proof (normalizeCRLF_length (take (S i) input)) as Hn.
    rewrite length_take in Hn. rewrite length_drop.
    split_and!; [lia|lia|done].
  - destruct input as [|x input].
    + intros [= <- <- <-]. simpl. split_and!; [lia|done|done].
    + intros [= <- <- <-].
      pose proof (normalizeCRLF_length (dropFinalCR (x :: input))).
      pose proof (dropFinalCR_length (x :: input)).
      simpl in *. split_and!; [lia|lia|done].
Qed.

(** A budget above the number of bytes left is as good as any larger
    one. *)
Lemma parse_budget n :
  (∀ fuel line rest fields,
     (length line + length rest < n)%nat → (n ≤ fuel)%nat →
     parseField fuel line rest fields = parseField n line rest fields)
  ∧ (∀ fuel line rest buf fields,
     (length line + length rest < n)%nat → (n ≤ fuel)%nat →
     parseQuoted fuel line rest buf fields
       = parseQuoted n line rest buf fields).
Proof.
  induction n as [|n [IHf IHq]]; [split; intros; lia|].
  split.
  - intros [|fuel] line rest fields Hm Hle; [lia|]. simpl.
    case_bool_decide as Hq.
    + apply IHq; [|lia]. destruct line; [done|]. simpl in *.
      rewrite drop_0. lia.
    + destruct (indexByte comma line) as [i|] eqn:Hi; [|done].
      case_bool_decide; [done|].
      apply IHf; [|lia]. apply indexByte_Some in Hi as (_&_&?).
      rewrite length_drop. lia.
  - intros [|fuel] line rest buf fields Hm Hle; [lia|]. simpl.
    destruct (indexByte dquote line) as [i|] eqn:Hi.
    + apply indexByte_Some in Hi as (_&_&?).
      case_bool_decide.
      { apply IHq; [|lia]. rewrite !length_drop. lia. }
      case_bool_decide; [|done].
      apply IHf; [|lia]. rewrite !length_drop. lia.
    + case_bool_decide; [|done].
      destruct (readLine rest) as [[line2 rest2] eof] eqn:Hr.
      apply readLine_length in Hr as (?&_&_).
      apply IHq; lia.
Qed.

Lemma parseField_budget fuel line rest fields :
  (length line + length rest < fuel)%nat →
  parseField fuel line rest fields
    = parseField (S (length line + length rest)) line rest fields.
Proof. intros. apply parse_budget; lia. Qed.

Lemma parseQuoted_budget fuel line rest buf fields :
  (length line + length rest < fuel)%nat →
  parseQuoted fuel line rest buf fields
    = parseQuoted (S (length line + length rest)) line rest buf fields.
Proof. intros. apply parse_budget; lia. Qed.

(** With such a budget the loops come back with a record or a parse error:
    the budget is not used up, they do not report the end of the input,
    every record has a field, and the input left is no longer than before. *)
Lemma parse_total n :
  (∀ line rest fields,
     (length line + length rest < n)%nat →
     (∃ e, parseField n line rest fields = Failed e)
     ∨ ∃ dst rest', parseField n line rest fields = Got (dst, rest')
         ∧ dst ≠ [] ∧ (length rest' ≤ length rest)%nat)
  ∧ (∀ line rest buf fields,
     (length line + length rest < n)%nat →
     (∃ e, parseQuoted n line rest buf fields = Failed e)
     ∨ ∃ dst rest', parseQuoted n line rest buf fields = Got (dst, rest')
         ∧ dst ≠ [] ∧ (length rest' ≤ length rest)%nat).
Proof.
  induction n as [|n [IHf IHq]]; [split; intros; lia|].
  split.
  - intros line rest fields Hm. simpl.
    case_bool_decide as Hq.
    + apply IHq. destruct line; [done|]. simpl in *. rewrite drop_0. lia.
    + destruct (indexByte comma line) as [i|] eqn:Hi.
      * case_bool_decide; [left; by eexists|].
        apply IHf. apply indexByte_Some in Hi as (_&_&?).
        rewrite length_drop. lia.
      * case_bool_decide; [left; by eexists|].
        right. eexists _, _. split; [done|]. split; [|lia].
        by destruct fields.
  - intros line rest buf fields Hm. simpl.
    destruct (indexByte dquote line) as [i|] eqn:Hi.
    + apply indexByte_Some in Hi as (_&_&?).
      case_bool_decide.
      { apply IHq. rewrite !length_drop. lia. }
      case_bool_decide.
      { apply IHf. rewrite !length_drop. lia. }
      case_bool_decide; [|left; by eexists].
      right. eexists _, _. split; [done|]. split; [|lia]. by destruct fields.
    + case_bool_decide; [|left; by eexists].
      destruct (readLine rest) as [[line2 rest2] eof] eqn:Hr.
      apply readLine_length in Hr as (?&_&_).
      destruct (IHq line2 rest2 (buf ++ line) fields) as [?|(dst&r'&?&?&?)];
        [lia|by left|].
      right. exists dst, r'. split_and!; [done|done|lia].
Qed.

Lemma parseRecord_total fuel input :
  (length input < fuel)%nat →
  (∃ e, parseRecord fuel input = Failed e)
  ∨ (parseRecord fuel input = EndOfFile)
  ∨ ∃ dst rest, parseRecord fuel input = Got (dst, rest)
      ∧ dst ≠ [] ∧ (length rest < length input)%nat.
Proof.
  revert input. induction fuel as [|fuel IH]; intros input Hm; [lia|].
  simpl. destruct (readLine input) as [[line rest] eof] eqn:Hr.
  apply readLine_length in Hr as (Hl&Hrest&Heof).
  destruct eof; [right; by left|]. specialize (Hrest eq_refl).
  case_bool_decide.
  - destruct (IH rest) as [?|[?|(dst&r'&?&?&?)]]; [lia|by left|right; by left|].
    right; right. exists dst, r'. split_and!; [done|done|lia].
  - destruct (proj1 (parse_total (S (length line + length rest)))
                line rest []) as [?|(dst&r'&?&?&?)]; [lia|by left|].
    right; right. exists dst, r'. split_and!; [done|done|lia].
Qed.

Lemma readAllLoop_total fuel rd records :
  (length (unread rd) < fuel)%nat →
  (∃ e, readAllLoop fuel rd records = Failed e)
  ∨ ∃ c, readAllLoop fuel rd records = Got c.
Proof.
  revert rd records. induction fuel as [|fuel IH]; intros rd records Hm; [lia|].
  simpl. unfold readRecord.
  destruct (parseRecord_total (S (length (unread rd))) (unread rd))
    as [[e ->]|[->|(dst&rest&->&_&Hlt)]];
    [lia|left; by eexists|right; by eexists|].
  repeat case_decide; try (left; by eexists); apply IH; simpl; lia.
Qed.

(** [ReadAll] always comes back with the records or with a parse error. *)
Lemma ReadAll_total rd :
  (∃ e, ReadAll rd = Failed e) ∨ ∃ c, ReadAll rd = Got c.
Proof. apply readAllLoop_total. lia. Qed.

(** ** The fingerprint file: which files load *)

Lemma readRecord_cases rd :
  (∃ e, parseRecord (S (length (unread rd))) (unread rd) = Failed e
        ∧ readRecord rd = Failed e)
  ∨ (parseRecord (S (length (unread rd))) (unread rd) = EndOfFile
     ∧ readRecord rd = EndOfFile)
  ∨ ∃ dst rest,
      parseRecord (S (length (unread rd))) (unread rd) = Got (dst, rest)
      ∧ dst ≠ [] ∧ (length rest < length (unread rd))%nat
      ∧ readRecord rd =
          if decide (0 < FieldsPerRecord rd) then
            if decide (Z.of_nat (length dst) ≠ FieldsPerRecord rd) then
              Failed ErrFieldCount
            else Got (dst, mkReader (FieldsPerRecord rd) rest)
          else if decide (FieldsPerRecord rd = 0) then
            Got (dst, mkReader (Z.of_nat (length dst)) rest)
          else Got (dst, mkReader (FieldsPerRecord rd) rest).
Proof.
  unfold readRecord.
  destruct (parseRecord_total (S (length (unread rd))) (unread rd))
    as [[e ->]|[->|(dst&rest&->&?&?)]]; [lia|left; by eexists|right; by left|].
  right; right. by eexists _, _.
Qed.

Lemma readAllLoop_acc fuel rd acc :
  readAllLoop fuel rd acc =
  match readAllLoop fuel rd [] with
  | Got c => Got (acc ++ c)
  | other => other
  end.
Proof.
  revert rd acc. induction fuel as [|fuel IH]; intros rd acc; [done|].
  simpl. destruct (readRecord rd) as [[record rd']| | |]; [|done| |done].
  - rewrite (IH rd' (acc ++ [record])), (IH rd' [record]).
    destruct (readAllLoop fuel rd' []); [|done..].
    by rewrite <-app_assoc.
  - by rewrite app_nil_r.
Qed.

(** A reader that expects [n] fields returns what the reader that does not
    count returns, provided every record has [n] fields. *)
Lemma readAllLoop_counting fuel n input c :
  0 < n →
  readAllLoop fuel (mkReader n input) [] = Got c ↔
  readAllLoop fuel (mkReader (-1) input) [] = Got c
  ∧ Forall (λ l, Z.of_nat (length l) = n) c.
Proof.
  intros Hn. revert input c.
  induction fuel as [|fuel IH]; intros input c; simpl;
    [by split; [|intros []]|].
  destruct (readRecord_cases (mkReader n input))
    as [(e&He&->)|[(He&->)|(dst&rest&He&_&_&->)]];
  destruct (readRecord_cases (mkReader (-1) input))
    as [(e'&He'&->)|[(He'&->)|(dst'&rest'&He'&_&_&->)]];
  simpl in *; rewrite He in He'; simplify_eq; simpl.
  - by split; [|intros []].
  - split; [intros [= <-]; by split|]. by intros [? _].
  - rewrite decide_True by done.
    rewrite (readAllLoop_acc fuel _ [dst']).
    destruct (decide (Z.of_nat (length dst') ≠ n)) as [Hne|Heq%dec_stable].
    + split; [done|]. intros [Hc Hall].
      destruct (readAllLoop fuel (mkReader (-1) rest') []); simplify_eq.
      by apply Forall_cons in Hall as [? _].
    + rewrite (readAllLoop_acc fuel _ [dst']).
      destruct (readAllLoop fuel (mkReader n rest') []) as [c1| | |] eqn:H1.
      { apply IH in H1 as [-> Hall]. simpl.
        split; [intros [= <-]; split; [done|by constructor]|].
        by intros [[= <-] _]. }
      all: destruct (readAllLoop fuel (mkReader (-1) rest') [])
             as [c2| | |] eqn:H2; simpl; try by split; [|intros []].
      all: split; [done|]; intros [[= <-] [_ Hall]%Forall_cons].
      all: assert (readAllLoop fuel (mkReader n rest') [] = Got c2) as Hc
             by (by apply IH); congruence.
Qed.

(** The reader of [csv.NewReader] returns the records of the file exactly
    when they all have as many fields as the first. *)
Lemma ReadAll_uniform data c :
  ReadAll (NewReader data) = Got c ↔
  recordsOf data = Got c
  ∧ ∀ l l', l ∈ c → l' ∈ c → length l = length l'.
Proof.
  unfold recordsOf, ReadAll, NewReader. simpl.
  destruct (readRecord_cases (mkReader 0 data))
    as [(e&He&->)|[(He&->)|(dst&rest&He&Hdst&_&->)]];
  destruct (readRecord_cases (mkReader (-1) data))
    as [(e'&He'&->)|[(He'&->)|(dst'&rest'&He'&_&_&->)]];
  simpl in *; rewrite He in He'; simplify_eq; simpl.
  - by split; [|intros []].
  - split; [intros [= <-]; split; [done|]|by intros []].
    intros l l' H. by apply elem_of_nil in H.
  - assert (0 < Z.of_nat (length dst')) as Hpos.
    { destruct dst'; [done|]. simpl. lia. }
    rewrite (readAllLoop_acc _ _ [dst']).
    rewrite (readAllLoop_acc _ (mkReader (-1) _) [dst']).
    destruct (readAllLoop (length data)
                (mkReader (Z.of_nat (length dst')) rest') [])
      as [c1| | |] eqn:H1.
    { apply readAllLoop_counting in H1 as [-> Hall]; [|done]. simpl.
      split.
      - intros [= <-]. split; [done|].
        assert (∀ l, l ∈ dst' :: c1 → length l = length dst') as Hlen.
        { intros l [->|Hl]%elem_of_cons; [done|].
          rewrite Forall_forall in Hall. apply Hall in Hl. lia. }
        intros l l' Hl Hl'. rewrite (Hlen l), (Hlen l'); done.
      - by intros [[= <-] _]. }
    all: destruct (readAllLoop (length data) (mkReader (-1) rest') [])
           as [c2| | |] eqn:H2; simpl; try by split; [|intros []].
    all: split; [done|]; intros [[= <-] Hu].
    all: assert (readAllLoop (length data)
                   (mkReader (Z.of_nat (length dst')) rest') [] = Got c2)
           as Hc;
         [apply readAllLoop_counting; [done|]; split; [done|];
          apply Forall_forall; intros l Hl; f_equal;
          apply Hu; [by right|by left]
         |congruence].
Qed.

Lemma fillChecksums_Ok c t0 t :
  fillChecksums c t0 = Ok t ↔
  Forall (λ l, (2 ≤ length l)%nat) c
  ∧ t = foldl (λ t l, <[default EmptyString (l !! 0%nat)
                          := default EmptyString (l !! 1%nat)]> t) t0 c.
Proof.
  revert t0. induction c as [|l c IH]; intros t0; simpl.
  - split; [intros [= <-]; by split|]. by intros [_ ->].
  - destruct l as [|path [|md5sum l]]; simpl.
    + split; [done|]. intros [[? _]%Forall_cons _]. simpl in *. lia.
    + split; [done|]. intros [[? _]%Forall_cons _]. simpl in *. lia.
    + rewrite IH. split.
      * intros [? ->]. split; [|done]. constructor; [simpl; lia|done].
      * intros [[_ ?]%Forall_cons ->]. by split.
Qed.

Lemma fillChecksums_short c t0 :
  ¬ Forall (λ l, (2 ≤ length l)%nat) c →
  fillChecksums c t0 = Err PanicIndexOutOfRange.
Proof.
  revert t0. induction c as [|l c IH]; intros t0 Hn; simpl.
  - destruct Hn. constructor.
  - destruct l as [|path [|md5sum l]]; simpl; [done..|].
    apply IH. intros Hall. apply Hn. constructor; [simpl; lia|done].
Qed.

(** C8 (amended). A fingerprint file loads exactly when it parses as csv,
    all its records have one and the same number of fields, and that
    number is at least two; the table then maps the first field of every
    record to its second, and further fields are ignored.  When the records
    do not all have the number of fields of the first, or the file does not
    parse, loading fails in the csv decoder; when they do and a record has
    fewer than two fields, loading ends in an index-out-of-range panic. *)
Theorem loadFileData_succeeds_iff (fname : string) (σ : fs) (data : bytes) :
  σ !! fname = Some (Plain data) →
  (∀ t, loadFileData fname σ = Ok t ↔
        ∃ c, recordsOf data = Got c
             ∧ (∀ l l', l ∈ c → l' ∈ c → length l = length l')
             ∧ (∀ l, l ∈ c → (2 ≤ length l)%nat)
             ∧ t = tableOfRecords c)
  ∧ (∀ c, recordsOf data = Got c →
          (¬ ∀ l l', l ∈ c → l' ∈ c → length l = length l') →
          loadFileData fname σ = Err (FailedDecodeCsv fname))
  ∧ (∀ c, recordsOf data = Got c →
          (∀ l l', l ∈ c → l' ∈ c → length l = length l') →
          (¬ ∀ l, l ∈ c → (2 ≤ length l)%nat) →
          loadFileData fname σ = Err PanicIndexOutOfRange)
  ∧ (∀ e, recordsOf data = Failed e →
          loadFileData fname σ = Err (FailedDecodeCsv fname)).
Proof.
  intros Hf. unfold loadFileData. rewrite Hf. unfold parseFileData.
  split_and!.
  - intros t. split.
    + destruct (ReadAll (NewReader data)) as [c| | |] eqn:Hr; try done.
      apply ReadAll_uniform in Hr as [Hraw Hu].
      intros [Hall ->]%fillChecksums_Ok. exists c.
      split_and!; [done|done| |done].
      by apply Forall_forall.
    + intros (c&Hraw&Hu&Hall&->).
      assert (ReadAll (NewReader data) = Got c) as ->
        by (by apply ReadAll_uniform).
      apply fillChecksums_Ok. split; [|done]. by apply Forall_forall.
  - intros c Hraw Hnu.
    destruct (ReadAll (NewReader data)) as [c'| | |] eqn:Hr; try done.
    apply ReadAll_uniform in Hr as [Hraw' Hu].
    rewrite Hraw in Hraw'. by simplify_eq.
  - intros c Hraw Hu Hshort.
    assert (ReadAll (NewReader data) = Got c) as ->
      by (by apply ReadAll_uniform).
    apply fillChecksums_short. intros Hall. apply Hshort.
    by apply Forall_forall.
  - intros e Hraw.
    destruct (ReadAll (NewReader data)) as [c| | |] eqn:Hr; try done.
    apply ReadAll_uniform in Hr as [Hraw' _]. congruence.
Qed.

(** A fingerprint file of two records of two fields loads. *)
Lemma loadFileData_succeeds_iff_witness :
  loadFileData "lxd-backup-web-Q20241.tar.zst.md5sum" withOldSlots
    = Ok (tableOfRecords [["rootfs/a"; "03"]; ["rootfs/b"; "02"]]).
Proof.
  refine (proj2 (proj1 (loadFileData_succeeds_iff
    "lxd-backup-web-Q20241.tar.zst.md5sum" withOldSlots _ eq_refl) _) _).
  exists [["rootfs/a"; "03"]; ["rootfs/b"; "02"]].
  split_and!; [reflexivity| |  |reflexivity].
  - intros l l' Hl Hl'.
    repeat (apply elem_of_cons in Hl as [->|Hl]);
    repeat (apply elem_of_cons in Hl' as [->|Hl']);
    try done; by apply elem_of_nil in Hl || by apply elem_of_nil in Hl'.
  - intros l Hl.
    repeat (apply elem_of_cons in Hl as [->|Hl]); simpl; try lia.
    by apply elem_of_nil in Hl.
Defined.

(** C8, as stated, fails: a file whose only record has three fields loads,
    the third field being dropped; and a file whose records have one field
    does not fail in the decoder but in the indexing of the record. *)
Lemma three_field_records_load :
  recordsOf threeFields = Got [["rootfs/a"; "03"; "extra"]]
  ∧ loadFileData "baseline.md5sum" {["baseline.md5sum" := Plain threeFields]}
    = Ok {["rootfs/a" := "03"]}
  ∧ recordsOf oneField = Got [["rootfs/a"]; ["rootfs/b"]]
  ∧ loadFileData "baseline.md5sum" {["baseline.md5sum" := Plain oneField]}
    = Err PanicIndexOutOfRange.
Proof. split_and!; reflexivity. Qed.

(** ** The last occurrence of a path wins *)

Lemma tableOfRecords_last_wins (pre post : list (list string))
    (path md5sum : string) (more : list string) (t0 : table) :
  Forall (λ l, l !! 0%nat ≠ Some path) post →
  Forall (λ l, (2 ≤ length l)%nat) post →
  foldl (λ t l, <[default EmptyString (l !! 0%nat)
                    := default EmptyString (l !! 1%nat)]> t) t0
    (pre ++ (path :: md5sum :: more) :: post) !! path = Some md5sum.
Proof.
  intros Hpost Hlen. rewrite foldl_app. simpl.
  match goal with |- foldl ?f (<[path := md5sum]> ?g) post !! _ = _ =>
    generalize (lookup_insert_eq g path md5sum);
    generalize (<[path := md5sum]> g) end.
  induction Hpost as [|l post Hl _ IH]; intros g Hg; [done|].
  apply Forall_cons in Hlen as [Hll Hlen]. simpl. apply IH; [done|].
  rewrite lookup_insert_ne; [done|].
  destruct l as [|k l]; simpl in *; [lia|]. congruence.
Qed.

(** C10. When a path occurs more than once the last occurrence wins.
    Fingerprinting an intact archive whose regular members are sound
    returns a table, and the table maps the path of a regular member that
    no later regular member shares to the digest of that member, whatever
    came before it; no table that fingerprinting returns maps it to
    anything else.  A fingerprint file that the csv reader accepts with a
    record of two fields or more loads, and the table maps the first field
    of a record that no later record shares to the second field of that
    record. *)
Theorem last_occurrence_wins (md5Sum : bytes → bytes) (fname : string)
    (σ : fs) :
  (∀ pre m post,
     σ !! fname = Some (TarZst (pre ++ m :: post) true) →
     Forall (λ x, regular x → sound x) (pre ++ m :: post) →
     regular m →
     Forall (λ x, regular x → Name (hdr x) ≠ Name (hdr m)) post →
     ∃ fd,
       fetchFileDataFromTar md5Sum fname σ = Ok fd
       ∧ fd !! Name (hdr m) = Some (hexString (md5Sum (payload m))))
  ∧ (∀ pre m post intact fd,
       σ !! fname = Some (TarZst (pre ++ m :: post) intact) →
       regular m →
       Forall (λ x, regular x → Name (hdr x) ≠ Name (hdr m)) post →
       fetchFileDataFromTar md5Sum fname σ = Ok fd →
       fd !! Name (hdr m) = Some (hexString (md5Sum (payload m))))
  ∧ (∀ data pre path md5sum more post,
       σ !! fname = Some (Plain data) →
       ReadAll (NewReader data)
         = Got (pre ++ (path :: md5sum :: more) :: post) →
       Forall (λ l, l !! 0%nat ≠ Some path) post →
       ∃ t, loadFileData fname σ = Ok t ∧ t !! path = Some md5sum).
Proof.
  split_and!.
  - intros pre m post Hf Hall Hr Hpost.
    exists (recorded md5Sum (pre ++ m :: post) ∅). split.
    + unfold fetchFileDataFromTar. rewrite Hf. simpl.
      by apply fetchLoop_sound.
    + by apply recorded_last_wins.
  - intros pre m post intact fd Hf Hr Hpost.
    unfold fetchFileDataFromTar. rewrite Hf. simpl. intros Hrun.
    pose proof Hrun as [Hall ->]%fetchLoop_Ok_inv.
    rewrite fetchLoop_sound in Hrun by done. injection Hrun as <-.
    by apply recorded_last_wins.
  - intros data pre path md5sum more post Hf Hread Hpost.
    assert (Hlen : Forall (λ l, (2 ≤ length l)%nat)
                     (pre ++ (path :: md5sum :: more) :: post)).
    { apply ReadAll_uniform in Hread as [_ Huni]. apply Forall_forall.
      intros l Hl.
      rewrite (Huni l (path :: md5sum :: more) Hl); [simpl; lia|].
      apply elem_of_app. right. left. }
    eexists. split.
    + unfold loadFileData. rewrite Hf. unfold parseFileData. rewrite Hread.
      by apply fillChecksums_Ok.
    + apply tableOfRecords_last_wins; [done|].
      by apply Forall_app in Hlen as [_ [_ ?]%Forall_cons].
Qed.

(** [rootfs/a] twice in an archive and twice in a fingerprint file: both
    tables are returned and hold the later digest. *)
Lemma last_occurrence_wins_witness :
  (∃ fd,
     fetchFileDataFromTar sampleSum exportName twiceInArchive = Ok fd
     ∧ fd !! "rootfs/a" = Some "05")
  ∧ (∃ t,
       loadFileData "baseline.md5sum" twiceInFile = Ok t
       ∧ t !! "rootfs/a" = Some "05").
Proof.
  split.
  - refine (proj1 (last_occurrence_wins sampleSum exportName twiceInArchive)
              [fileA; fileB] fileAagain [] eq_refl _ eq_refl _).
    + repeat constructor; vm_compute; intros; try done.
    + constructor.
  - refine (proj2 (proj2 (last_occurrence_wins sampleSum "baseline.md5sum"
                            twiceInFile))
              _ [["rootfs/a"; "03"]] "rootfs/a" "05" [] [] eq_refl eq_refl _).
    constructor.
Defined.

Example sample_last_occurrence :
  fetchFileDataFromTar sampleSum exportName twiceInArchive
    = Ok {["rootfs/a" := "05"; "rootfs/b" := "02"]}
  ∧ loadFileData "baseline.md5sum" twiceInFile = Ok {["rootfs/a" := "05"]}.
Proof. split; reflexivity. Qed.

(** ** The round trip through the fingerprint file *)

Lemma firstLine_length input :
  (length (firstLine input).1 + length (firstLine input).2 = length input)%nat.
Proof.
  unfold firstLine. destruct (indexByte LF input) as [i|] eqn:Hi; simpl.
  - rewrite <-length_app. by rewrite take_drop.
  - lia.
Qed.

Lemma firstLine_cons x input :
  x ≠ LF →
  firstLine (x :: input) = (x :: (firstLine input).1, (firstLine input).2).
Proof.
  intros Hx. unfold firstLine. simpl. rewrite decide_False by done.
  by destruct (indexByte LF input).
Qed.

Lemma firstLine_LF input : firstLine (LF :: input) = ([LF], input).
Proof. reflexivity. Qed.

Lemma firstLine_app f input :
  LF ∉ f →
  firstLine (f ++ input) = (f ++ (firstLine input).1, (firstLine input).2).
Proof.
  induction f as [|x f IH]; intros Hf;
    [simpl; by destruct (firstLine input)|].
  apply not_elem_of_cons in Hf as [Hx Hf]. simpl.
  rewrite firstLine_cons by congruence. by rewrite IH.
Qed.

Lemma firstLine_nonempty input : input ≠ [] → (firstLine input).1 ≠ [].
Proof.
  destruct input as [|x input]; [done|]. intros _.
  destruct (decide (x = LF)) as [->|Hx].
  - by rewrite firstLine_LF.
  - by rewrite firstLine_cons.
Qed.

Lemma hasCRLF_lookup b i :
  hasCRLF b = false → b !! i = Some CR → b !! S i = Some LF → False.
Proof.
  revert i. induction b as [|x b IH]; intros i; simpl; [done|].
  intros [Hj Hb]%orb_false_elim. destruct i as [|i]; simpl.
  - intros [= ->] Hlf. rewrite bool_decide_eq_true_2 in Hj by done.
    rewrite bool_decide_eq_true_2 in Hj; [done|]. by destruct b.
  - by apply IH.
Qed.

Lemma readLine_plain input :
  plain input → input ≠ [] →
  readLine input = ((firstLine input).1, (firstLine input).2, false).
Proof.
  intros [Hcr [->|Hlast]] Hne; [done|].
  unfold readLine, firstLine.
  destruct (indexByte LF input) as [i|] eqn:Hi.
  - simpl. f_equal. f_equal.
    apply indexByte_Some in Hi as (Hi&_&Hlt).
    unfold normalizeCRLF. case_bool_decide as Hn; [|done].
    destruct Hn as (H2&Hc&_). exfalso.
    rewrite length_take in Hc. rewrite lookup_take_lt in Hc by lia.
    replace (S i `min` length input - 2)%nat with (i - 1)%nat in Hc by lia.
    rewrite length_take in H2.
    apply (hasCRLF_lookup input (i - 1) Hcr Hc).
    by replace (S (i - 1)) with i by lia.
  - apply last_Some_elem_of in Hlast. by apply indexByte_None in Hi.
Qed.

(** *** One step of the loops *)

Lemma parseField_S fuel line rest fields :
  parseField (S fuel) line rest fields =
  if bool_decide (head line = Some dquote) then
    parseQuoted fuel (drop 1 line) rest [] fields
  else
    let i := indexByte comma line in
    let field :=
      match i with
      | Some i => take i line
      | None => take (length line - lengthNL line) line
      end in
    if bool_decide (is_Some (indexByte dquote field)) then
      Failed ErrBareQuote
    else
      let fields' := fields ++ [string_of_list_ascii field] in
      match i with
      | Some i => parseField fuel (drop (S i) line) rest fields'
      | None => Got (fields', rest)
      end.
Proof. reflexivity. Qed.

Lemma parseQuoted_S fuel line rest buf fields :
  parseQuoted (S fuel) line rest buf fields =
  match indexByte dquote line with
  | Some i =>
      let buf' := buf ++ take i line in
      let line' := drop (S i) line in
      if bool_decide (head line' = Some dquote) then
        parseQuoted fuel (drop 1 line') rest (buf' ++ [dquote]) fields
      else if bool_decide (head line' = Some comma) then
        parseField fuel (drop 1 line') rest
          (fields ++ [string_of_list_ascii buf'])
      else if bool_decide (lengthNL line' = length line') then
        Got (fields ++ [string_of_list_ascii buf'], rest)
      else Failed ErrQuote
  | None =>
      if bool_decide (0 < length line)%nat then
        let '(line2, rest2, _) := readLine rest in
        parseQuoted fuel line2 rest2 (buf ++ line) fields
      else Failed ErrQuote
  end.
Proof. reflexivity. Qed.

#[local] Arguments parseField : simpl never.
#[local] Arguments parseQuoted : simpl never.

Lemma fieldsFrom_quote input fields :
  fieldsFrom (dquote :: input) fields = quotedFrom input [] fields.
Proof.
  unfold fieldsFrom, quotedFrom. rewrite firstLine_cons by done.
  simpl. rewrite parseField_S. simpl. by rewrite drop_0.
Qed.

Lemma quotedFrom_byte x input buf fields :
  x ≠ dquote → x ≠ LF → input ≠ [] →
  quotedFrom (x :: input) buf fields = quotedFrom input (buf ++ [x]) fields.
Proof.
  intros Hq Hl Hne. unfold quotedFrom. rewrite firstLine_cons by done.
  pose proof (firstLine_length input) as Hlen.
  pose proof (firstLine_nonempty input Hne) as Hline.
  destruct (firstLine input) as [line rest]. simpl in *.
  rewrite <-(proj2 (parse_budget (S (length input)))
               (S (S (length input))) line) by lia.
  rewrite !parseQuoted_S. simpl. rewrite decide_False by done.
  destruct (indexByte dquote line) as [i|] eqn:Hi; simpl.
  - by rewrite <-!app_assoc.
  - rewrite bool_decide_eq_true_2 by (destruct line; [done|simpl; lia]).
    by rewrite <-app_assoc.
Qed.

Lemma quotedFrom_LF input buf fields :
  plain input → input ≠ [] →
  quotedFrom (LF :: input) buf fields = quotedFrom input (buf ++ [LF]) fields.
Proof.
  intros Hp Hne. unfold quotedFrom. rewrite firstLine_LF. simpl.
  rewrite parseQuoted_S. simpl.
  rewrite readLine_plain by done.
  pose proof (firstLine_length input) as Hlen.
  destruct (firstLine input) as [line rest]. simpl in *.
  apply parse_budget; lia.
Qed.

Lemma quotedFrom_quote_quote input buf fields :
  quotedFrom (dquote :: dquote :: input) buf fields
    = quotedFrom input (buf ++ [dquote]) fields.
Proof.
  unfold quotedFrom. rewrite !firstLine_cons by done.
  pose proof (firstLine_length input) as Hlen.
  destruct (firstLine input) as [line rest]. simpl in *.
  rewrite parseQuoted_S. simpl. rewrite app_nil_r, drop_0.
  apply parse_budget; lia.
Qed.

Lemma quotedFrom_quote_comma input buf fields :
  quotedFrom (dquote :: comma :: input) buf fields
    = fieldsFrom input (fields ++ [string_of_list_ascii buf]).
Proof.
  unfold quotedFrom, fieldsFrom. rewrite !firstLine_cons by done.
  pose proof (firstLine_length input) as Hlen.
  destruct (firstLine input) as [line rest]. simpl in *.
  rewrite parseQuoted_S. simpl. rewrite app_nil_r, drop_0.
  apply parse_budget; lia.
Qed.

Lemma quotedFrom_quote_LF input buf fields :
  quotedFrom (dquote :: LF :: input) buf fields
    = Got (fields ++ [string_of_list_ascii buf], input).
Proof.
  unfold quotedFrom. rewrite firstLine_cons by done. rewrite firstLine_LF.
  simpl. rewrite parseQuoted_S. simpl. by rewrite app_nil_r.
Qed.

Lemma head_not_quote (f tail : bytes) x :
  dquote ∉ f → x ≠ dquote → head (f ++ x :: tail) ≠ Some dquote.
Proof.
  destruct f as [|y f]; simpl; [congruence|].
  intros [? _]%not_elem_of_cons. congruence.
Qed.

Lemma fieldsFrom_bare_comma (f input : bytes) fields :
  dquote ∉ f → comma ∉ f → LF ∉ f →
  fieldsFrom (f ++ comma :: input) fields
    = fieldsFrom input (fields ++ [string_of_list_ascii f]).
Proof.
  intros Hq Hc Hl. unfold fieldsFrom.
  rewrite firstLine_app by done. rewrite firstLine_cons by done.
  pose proof (firstLine_length input) as Hlen.
  destruct (firstLine input) as [line rest]. simpl in *.
  rewrite parseField_S.
  rewrite bool_decide_eq_false_2 by (by apply head_not_quote).
  rewrite indexByte_app by done. simpl.
  rewrite take_app_length.
  rewrite (proj2 (indexByte_None dquote f)) by done.
  rewrite bool_decide_eq_false_2 by (by intros [? ?]).
  rewrite (cons_middle comma f line), app_assoc.
  rewrite drop_app_length' by (rewrite length_app; simpl; lia).
  apply parse_budget; [lia|]. rewrite !length_app. simpl. lia.
Qed.

Lemma fieldsFrom_bare_LF (f input : bytes) fields :
  dquote ∉ f → comma ∉ f → LF ∉ f →
  fieldsFrom (f ++ LF :: input) fields
    = Got (fields ++ [string_of_list_ascii f], input).
Proof.
  intros Hq Hc Hl. unfold fieldsFrom.
  rewrite firstLine_app by done. rewrite firstLine_LF. simpl.
  rewrite parseField_S.
  rewrite bool_decide_eq_false_2 by (by apply head_not_quote).
  assert (indexByte comma (f ++ [LF]) = None) as ->.
  { apply indexByte_None. rewrite elem_of_app, list_elem_of_singleton.
    by intros [?|?]. }
  simpl. unfold lengthNL. rewrite last_snoc.
  rewrite (bool_decide_eq_true_2 (Some LF = Some LF)) by done.
  rewrite length_app. simpl.
  replace (length f + 1 - 1)%nat with (length f) by lia.
  rewrite take_app_length.
  rewrite (proj2 (indexByte_None dquote f)) by done.
  by rewrite bool_decide_eq_false_2 by (by intros [? ?]).
Qed.

(** *** Streams without a carriage return before a line feed *)

Lemma hasCRLF_cons x b :
  hasCRLF (x :: b) = false ↔
  ¬ (x = CR ∧ head b = Some LF) ∧ hasCRLF b = false.
Proof.
  simpl. rewrite orb_false_iff, andb_false_iff.
  rewrite !bool_decide_eq_false. split.
  - intros [[?|?] ?]; split; [tauto|done|tauto|done].
  - intros [Hn ?]. split; [|done].
    destruct (decide (x = CR)); [right|left]; tauto.
Qed.

Lemma hasCRLF_app a b :
  hasCRLF (a ++ b) = false ↔
  hasCRLF a = false ∧ hasCRLF b = false
  ∧ ¬ (last a = Some CR ∧ head b = Some LF).
Proof.
  induction a as [|x a IH].
  - simpl. split; [intros ?; split_and!; [done|done|by intros [? _]]|].
    by intros (_&?&_).
  - rewrite <-app_comm_cons, !hasCRLF_cons, IH.
    destruct a as [|y a].
    + simpl. split.
      * intros (?&_&?&_). split_and!; [by intros [_ ?]|done|done|].
        intros [[= ->] ?]. tauto.
      * intros ((_&_)&?&Hn). split_and!; [|done|done|by intros [? _]].
        intros [-> ?]. by apply Hn.
    + rewrite last_cons_cons. simpl. tauto.
Qed.

Lemma plain_cons x input : plain (x :: input) → input ≠ [] → plain input.
Proof.
  intros [[_ ?]%hasCRLF_cons [?|Hl]] Hne; [done|]. split; [done|right].
  destruct input; [done|]. by rewrite last_cons_cons in Hl.
Qed.

Lemma plain_app a b : plain (a ++ b) → b ≠ [] → plain b.
Proof.
  induction a as [|x a IH]; [done|]. intros Hp Hne. apply IH; [|done].
  apply (plain_cons x); [done|]. by destruct a, b.
Qed.

Lemma tidy_app a b : tidy a → tidy b → tidy (a ++ b).
Proof.
  intros [Ha Hla] [Hb Hlb]. split.
  - apply hasCRLF_app. split_and!; [done|done|]. by intros [? _].
  - rewrite last_app. by destruct (last b).
Qed.

Lemma tidy_singleton x : x ≠ CR → tidy [x].
Proof.
  intros Hx. split; simpl; [|congruence].
  by rewrite bool_decide_eq_false_2.
Qed.

Lemma hasCRLF_escapeField c : hasCRLF (escapeField c) = hasCRLF c.
Proof.
  induction c as [|x c IH]; [done|]. simpl.
  assert (head (escapeField c) = Some LF ↔ head c = Some LF) as Hh.
  { destruct c as [|y c]; [done|]. simpl.
    destruct (decide (y = dquote)) as [->|]; [|done]. simpl.
    split; intros [=]. }
  destruct (decide (x = dquote)) as [->|Hx]; simpl.
  - by rewrite IH.
  - rewrite IH. f_equal. f_equal. by apply bool_decide_ext.
Qed.

Lemma no_CR_hasCRLF b : CR ∉ b → hasCRLF b = false.
Proof.
  induction b as [|x b IH]; [done|].
  intros [Hx Hb]%not_elem_of_cons. apply hasCRLF_cons. split; [|by apply IH].
  intros [-> _]. done.
Qed.

(** *** A quoted field, a record, a file *)

Lemma quotedFrom_escaped c buf fields tail :
  plain (escapeField c ++ dquote :: tail) →
  quotedFrom (escapeField c ++ dquote :: tail) buf fields
    = quotedFrom (dquote :: tail) (buf ++ c) fields.
Proof.
  revert buf. induction c as [|x c IH]; intros buf Hp; simpl.
  - by rewrite app_nil_r.
  - simpl in Hp. rewrite (cons_middle x buf c), app_assoc.
    destruct (decide (x = dquote)) as [->|Hq].
    + rewrite <-!app_comm_cons in *. rewrite quotedFrom_quote_quote.
      apply IH. apply (plain_cons dquote); [|by destruct (escapeField c)].
      by apply (plain_cons dquote).
    + rewrite <-app_comm_cons in *.
      assert (escapeField c ++ dquote :: tail ≠ []) as Hne
        by (by destruct (escapeField c)).
      pose proof (plain_cons _ _ Hp Hne) as Hp'.
      destruct (decide (x = LF)) as [->|Hl].
      * rewrite quotedFrom_LF by done. by apply IH.
      * rewrite quotedFrom_byte by done. by apply IH.
Qed.

Lemma unquoted_free f x :
  fieldNeedsQuotes f = false → x ∈ list_ascii_of_string f →
  x ≠ LF ∧ x ≠ CR ∧ x ≠ dquote ∧ x ≠ comma.
Proof.
  unfold fieldNeedsQuotes. destruct (decide (f = EmptyString)) as [->|_].
  { intros _ H. by apply elem_of_nil in H. }
  destruct (decide (f = "\.")); [done|].
  destruct (existsb special (list_ascii_of_string f)) eqn:He; [done|].
  intros _ Hx.
  assert (special x = false) as Hs.
  { destruct (special x) eqn:Hs; [|done].
    assert (existsb special (list_ascii_of_string f) = true); [|congruence].
    apply existsb_exists. exists x. split; [|done].
    by apply list_elem_of_In. }
  unfold special in Hs. apply bool_decide_eq_false in Hs. tauto.
Qed.

Lemma unquoted_not_elem f x :
  fieldNeedsQuotes f = false →
  x = LF ∨ x = CR ∨ x = dquote ∨ x = comma →
  x ∉ list_ascii_of_string f.
Proof.
  intros Hf Hx Hin.
  destruct (unquoted_free f x Hf Hin) as (?&?&?&?). tauto.
Qed.

Lemma writeFields_S n record : writeFields (S n) record = writeFields 1 record.
Proof.
  revert n. induction record as [|f record IH]; intros n; [done|].
  simpl. by rewrite (IH (S n)), (IH 1%nat).
Qed.

Lemma writeFields_1_cons f record :
  writeFields 1 (f :: record) = comma :: writeField f ++ writeFields 1 record.
Proof. simpl. by rewrite writeFields_S. Qed.

Lemma fieldsFrom_written record f acc tail :
  plain (writeField f ++ writeFields 1 record ++ LF :: tail) →
  fieldsFrom (writeField f ++ writeFields 1 record ++ LF :: tail) acc
    = Got (acc ++ f :: record, tail).
Proof.
  revert f acc. induction record as [|f' record IH]; intros f acc Hp.
  - simpl in *. unfold writeField in *.
    destruct (fieldNeedsQuotes f) eqn:Hf.
    + rewrite <-!app_assoc in *. simpl in *.
      rewrite fieldsFrom_quote.
      rewrite quotedFrom_escaped
        by (apply (plain_cons dquote);
            [done|by destruct (escapeField (list_ascii_of_string f))]).
      rewrite quotedFrom_quote_LF. simpl.
      by rewrite string_of_list_ascii_of_string.
    + rewrite fieldsFrom_bare_LF by (apply unquoted_not_elem; tauto).
      by rewrite string_of_list_ascii_of_string.
  - rewrite writeFields_1_cons in *. rewrite <-!app_comm_cons in *.
    rewrite <-(app_assoc (writeField f')) in *.
    assert (plain (writeField f' ++ writeFields 1 record ++ LF :: tail)) as Hp'.
    { apply (plain_cons comma); [|by destruct (writeField f'), record].
      apply (plain_app (writeField f)); [done|discriminate]. }
    unfold writeField at 1. unfold writeField at 1 in Hp.
    destruct (fieldNeedsQuotes f) eqn:Hf.
    + rewrite <-!app_assoc in *. simpl in *.
      rewrite fieldsFrom_quote.
      rewrite quotedFrom_escaped
        by (apply (plain_cons dquote);
            [done|by destruct (escapeField (list_ascii_of_string f))]).
      rewrite quotedFrom_quote_comma. simpl.
      rewrite string_of_list_ascii_of_string.
      rewrite IH by done. by rewrite <-app_assoc.
    + rewrite fieldsFrom_bare_comma by (apply unquoted_not_elem; tauto).
      rewrite string_of_list_ascii_of_string.
      rewrite IH by done. by rewrite <-app_assoc.
Qed.

Lemma writeField_head f tail :
  head (writeField f ++ comma :: tail) ≠ Some LF.
Proof.
  unfold writeField. destruct (fieldNeedsQuotes f) eqn:Hf; [done|].
  destruct (list_ascii_of_string f) as [|x b] eqn:Hb; [done|].
  simpl. intros [= ->].
  apply (unquoted_not_elem f LF Hf); [tauto|]. rewrite Hb. left.
Qed.

Lemma parseRecord_written f f' record tail fuel :
  plain (Write (f :: f' :: record) ++ tail) →
  parseRecord (S fuel) (Write (f :: f' :: record) ++ tail)
    = Got (f :: f' :: record, tail).
Proof.
  unfold Write. simpl writeFields. rewrite writeFields_S.
  rewrite <-!app_assoc. simpl. rewrite <-!app_assoc.
  set (input := writeField f ++ comma :: writeField f' ++
                writeFields 1 record ++ LF :: tail).
  intros Hp.
  assert (Hhead : head input ≠ Some LF) by apply writeField_head.
  assert (Hin : LF ∈ input).
  { unfold input. set_solver. }
  destruct input as [|x input0] eqn:Hinput; [by apply elem_of_nil in Hin|].
  assert (Hx : x ≠ LF) by (simpl in Hhead; congruence).
  assert (Hne : input0 ≠ []).
  { intros ->. apply list_elem_of_singleton in Hin. congruence. }
  simpl. rewrite readLine_plain by done.
  pose proof (firstLine_length (x :: input0)) as Hlen.
  pose proof (firstLine_nonempty input0 Hne) as Hline.
  rewrite bool_decide_eq_false_2.
  2:{ rewrite firstLine_cons by done. simpl.
      unfold lengthNL. case_bool_decide; destruct (firstLine input0).1;
        simpl; try done; lia. }
  rewrite Hlen.
  change (fieldsFrom (x :: input0) [] = Got (f :: f' :: record, tail)).
  rewrite <-Hinput. unfold input.
  pose proof (fieldsFrom_written (f' :: record) f [] tail) as Hw.
  rewrite writeFields_1_cons in Hw. rewrite <-!app_comm_cons in Hw.
  rewrite <-!app_assoc in Hw. apply Hw.
  fold input. by rewrite Hinput.
Qed.

Lemma tidy_nil : tidy [].
Proof. by split. Qed.

Lemma tidy_writeField f :
  hasCRLF (list_ascii_of_string f) = false → tidy (writeField f).
Proof.
  intros Hf. unfold writeField. destruct (fieldNeedsQuotes f) eqn:Hq.
  - split.
    + simpl. apply hasCRLF_app. split_and!.
      * by rewrite hasCRLF_escapeField.
      * done.
      * by intros [_ [=]].
    + rewrite app_assoc, last_snoc. done.
  - assert (CR ∉ list_ascii_of_string f) as Hcr
      by (apply unquoted_not_elem; tauto).
    split; [by apply no_CR_hasCRLF|].
    by intros Hl%last_Some_elem_of.
Qed.

Lemma tidy_writeFields n record :
  Forall (λ f, hasCRLF (list_ascii_of_string f) = false) record →
  tidy (writeFields n record).
Proof.
  intros Hall. revert n. induction Hall as [|f record Hf _ IH]; intros n.
  - apply tidy_nil.
  - simpl. apply tidy_app.
    + destruct (decide (0 < n)%nat); [by apply tidy_singleton|apply tidy_nil].
    + apply tidy_app; [by apply tidy_writeField|apply IH].
Qed.

Lemma tidy_Write record :
  Forall (λ f, hasCRLF (list_ascii_of_string f) = false) record →
  tidy (Write record).
Proof.
  intros Hall. apply tidy_app; [by apply tidy_writeFields|].
  by apply tidy_singleton.
Qed.

Lemma plain_WriteAll records :
  Forall (Forall (λ f, hasCRLF (list_ascii_of_string f) = false)) records →
  plain (WriteAll records) ∧ tidy (WriteAll records).
Proof.
  induction 1 as [|record records Hr _ [[_ Hlast] Ht]]; simpl.
  - split; [split; [done|by left]|apply tidy_nil].
  - split; [|by apply tidy_app; [apply tidy_Write|]].
    split; [by apply tidy_app; [apply tidy_Write|]|]. right.
    destruct Hlast as [->|Hlast].
    + rewrite app_nil_r. unfold Write. by rewrite last_snoc.
    + by rewrite last_app, Hlast.
Qed.

Lemma WriteAll_length records :
  (length records ≤ length (WriteAll records))%nat.
Proof.
  induction records as [|record records IH]; simpl; [lia|].
  unfold Write. rewrite !length_app. simpl. lia.
Qed.

(** Reading back what the writer wrote for records of two fields. *)
Lemma readAllLoop_written records fuel fpr acc :
  Forall (λ record, length record = 2%nat
            ∧ Forall (λ f, hasCRLF (list_ascii_of_string f) = false) record)
    records →
  fpr = 0 ∨ fpr = 2 →
  (length records < fuel)%nat →
  readAllLoop fuel (mkReader fpr (WriteAll records)) acc = Got (acc ++ records).
Proof.
  intros Hall. revert fuel fpr acc.
  induction Hall as [|record records [Hlen Hr] Hall IH];
    intros fuel fpr acc Hfpr Hfuel.
  - destruct fuel as [|fuel]; [simpl in *; lia|]. simpl.
    by rewrite app_nil_r.
  - destruct fuel as [|fuel]; [simpl in *; lia|].
    destruct record as [|f [|f' [|? ?]]]; try done.
    assert (plain (WriteAll ([f; f'] :: records))) as Hp.
    { apply plain_WriteAll. constructor; [done|].
      eapply Forall_impl; [exact Hall|]. by intros ? [_ ?]. }
    simpl in Hp |- *. unfold readRecord. simpl unread.
    rewrite parseRecord_written by done. simpl.
    destruct Hfpr as [-> | ->]; simpl.
    + rewrite IH; [|by right|simpl in *; lia]. by rewrite <-app_assoc.
    + rewrite IH; [|by right|simpl in *; lia]. by rewrite <-app_assoc.
Qed.

Lemma ReadAll_WriteAll records :
  Forall (λ record, length record = 2%nat
            ∧ Forall (λ f, hasCRLF (list_ascii_of_string f) = false) record)
    records →
  ReadAll (NewReader (WriteAll records)) = Got records.
Proof.
  intros Hall. unfold ReadAll, NewReader.
  apply (readAllLoop_written records _ 0 []); [done|by left|].
  pose proof (WriteAll_length records). simpl. lia.
Qed.

(** *** The table behind the records *)

Lemma tableOf_pairs_lookup (g : string → string) (names : list string)
    (t0 : table) (p : string) :
  foldl (λ t l, <[default EmptyString (l !! 0%nat)
                    := default EmptyString (l !! 1%nat)]> t) t0
    ((λ name, [name; g name]) <$> names) !! p
  = if decide (p ∈ names) then Some (g p) else t0 !! p.
Proof.
  revert t0. induction names as [|name names IH]; intros t0; simpl.
  - done.
  - rewrite IH. destruct (decide (p ∈ names)) as [Hin|Hin].
    + rewrite decide_True by (by right). done.
    + destruct (decide (p = name)) as [->|Hne].
      * rewrite decide_True by left. by rewrite lookup_insert_eq.
      * rewrite decide_False by (rewrite elem_of_cons; tauto).
        by rewrite lookup_insert_ne.
Qed.

Lemma sortStrings_elem_of (fd : table) (name : string) :
  name ∈ sortStrings (map_to_list fd).*1 ↔ is_Some (fd !! name).
Proof.
  unfold sortStrings. rewrite merge_sort_Permutation.
  rewrite list_elem_of_fmap. split.
  - intros ([k v]&->&Hin). apply elem_of_map_to_list in Hin. by exists v.
  - intros [v Hv]. exists (name, v). split; [done|].
    by apply elem_of_map_to_list.
Qed.

Lemma fileDataRecords_table (fd : table) :
  tableOfRecords (fileDataRecords fd) = fd.
Proof.
  apply map_eq. intros p. unfold tableOfRecords, fileDataRecords.
  rewrite tableOf_pairs_lookup.
  destruct (decide (p ∈ sortStrings (map_to_list fd).*1)) as [Hin|Hin].
  - apply sortStrings_elem_of in Hin as [v Hv]. by rewrite Hv.
  - rewrite lookup_empty. symmetry. apply eq_None_not_Some.
    by rewrite <-sortStrings_elem_of.
Qed.

(** C2 (amended). For every fingerprint table whose paths and digests hold
    no carriage return directly followed by a line feed, [writeFileData]
    writes the file as the two-field records (path, digest) in increasing
    order of the paths, one record per path of the table, and loading that
    file yields the table back exactly. *)
Theorem fingerprint_file_round_trip (out : string) (fd : table) (σ : fs) :
  (∀ path md5sum, fd !! path = Some md5sum →
     hasCRLF (list_ascii_of_string path) = false
     ∧ hasCRLF (list_ascii_of_string md5sum) = false) →
  ∃ σ' names,
    writeFileData out fd σ = Done tt σ'
    ∧ σ' !! out
      = Some (Plain (WriteAll
                ((λ name, [name; default EmptyString (fd !! name)])
                   <$> names)))
    ∧ names ≡ₚ (map_to_list fd).*1
    ∧ Sorted String.le names
    ∧ loadFileData out σ' = Ok fd.
Proof.
  intros Hfree. eexists _, (sortStrings (map_to_list fd).*1).
  split; [done|]. split; [by rewrite lookup_insert_eq|].
  split; [apply merge_sort_Permutation|].
  split; [apply (Sorted_merge_sort String.le)|].
  unfold loadFileData. rewrite lookup_insert_eq. unfold parseFileData.
  fold (fileDataRecords fd).
  assert (Hrecs : Forall (λ record, length record = 2%nat
            ∧ Forall (λ f, hasCRLF (list_ascii_of_string f) = false) record)
            (fileDataRecords fd)).
  { unfold fileDataRecords. apply Forall_fmap, Forall_forall.
    intros name [v Hv]%sortStrings_elem_of. simpl. split; [done|].
    rewrite Hv. simpl. destruct (Hfree _ _ Hv). by repeat constructor. }
  rewrite ReadAll_WriteAll by done.
  apply fillChecksums_Ok. split.
  - eapply Forall_impl; [exact Hrecs|]. intros ? [-> _]. lia.
  - symmetry. apply fileDataRecords_table.
Qed.

(** The baseline table of the sample export goes through the file. *)
Lemma fingerprint_file_round_trip_witness :
  ∃ σ' names,
    writeFileData "baseline.md5sum" {["rootfs/a" := "03"; "rootfs/b" := "02"]}
      ∅ = Done tt σ'
    ∧ σ' !! "baseline.md5sum"
      = Some (Plain (WriteAll
                ((λ name, [name; default EmptyString
                     (({["rootfs/a" := "03"; "rootfs/b" := "02"]} : table)
                        !! name)])
                   <$> names)))
    ∧ names ≡ₚ (map_to_list
                  ({["rootfs/a" := "03"; "rootfs/b" := "02"]} : table)).*1
    ∧ Sorted String.le names
    ∧ loadFileData "baseline.md5sum" σ'
      = Ok {["rootfs/a" := "03"; "rootfs/b" := "02"]}.
Proof.
  apply (fingerprint_file_round_trip "baseline.md5sum"
           {["rootfs/a" := "03"; "rootfs/b" := "02"]} ∅).
  intros path md5sum Hl.
  destruct (decide (path = "rootfs/a")) as [->|Ha].
  - vm_compute in Hl. injection Hl as <-. by vm_compute.
  - destruct (decide (path = "rootfs/b")) as [->|Hb].
    + vm_compute in Hl. injection Hl as <-. by vm_compute.
    + rewrite lookup_insert_ne in Hl by done.
      by rewrite lookup_singleton_ne in Hl.
Defined.

(** C2, as stated, fails: the table with the one path [a CR LF b] is
    written with the path in quotes, the reader drops the carriage return
    before the line feed, and the table loaded has the path [a LF b]
    instead. *)
Lemma crlf_path_does_not_round_trip :
  ∃ σ',
    writeFileData "baseline.md5sum" crlfTable ∅ = Done tt σ'
    ∧ loadFileData "baseline.md5sum" σ' = Ok {[ lfPath := "03" ]}
    ∧ crlfTable !! crlfPath = Some "03"
    ∧ ({[ lfPath := "03" ]} : table) !! crlfPath = None.
Proof. eexists. split_and!; reflexivity. Qed.

(** ** The containers that are backed up *)

Lemma filterLoop_filter (key : listed → string) (containers : list listed)
    (keys : gset string) (inc : bool) (ctmp : list listed) :
  filterLoop key containers keys inc ctmp
    = ctmp ++ filter (λ c, bool_decide (key c ∈ keys) = inc) containers.
Proof.
  revert ctmp. induction containers as [|c containers IH]; intros ctmp; simpl.
  - by rewrite app_nil_r.
  - rewrite IH, filter_cons.
    destruct (decide (bool_decide (key c ∈ keys) = inc)); [|done].
    by rewrite <-app_assoc.
Qed.

Lemma filter_all {A} (P : A → Prop) `{!∀ x, Decision (P x)} (l : list A) :
  (∀ x, P x) → filter P l = l.
Proof.
  intros HP. induction l as [|x l IH]; [done|].
  rewrite filter_cons, decide_True by done. by rewrite IH.
Qed.

Lemma size_zero_empty (keys : gset string) : size keys = 0%nat ↔ keys = ∅.
Proof. rewrite size_empty_iff. by unfold_leibniz. Qed.

Lemma filterHost_filter (containers : list listed) (keys : gset string)
    (inc : bool) :
  filterHost containers keys inc
    = filter (λ c, keys = ∅ ∨ bool_decide (host c ∈ keys) = inc) containers.
Proof.
  unfold filterHost.
  destruct (decide (size keys = 0%nat)) as [He%size_zero_empty|Hne].
  - symmetry; apply filter_all; intros; by left.
  - assert (keys ≠ ∅) as Hk by (by rewrite <-size_zero_empty).
    rewrite filterLoop_filter. simpl.
    apply list_filter_iff; intros c; tauto.
Qed.

Lemma filterCont_filter (containers : list listed) (keys : gset string)
    (inc : bool) :
  filterCont containers keys inc
    = filter (λ c, keys = ∅ ∨ bool_decide (name (container c) ∈ keys) = inc)
        containers.
Proof.
  unfold filterCont.
  destruct (decide (size keys = 0%nat)) as [He%size_zero_empty|Hne].
  - symmetry; apply filter_all; intros; by left.
  - assert (keys ≠ ∅) as Hk by (by rewrite <-size_zero_empty).
    rewrite filterLoop_filter. simpl.
    apply list_filter_iff; intros c; tauto.
Qed.

(** X1. [filterHost] and [filterCont] keep, in the order of the listing
    and as often as they are listed, the containers whose host (or name)
    is in the set when [inc] is true and the ones whose host (or name) is
    not in the set when [inc] is false; with an empty set they keep every
    container, whatever [inc] is. *)
Theorem filters_keep_matching (containers : list listed)
    (keys : gset string) (inc : bool) :
  filterHost containers keys inc
    = filter (λ c, keys = ∅ ∨ bool_decide (host c ∈ keys) = inc) containers
  ∧ filterCont containers keys inc
    = filter (λ c, keys = ∅ ∨ bool_decide (name (container c) ∈ keys) = inc)
        containers.
Proof. split; [apply filterHost_filter|apply filterCont_filter]. Qed.

(** *** The flags *)

Lemma splitComma_nonempty s : splitComma s ≠ [].
Proof.
  destruct s as [|c s]; simpl; [done|].
  destruct (decide (c = comma)); [done|]. by destruct (splitComma s).
Qed.

Lemma splitComma_app a b :
  splitComma (a +:+ "," +:+ b) = splitComma a ++ splitComma b.
Proof.
  induction a as [|c a IH]; [done|].
  change (String c a +:+ "," +:+ b) with (String c (a +:+ "," +:+ b)).
  simpl. rewrite IH.
  destruct (decide (c = comma)); [done|].
  pose proof (splitComma_nonempty a).
  by destruct (splitComma a).
Qed.

Lemma splitComma_free s v :
  v ∈ splitComma s → comma ∉ list_ascii_of_string v.
Proof.
  revert v. induction s as [|c s IH]; intros v; simpl.
  - intros ->%list_elem_of_singleton. apply not_elem_of_nil.
  - destruct (decide (c = comma)) as [->|Hc].
    + intros [->|?]%elem_of_cons; [apply not_elem_of_nil|by apply IH].
    + pose proof (splitComma_nonempty s).
      destruct (splitComma s) as [|piece pieces]; [done|].
      intros [->|?]%elem_of_cons.
      * simpl. apply not_elem_of_cons. split; [congruence|].
        apply IH. left.
      * apply IH. by right.
Qed.

Lemma splitComma_whole s :
  comma ∉ list_ascii_of_string s → splitComma s = [s].
Proof.
  induction s as [|c s IH]; [done|]. simpl.
  intros [Hc Hs]%not_elem_of_cons.
  rewrite decide_False by congruence. by rewrite IH.
Qed.

Lemma toMap_fold (pieces : list string) (m : gset string) :
  foldl (λ m v, if decide (0 < String.length v)%nat then {[v]} ∪ m else m)
    m pieces
  = m ∪ list_to_set (filter (λ v, v ≠ EmptyString) pieces).
Proof.
  revert m. induction pieces as [|v pieces IH]; intros m; simpl.
  - by rewrite (right_id_L ∅ (∪)).
  - rewrite IH, filter_cons. destruct v as [|c v].
    + rewrite (decide_False (P := (0 < _)%nat)) by (simpl; lia).
      by rewrite decide_False by (by intros []).
    + rewrite (decide_True (P := (0 < _)%nat)) by (simpl; lia).
      rewrite decide_True by done. rewrite list_to_set_cons.
      by rewrite (comm_L (∪) {[String c v]} m), <-(assoc_L (∪)).
Qed.

Lemma elem_of_toMap s v :
  v ∈ toMap s ↔ v ≠ EmptyString ∧ v ∈ splitComma s.
Proof.
  unfold toMap. rewrite toMap_fold, elem_of_union, elem_of_list_to_set.
  rewrite list_elem_of_filter, elem_of_empty. tauto.
Qed.

(** X2. [toMap] turns a flag into the set of its pieces between commas
    that are not empty: no key is empty and no key holds a comma; the keys
    of two flags joined by a comma are the keys of the one and of the
    other; and a flag without a comma gives itself as the only key, or no
    key when it is empty. *)
Theorem toMap_pieces :
  (∀ s v, v ∈ toMap s →
          v ≠ EmptyString ∧ comma ∉ list_ascii_of_string v)
  ∧ (∀ a b, toMap (a +:+ "," +:+ b) = toMap a ∪ toMap b)
  ∧ (∀ v, comma ∉ list_ascii_of_string v →
          toMap v = if decide (v = EmptyString) then ∅ else {[v]}).
Proof.
  split_and!.
  - intros s v [? ?]%elem_of_toMap. split; [done|].
    by apply (splitComma_free s).
  - intros a b. apply set_eq. intros v.
    rewrite elem_of_union, !elem_of_toMap, splitComma_app, elem_of_app.
    tauto.
  - intros v Hv. apply set_eq. intros x.
    rewrite elem_of_toMap, splitComma_whole by done.
    rewrite list_elem_of_singleton.
    destruct (decide (v = EmptyString)) as [->|Hne].
    + rewrite elem_of_empty. split; [by intros [? ->]|done].
    + rewrite elem_of_singleton. split; [by intros [_ ->]|by intros ->].
Qed.

(** X3. What [main] backs up.  With both an include and an exclude list
    for the containers it gives up, and so it does, after that test, with
    both lists for the hosts.  Otherwise it keeps, in the order of the
    listing, the containers whose host is no key of the exclude flag and
    is a key of the include flag when that flag has keys, and whose name
    passes the two flags for the containers in the same way: a flag with no
    key, such as a lone comma, filters nothing. *)
Theorem selection_of_main (contExcStr contIncStr hostExcStr hostIncStr
    : string) (containers : list listed) :
  selectContainers contExcStr contIncStr hostExcStr hostIncStr containers =
  if decide (contExcStr ≠ EmptyString ∧ contIncStr ≠ EmptyString) then
    inl BothContainerLists
  else if decide (hostExcStr ≠ EmptyString ∧ hostIncStr ≠ EmptyString) then
    inl BothHostLists
  else
    inr (filter
           (λ c,
              (host c ∉ toMap hostExcStr)
              ∧ (toMap hostIncStr = ∅ ∨ host c ∈ toMap hostIncStr)
              ∧ (name (container c) ∉ toMap contExcStr)
              ∧ (toMap contIncStr = ∅
                 ∨ name (container c) ∈ toMap contIncStr))
           containers).
Proof.
  assert (Hlen : ∀ s, (0 < String.length s)%nat ↔ s ≠ EmptyString).
  { intros [|? ?]; simpl; [split; [lia|done]|split; [done|lia]]. }
  unfold selectContainers.
  destruct (decide (contExcStr ≠ EmptyString ∧ contIncStr ≠ EmptyString))
    as [Hc|Hc].
  { rewrite decide_True; [done|]. by rewrite !Hlen. }
  rewrite decide_False by (by rewrite !Hlen).
  destruct (decide (hostExcStr ≠ EmptyString ∧ hostIncStr ≠ EmptyString))
    as [Hh|Hh].
  { rewrite decide_True; [done|]. by rewrite !Hlen. }
  rewrite decide_False by (by rewrite !Hlen).
  f_equal. rewrite !filterCont_filter, !filterHost_filter.
  rewrite !list_filter_filter.
  apply list_filter_iff. intros c.
  rewrite !bool_decide_eq_false, !bool_decide_eq_true.
  assert (∀ key (keys : gset string),
            keys = ∅ ∨ key ∉ keys ↔ key ∉ keys) as Hexc.
  { intros key keys. split; [|by right].
    intros [->|?]; [apply not_elem_of_empty|done]. }
  rewrite !Hexc. tauto.
Qed.

(** *** The listing *)

Lemma stateOf_Some st s :
  stateOf st = Some s ↔
  st = match s with
       | stateRunning => "RUNNING"
       | stateStopped => "STOPPED"
       end.
Proof.
  unfold stateOf. destruct s; repeat case_decide; naive_solver.
Qed.

Lemma stateOf_None st :
  stateOf st = None ↔ st ≠ "STOPPED" ∧ st ≠ "RUNNING".
Proof.
  unfold stateOf. repeat case_decide; subst; split; try done.
  - by intros [? ?].
  - by intros [? ?].
Qed.

Lemma containersFrom_inr profileShow k rows cs :
  containersFrom profileShow k rows = inr cs ↔
  length cs = length rows
  ∧ ∀ i row c, rows !! i = Some row → cs !! i = Some c →
      listedAs profileShow (k + i) row c.
Proof.
  revert k cs. induction rows as [|row rows IH]; intros k cs; simpl.
  - split.
    + intros [= <-]. split; [done|]. intros i row c Hrow.
      by rewrite lookup_nil in Hrow.
    + intros [Hlen _]. by destruct cs.
  - split.
    + destruct (row !! 1%nat) as [st|] eqn:H1; [|done].
      destruct (stateOf st) as [s|] eqn:Hs; [|done].
      destruct (row !! 0%nat) as [cname|] eqn:H0; [|done].
      destruct (row !! 3%nat) as [pname|] eqn:H3; [|done].
      destruct (row !! 2%nat) as [h|] eqn:H2; [|done].
      destruct (containersFrom profileShow (S k) rows) as [e|cs'] eqn:Hrec;
        [done|].
      intros [= <-]. apply IH in Hrec as [Hlen Hall].
      split; [simpl; by rewrite Hlen|].
      intros [|i] row' c; simpl.
      * intros [= <-] [= <-]. rewrite Nat.add_0_r.
        apply stateOf_Some in Hs. by unfold listedAs; simpl; subst st.
      * intros. replace (k + S i)%nat with (S k + i)%nat by lia.
        by apply Hall.
    + intros [Hlen Hall]. destruct cs as [|c cs']; [done|].
      destruct (Hall 0%nat row c eq_refl eq_refl) as (H0&H1&H2&H3&Hp).
      rewrite Nat.add_0_r in Hp. rewrite H1.
      rewrite (proj2 (stateOf_Some _ (state c)) eq_refl), H0, H3, H2.
      assert (containersFrom profileShow (S k) rows = inr cs') as ->.
      { apply IH. split; [simpl in Hlen; lia|]. intros i r c' Hr Hc.
        replace (S k + i)%nat with (k + S i)%nat by lia.
        by apply Hall. }
      destruct c as [[n pn p] h s]; simpl in *. by rewrite Hp.
Qed.

Lemma wellListed_inv row :
  wellListed row ↔
  ∃ cname st h pname rest,
    row = cname :: st :: h :: pname :: rest ∧ is_Some (stateOf st).
Proof.
  unfold wellListed. split.
  - intros [Hlen Hst].
    destruct row as [|cname [|st [|h [|pname rest]]]]; simpl in Hlen;
      try lia.
    exists cname, st, h, pname, rest. split; [done|].
    simpl in Hst. destruct Hst as [[= ->]|[= ->]]; by eexists.
  - intros (cname&st&h&pname&rest&->&[s Hs]). split; [simpl; lia|].
    apply stateOf_Some in Hs. simpl. destruct s; subst st; auto.
Qed.

Lemma containersFrom_well profileShow k row rows :
  wellListed row →
  ∃ c, listedAs profileShow k row c
       ∧ containersFrom profileShow k (row :: rows)
         = match containersFrom profileShow (S k) rows with
           | inr containers => inr (c :: containers)
           | inl e => inl e
           end.
Proof.
  intros (cname&st&h&pname&rest&->&[s Hs])%wellListed_inv.
  exists (mkListed (mkContainer cname pname (profileShow k)) h s).
  simpl. rewrite Hs. split; [|done].
  apply stateOf_Some in Hs. subst st. by unfold listedAs.
Qed.

Lemma containersFrom_unknown profileShow k rows n s :
  containersFrom profileShow k rows = inl (UnknownState n s) ↔
  ∃ pre row post,
    rows = pre ++ row :: post ∧ Forall wellListed pre
    ∧ row !! 0%nat = Some n ∧ row !! 1%nat = Some s
    ∧ stateOf s = None.
Proof.
  revert k. induction rows as [|row rows IH]; intros k.
  - split; [done|]. intros (pre&?&?&?&_). by destruct pre.
  - split.
    + destruct (decide (wellListed row)) as [Hw|Hw].
      * destruct (containersFrom_well profileShow k row rows Hw)
          as (c&_&->).
        destruct (containersFrom profileShow (S k) rows) as [e|] eqn:Hrec;
          [|done].
        intros [= ->]. apply IH in Hrec as (pre&r&post&->&Hpre&Hr).
        exists (row :: pre), r, post.
        split; [done|]. split; [by constructor|done].
      * simpl. intros Hrun. exists [], row, rows.
        split; [done|]. split; [constructor|].
        destruct row as [|cname [|st rest]]; [done..|]. simpl in *.
        destruct (stateOf st) eqn:Hs.
        -- destruct rest as [|h [|pname rest]]; [done..|].
           destruct (containersFrom profileShow (S k) rows); [|done].
           exfalso. apply Hw, wellListed_inv. by repeat eexists.
        -- by injection Hrun as -> ->.
    + intros (pre&r&post&Heq&Hpre&H0&H1&Hs).
      destruct pre as [|r' pre]; simpl in Heq; simplify_eq.
      * simpl. rewrite H1, Hs, H0. done.
      * apply Forall_cons in Hpre as [Hw Hpre].
        destruct (containersFrom_well profileShow k r' (pre ++ r :: post) Hw)
          as (c&_&->).
        assert (containersFrom profileShow (S k) (pre ++ r :: post)
                = inl (UnknownState n s)) as ->; [|done].
        apply IH. by exists pre, r, post.
Qed.

Lemma containersFrom_range profileShow k rows :
  containersFrom profileShow k rows = inl ListIndexOutOfRange ↔
  ∃ pre row post,
    rows = pre ++ row :: post ∧ Forall wellListed pre
    ∧ (length row < 4)%nat
    ∧ ∀ s, row !! 1%nat = Some s → is_Some (stateOf s).
Proof.
  revert k. induction rows as [|row rows IH]; intros k.
  - split; [done|]. intros (pre&?&?&?&_). by destruct pre.
  - split.
    + destruct (decide (wellListed row)) as [Hw|Hw].
      * destruct (containersFrom_well profileShow k row rows Hw)
          as (c&_&->).
        destruct (containersFrom profileShow (S k) rows) as [e|] eqn:Hrec;
          [|done].
        intros [= ->]. apply IH in Hrec as (pre&r&post&->&Hpre&Hr).
        exists (row :: pre), r, post.
        split; [done|]. split; [by constructor|done].
      * simpl. intros Hrun. exists [], row, rows.
        split; [done|]. split; [constructor|].
        destruct row as [|cname [|st rest]];
          [by split; [simpl; lia|]..|].
        simpl in *. destruct (stateOf st) eqn:Hs; [|done].
        destruct rest as [|h [|pname rest]];
          [by split; [simpl; lia|intros ? [= <-]; eexists]..|].
        exfalso. apply Hw, wellListed_inv. by repeat eexists.
    + intros (pre&r&post&Heq&Hpre&Hlen&Hst).
      destruct pre as [|r' pre]; simpl in Heq; simplify_eq.
      * simpl. destruct r as [|cname [|st rest]]; [done..|]. simpl.
        destruct (Hst st eq_refl) as [s ->].
        destruct rest as [|h [|pname rest]]; [done..|]. simpl in Hlen. lia.
      * apply Forall_cons in Hpre as [Hw Hpre].
        destruct (containersFrom_well profileShow k r' (pre ++ r :: post) Hw)
          as (c&_&->).
        assert (containersFrom profileShow (S k) (pre ++ r :: post)
                = inl ListIndexOutOfRange) as ->; [|done].
        apply IH. by exists pre, r, post.
Qed.

Lemma is_Some_stateOf s :
  is_Some (stateOf s) ↔ s = "STOPPED" ∨ s = "RUNNING".
Proof.
  split.
  - intros [[] ->%stateOf_Some]; auto.
  - intros [->| ->]; by eexists.
Qed.

(** X4. [lxcList] returns the containers [cs] exactly when the csv reader
    accepts the listing, [cs] has one container for each record, and the
    container at each place is made from the record at that place: its
    name is the first field, its state the second, which is STOPPED or
    RUNNING, its host the third and the name of its profile the fourth;
    its profile is what [lxc profile show] printed at that turn. *)
Theorem lxcList_returns (profileShow : nat → string) (stdout : string)
    (cs : list listed) :
  lxcList profileShow stdout = inr cs ↔
  ∃ rows,
    ReadAll (NewReader (list_ascii_of_string stdout)) = Got rows
    ∧ length cs = length rows
    ∧ ∀ i row c, rows !! i = Some row → cs !! i = Some c →
        listedAs profileShow i row c.
Proof.
  unfold lxcList.
  destruct (ReadAll (NewReader (list_ascii_of_string stdout)))
    as [rows|e| |].
  - rewrite containersFrom_inr. split.
    + intros [Hlen Hall]. by exists rows.
    + by intros (?&[= <-]&Hlen&Hall).
  - split; [done|]. by intros (?&?&_).
  - split; [done|]. by intros (?&?&_).
  - split; [done|]. by intros (?&?&_).
Qed.

(** X5. [lxcList] gives up with the message about an unknown state, naming
    container [n] and state [s], exactly when the csv reader accepts the
    listing and the first record that does not have four fields with
    STOPPED or RUNNING as the second one has [n] as its first field and
    [s], which is neither of the two words, as its second: one container
    that is, say, FROZEN stops the backup of them all. *)
Theorem lxcList_unknown_state (profileShow : nat → string)
    (stdout n s : string) :
  lxcList profileShow stdout = inl (UnknownState n s) ↔
  ∃ pre row post,
    ReadAll (NewReader (list_ascii_of_string stdout))
      = Got (pre ++ row :: post)
    ∧ Forall wellListed pre
    ∧ row !! 0%nat = Some n ∧ row !! 1%nat = Some s
    ∧ s ≠ "STOPPED" ∧ s ≠ "RUNNING".
Proof.
  unfold lxcList.
  destruct (ReadAll (NewReader (list_ascii_of_string stdout)))
    as [rows|e| |].
  - rewrite containersFrom_unknown. split.
    + intros (pre&row&post&->&Hpre&H0&H1&Hs%stateOf_None).
      by exists pre, row, post.
    + intros (pre&row&post&[= ->]&Hpre&H0&H1&Hs).
      exists pre, row, post. by rewrite stateOf_None.
  - split; [done|]. by intros (?&?&?&?&_).
  - split; [done|]. by intros (?&?&?&?&_).
  - split; [done|]. by intros (?&?&?&?&_).
Qed.

(** X6. [lxcList] ends in an index-out-of-range panic exactly when the csv
    reader accepts the listing and its first record has fewer than four
    fields and, if it has a second field, STOPPED or RUNNING there.  The
    reader only returns records of one length, so a later record never
    panics. *)
Theorem lxcList_short_rows (profileShow : nat → string) (stdout : string) :
  lxcList profileShow stdout = inl ListIndexOutOfRange ↔
  ∃ row rows,
    ReadAll (NewReader (list_ascii_of_string stdout)) = Got (row :: rows)
    ∧ (length row < 4)%nat
    ∧ ∀ s, row !! 1%nat = Some s → s = "STOPPED" ∨ s = "RUNNING".
Proof.
  unfold lxcList.
  destruct (ReadAll (NewReader (list_ascii_of_string stdout)))
    as [rows|e| |] eqn:Hread.
  - rewrite containersFrom_range. split.
    + intros (pre&row&post&->&Hpre&Hlen&Hs).
      destruct pre as [|r pre].
      * exists row, post. split_and!; [done..|].
        intros s ?. by apply is_Some_stateOf, Hs.
      * apply Forall_cons in Hpre as [[Hr _] _].
        apply ReadAll_uniform in Hread as [_ Huni].
        rewrite (Huni r row) in Hr; [lia|by left|].
        right. apply elem_of_app. right. by left.
    + intros (row&rows'&[= ->]&Hlen&Hs).
      exists [], row, rows'. split_and!; [done|constructor|done|].
      intros s ?. by apply is_Some_stateOf, Hs.
  - split; [done|]. by intros (?&?&?&_).
  - split; [done|]. by intros (?&?&?&_).
  - split; [done|]. by intros (?&?&?&_).
Qed.

(** ** More on the fingerprints *)

(** *** Digests in text *)

Lemma hexDigit_code (n : N) :
  (n < 16)%N →
  N_of_ascii (hexDigit n) = (if (n <? 10)%N then 48 + n else 87 + n)%N.
Proof.
  intros Hn. rewrite <-(N2Nat.id n).
  assert (N.to_nat n < 16)%nat as Hk by lia.
  generalize dependent (N.to_nat n). intros k Hk.
  do 16 (destruct k as [|k]; [reflexivity|]). lia.
Qed.

Lemma hexDigit_inj (n m : N) :
  (n < 16)%N → (m < 16)%N → hexDigit n = hexDigit m → n = m.
Proof.
  intros Hn Hm Heq. apply (f_equal N_of_ascii) in Heq.
  rewrite !hexDigit_code in Heq by done.
  destruct (N.ltb_spec n 10), (N.ltb_spec m 10); lia.
Qed.

Lemma hexDigit_hex (n : N) :
  hexDigit n ∈ list_ascii_of_string "0123456789abcdef".
Proof.
  destruct (decide (n < 16)%N) as [Hn|Hn].
  - rewrite <-(N2Nat.id n).
    assert (N.to_nat n < 16)%nat as Hk by lia.
    generalize dependent (N.to_nat n). intros k Hk.
    do 16 (destruct k as [|k];
           [simpl; repeat ((by left) || right)|]). lia.
  - assert (hexDigit n = "f"%char) as ->.
    { destruct n as [|p]; [lia|].
      repeat first [reflexivity | lia | destruct p as [p|p|]]. }
    simpl. repeat ((by left) || right).
Qed.

Lemma sprintf02x_inj (a b : ascii) : sprintf02x a = sprintf02x b → a = b.
Proof.
  unfold sprintf02x. intros [= Hhi Hlo].
  pose proof (N_ascii_bounded a). pose proof (N_ascii_bounded b).
  apply hexDigit_inj in Hhi;
    [|apply N.Div0.div_lt_upper_bound; lia..].
  apply hexDigit_inj in Hlo; [|by apply N.mod_lt..].
  rewrite <-(ascii_N_embedding a), <-(ascii_N_embedding b). f_equal.
  rewrite (N.div_mod (N_of_ascii a) 16), (N.div_mod (N_of_ascii b) 16)
    by done.
  by rewrite Hhi, Hlo.
Qed.

Lemma hexString_cons v rest :
  hexString (v :: rest)
  = String (hexDigit (N_of_ascii v / 16))
      (String (hexDigit (N_of_ascii v mod 16)) (hexString rest)).
Proof. done. Qed.

Lemma hexString_hex sum :
  Forall (λ c, c ∈ list_ascii_of_string "0123456789abcdef")
    (list_ascii_of_string (hexString sum)).
Proof.
  induction sum as [|v rest IH]; [constructor|].
  rewrite hexString_cons.
  change (list_ascii_of_string (String ?a (String ?b ?s)))
    with (a :: b :: list_ascii_of_string s).
  constructor; [apply hexDigit_hex|].
  constructor; [apply hexDigit_hex|done].
Qed.

(** X7. The text of a digest has two characters for each byte, all of them
    among 0123456789abcdef, and two digests that differ have texts that
    differ: no change of a digest is lost when it is written down. *)
Theorem hexString_faithful :
  (∀ sum, String.length (hexString sum) = (2 * length sum)%nat)
  ∧ (∀ sum,
       Forall (λ c, c ∈ list_ascii_of_string "0123456789abcdef")
         (list_ascii_of_string (hexString sum)))
  ∧ (∀ a b, hexString a = hexString b → a = b).
Proof.
  split_and!.
  - induction sum as [|v rest IH]; [done|].
    rewrite hexString_cons. simpl. rewrite IH. lia.
  - apply hexString_hex.
  - induction a as [|x a IH]; intros [|y b]; [done|done|done|].
    rewrite !hexString_cons. intros [= Hhi Hlo Hrest].
    f_equal; [|by apply IH].
    apply sprintf02x_inj. unfold sprintf02x. by rewrite Hhi, Hlo.
Qed.

(** *** The diff finds nothing exactly on equal tables *)

Lemma diffOver_changed (quarterSums sums : table)
    (qs cs : list (string * string)) p :
  qs ≡ₚ map_to_list quarterSums →
  cs ≡ₚ map_to_list sums →
  p ∈ filesChangedAdded (diffOver qs cs quarterSums sums) ↔
  ∃ d, sums !! p = Some d ∧ quarterSums !! p ≠ Some d.
Proof.
  intros Hqs Hcs. unfold diffOver.
  rewrite scanCurrent_changed, scanQuarter_changed. simpl.
  rewrite list_elem_of_fmap. split.
  - intros [[?|(dOld&dCur&Hin&Hcur&Hne)]|[([p' d]&->&Hin) Hq]].
    + set_solver.
    + rewrite Hqs in Hin. apply elem_of_map_to_list in Hin.
      exists dCur. split; [done|]. congruence.
    + rewrite Hcs in Hin. apply elem_of_map_to_list in Hin.
      exists d. simpl in *. split; [done|]. congruence.
  - intros (d&Hcur&Hne).
    destruct (quarterSums !! p) as [dOld|] eqn:Hq.
    + left. right. exists dOld, d. split_and!; [|done|congruence].
      rewrite Hqs. by apply elem_of_map_to_list.
    + right. split; [|done]. exists (p, d). split; [done|].
      rewrite Hcs. by apply elem_of_map_to_list.
Qed.

Lemma diffOver_removed (quarterSums sums : table)
    (qs cs : list (string * string)) p :
  qs ≡ₚ map_to_list quarterSums →
  p ∈ filesRemoved (diffOver qs cs quarterSums sums) ↔
  is_Some (quarterSums !! p) ∧ sums !! p = None.
Proof.
  intros Hqs. unfold diffOver.
  rewrite scanCurrent_removed, scanQuarter_removed. simpl.
  rewrite list_elem_of_filter, list_elem_of_fmap. split.
  - intros [Hs ([p' d]&->&Hin)]. split; [|done].
    rewrite Hqs in Hin. apply elem_of_map_to_list in Hin. by exists d.
  - intros [[d Hq] Hs]. split; [done|]. exists (p, d). split; [done|].
    rewrite Hqs. by apply elem_of_map_to_list.
Qed.

Lemma noChanges_diffOver (quarterSums sums : table)
    (qs cs : list (string * string)) :
  qs ≡ₚ map_to_list quarterSums →
  cs ≡ₚ map_to_list sums →
  noChanges (diffOver qs cs quarterSums sums) = true ↔ quarterSums = sums.
Proof.
  intros Hqs Hcs. unfold noChanges.
  rewrite andb_true_iff, !bool_decide_eq_true. split.
  - intros [Hchanged Hremoved]. apply map_eq. intros p.
    destruct (sums !! p) as [d|] eqn:Hs.
    + destruct (decide (quarterSums !! p = Some d)) as [|Hne]; [done|].
      assert (p ∈ filesChangedAdded (diffOver qs cs quarterSums sums))
        as Hin by (apply diffOver_changed; eauto).
      rewrite Hchanged in Hin. set_solver.
    + destruct (quarterSums !! p) as [d|] eqn:Hq; [|done].
      assert (p ∈ filesRemoved (diffOver qs cs quarterSums sums))
        as Hin by (apply diffOver_removed; eauto).
      rewrite Hremoved in Hin. by apply elem_of_nil in Hin.
  - intros ->. split.
    + apply set_eq. intros p. rewrite diffOver_changed by done.
      split; [|set_solver]. by intros (d&?&?).
    + apply elem_of_nil_inv. intros p.
      rewrite diffOver_removed by done.
      intros [[d Hd] Hnone]. congruence.
Qed.

(** X8. Whatever the order in which the two maps are ranged over, the
    comparison of [main] finds nothing changed, added or removed exactly
    when the fingerprints of the export are the table of the quarterly
    backup: the same paths with the same digests. *)
Theorem no_changes_iff_equal (quarterSums sums : table)
    (qs cs : list (string * string)) :
  qs ≡ₚ map_to_list quarterSums →
  cs ≡ₚ map_to_list sums →
  noChanges (diffOver qs cs quarterSums sums) = true ↔ quarterSums = sums.
Proof. apply noChanges_diffOver. Qed.

Lemma no_changes_iff_equal_witness :
  let B : table := <["a" := "h1"]> (<["b" := "h2"]> ∅) in
  let C : table := <["a" := "h1"]> (<["b" := "h3"]> ∅) in
  noChanges (diffOver (map_to_list B) (map_to_list B) B B) = true
  ∧ noChanges (diffOver (map_to_list B) (map_to_list C) B C) = false.
Proof.
  intros B C. split.
  - by apply (no_changes_iff_equal B B).
  - apply not_true_is_false. intros H.
    apply (no_changes_iff_equal B C) in H; [|done..].
    apply (f_equal (lookup "b")) in H. vm_compute in H. congruence.
Defined.

(** ** More on [createDeltaBackup] *)

Lemma removed_is_no_profile (dest profileName : string) :
  dest +:+ ".removed" ≠ dest +:+ "." +:+ profileName +:+ ".profile".
Proof.
  intros H%append_cancel. injection H as H.
  destruct profileName as [|a [|b [|c [|d [|e [|f [|g [|h s]]]]]]]];
    simpl in H; discriminate H.
Qed.

(** X9. [createDeltaBackup] writes nowhere but at its destination and the
    two names beside it: when it returns, every other path of the
    directory, the source among them, holds what it held before; when it
    ends the process, every path but the destination does. *)
Theorem createDeltaBackup_touches_only_destination (z : streams)
    (src : string) (filesChanged : gset string) (filesRemoved : list string)
    (dest profileName profileData : string) (σ : fs) :
  match createDeltaBackup z src filesChanged filesRemoved dest profileName
          profileData σ with
  | Done _ σ' =>
      ∀ p, p ≠ dest → p ≠ dest +:+ ".removed" →
           p ≠ dest +:+ "." +:+ profileName +:+ ".profile" →
           σ' !! p = σ !! p
  | Fatal _ σ' => ∀ p, p ≠ dest → σ' !! p = σ !! p
  end.
Proof.
  destruct (createDeltaBackup_cases z src filesChanged filesRemoved dest
              profileName profileData σ)
    as [[_ ->]|[(_&_&->)|[(_&e&f&_&->)|(_&f&_&_&_&->)]]]; try done.
  - intros p ?. by rewrite lookup_insert_ne.
  - intros p ? ? ?. by rewrite !lookup_insert_ne.
Qed.

(** X10. When [createDeltaBackup] builds a destination that was not there
    and returns, the file [.removed] beside the destination holds the
    removed paths, each followed by a line feed and in the order of the
    list, and is there and empty when nothing was removed; the file
    [.<profile name>.profile] holds the profile.  What these two names
    held before is overwritten. *)
Theorem delta_comes_with_manifest_and_profile (z : streams) (src : string)
    (filesChanged : gset string) (filesRemoved : list string)
    (dest profileName profileData : string) (σ σ' : fs) :
  σ !! dest = None →
  createDeltaBackup z src filesChanged filesRemoved dest profileName
    profileData σ = Done tt σ' →
  σ' !! (dest +:+ ".removed")
    = Some (Plain (concat ((λ p, list_ascii_of_string p ++ [LF])
                             <$> filesRemoved)))
  ∧ σ' !! (dest +:+ "." +:+ profileName +:+ ".profile")
    = Some (Plain (list_ascii_of_string profileData)).
Proof.
  intros Hdest Hrun.
  assert (removedManifest filesRemoved
          = concat ((λ p, list_ascii_of_string p ++ [LF]) <$> filesRemoved))
    as <-.
  { clear Hrun. induction filesRemoved as [|p ps IH]; [done|].
    simpl. by rewrite IH, <-app_assoc. }
  destruct (createDeltaBackup_cases z src filesChanged filesRemoved dest
              profileName profileData σ)
    as [[[? ?] _]|[(_&_&Heq)|[(_&e&f&_&Heq)|(_&f&_&_&_&Heq)]]];
    [congruence..|].
  rewrite Heq in Hrun. injection Hrun as <-.
  pose proof (removed_is_no_profile dest profileName) as Hne.
  split.
  - rewrite lookup_insert_ne by (symmetry; by apply append_ne_self).
    rewrite lookup_insert_ne by done.
    by rewrite lookup_insert_eq.
  - rewrite lookup_insert_ne; [by rewrite lookup_insert_eq|].
    intros Heq'. symmetry in Heq'. by apply append_ne_self in Heq'.
Qed.

Lemma delta_comes_with_manifest_and_profile_witness :
  afterDelta !! (monthSlot +:+ ".removed")
    = Some (Plain (concat ((λ p, list_ascii_of_string p ++ [LF])
                             <$> ["rootfs/old"])))
  ∧ afterDelta !! (monthSlot +:+ ".default.profile")
    = Some (Plain (list_ascii_of_string "config: {}")).
Proof.
  apply (delta_comes_with_manifest_and_profile wholeReads exportName
           {["rootfs/b"]} ["rootfs/old"] monthSlot "default" "config: {}"
           soundExport afterDelta); reflexivity.
Defined.

(** ** The backup of one container, run by run *)

Lemma app_assoc_s (a b c : string) : (a +:+ b) +:+ c = a +:+ (b +:+ c).
Proof.
  induction a as [|x a IH]; [done|].
  change (String x ((a +:+ b) +:+ c) = String x (a +:+ (b +:+ c))).
  by rewrite IH.
Qed.

(** Two names of the backup directory that start alike and go on
    differently. *)
Ltac names_differ :=
  let H := fresh in
  rewrite ?app_assoc_s; intros H; apply append_cancel in H;
  first [discriminate H
        | exfalso; revert H; by apply append_ne_self
        | exfalso; symmetry in H; revert H; by apply append_ne_self].

Lemma hexString_no_CRLF sum :
  hasCRLF (list_ascii_of_string (hexString sum)) = false.
Proof.
  apply no_CR_hasCRLF. intros Hin.
  pose proof (hexString_hex sum) as Hall. rewrite Forall_forall in Hall.
  apply Hall in Hin. simpl in Hin.
  repeat (apply elem_of_cons in Hin as [Hin|Hin]; [discriminate Hin|]).
  by apply elem_of_nil in Hin.
Qed.

Lemma parseFileData_written (fname : string) (fd : table) :
  (∀ path md5sum, fd !! path = Some md5sum →
     hasCRLF (list_ascii_of_string path) = false
     ∧ hasCRLF (list_ascii_of_string md5sum) = false) →
  parseFileData fname (WriteAll (fileDataRecords fd)) = Ok fd.
Proof.
  intros Hfree. unfold parseFileData.
  assert (Hrecs : Forall (λ record, length record = 2%nat
            ∧ Forall (λ f, hasCRLF (list_ascii_of_string f) = false) record)
            (fileDataRecords fd)).
  { unfold fileDataRecords. apply Forall_fmap, Forall_forall.
    intros name [v Hv]%sortStrings_elem_of. simpl. split; [done|].
    rewrite Hv. simpl. destruct (Hfree _ _ Hv). by repeat constructor. }
  rewrite ReadAll_WriteAll by done.
  apply fillChecksums_Ok. split.
  - eapply Forall_impl; [exact Hrecs|]. intros ? [-> _]. lia.
  - symmetry. apply fileDataRecords_table.
Qed.

Section runs.
Variable md5Sum : bytes → bytes.
Variable z : streams.

Lemma recorded_free (ms : list member) :
  Forall (λ m, regular m →
            hasCRLF (list_ascii_of_string (Name (hdr m))) = false) ms →
  ∀ path md5sum, recorded md5Sum ms ∅ !! path = Some md5sum →
    hasCRLF (list_ascii_of_string path) = false
    ∧ hasCRLF (list_ascii_of_string md5sum) = false.
Proof.
  intros Hall path md5sum
    [Hl|(m&Hin&Hreg&<-&->)]%recorded_lookup_Some; [done|].
  rewrite Forall_forall in Hall. split; [by apply Hall|].
  apply hexString_no_CRLF.
Qed.

Lemma fetch_stored (fname : string) (ms : list member) (σ : fs) :
  Forall (λ m, regular m → sound m) ms →
  fetchFileDataFromTar md5Sum fname (<[fname := TarZst ms true]> σ)
  = Ok (recorded md5Sum ms ∅).
Proof.
  intros Hall. unfold fetchFileDataFromTar. rewrite lookup_insert_eq. simpl.
  by rewrite fetchLoop_sound.
Qed.

Lemma backupContainer_first (now : Time) (lxdBackupPrefix : string)
    (c : containerState) (ms : list member) (tmpName : string) (σ : fs) :
  σ !! ((lxdBackupPrefix +:+ name c) +:+ quarter now) = None →
  Forall (λ m, regular m → sound m) ms →
  backupContainer md5Sum z now lxdBackupPrefix c (TarZst ms true) tmpName σ
  = Done tt
      (<[((lxdBackupPrefix +:+ name c) +:+ quarter now)
           +:+ "." +:+ profileName c +:+ ".profile"
         := Plain (list_ascii_of_string (profile c))]>
         (<[((lxdBackupPrefix +:+ name c) +:+ quarter now) +:+ ".md5sum"
            := Plain (WriteAll (fileDataRecords (recorded md5Sum ms ∅)))]>
            (<[(lxdBackupPrefix +:+ name c) +:+ quarter now
               := TarZst ms true]> σ))).
Proof.
  intros Hq Hall.
  unfold backupContainer, mbind, M_bind, exists_, store, lift.
  rewrite Hq. rewrite bool_decide_eq_false_2 by (by intros [? ?]).
  by rewrite fetch_stored.
Qed.
End runs.

Lemma md5sum_is_no_profile (dest profileName : string) :
  md5sumFile dest ≠ profileFile dest profileName.
Proof.
  unfold md5sumFile, profileFile.
  intros H%append_cancel. injection H as H.
  destruct profileName as [|a [|b [|c [|d [|e [|f [|g s]]]]]]];
    simpl in H; discriminate H.
Qed.

Lemma createDeltaBackup_sound (z : streams) (src : string)
    (filesChanged : gset string) (filesRemoved : list string)
    (dest profileName profileData : string) (σ : fs) (ms : list member) :
  σ !! src = Some (TarZst ms true) →
  Forall (λ m, selected filesChanged m → sound m ∧ readWhole z m) ms →
  ∃ σ',
    createDeltaBackup z src filesChanged filesRemoved dest profileName
      profileData σ = Done tt σ'
    ∧ σ' !! dest
      = (if decide (is_Some (σ !! dest)) then σ !! dest
         else Some (TarZst (filter (selected filesChanged) ms) true))
    ∧ ∀ p, p ≠ dest → p ≠ removedFile dest →
           p ≠ profileFile dest profileName → σ' !! p = σ !! p.
Proof.
  intros Hsrc Hall. destruct (decide (is_Some (σ !! dest))) as [Hd|Hd].
  - exists σ. by rewrite createDeltaBackup_present.
  - apply eq_None_not_Some in Hd.
    rewrite (createDeltaBackup_whole z src filesChanged filesRemoved dest
               profileName profileData σ ms Hd Hsrc)
      by (eapply Forall_impl; [exact Hall|]; intros m Hm Hs; by apply Hm).
    rewrite copyOf_selected_sound
      by (eapply Forall_impl; [exact Hall|]; intros m Hm Hs; by apply Hm).
    eexists. split; [done|]. split; [by rewrite lookup_insert_eq|].
    intros p Hp Hr Hpr. unfold removedFile, profileFile in *.
    by rewrite !lookup_insert_ne by done.
Qed.

(** X11. The first run of a period.  When the quarterly backup of the
    container is not there and the export is a sound archive, the run
    returns and leaves the export under the name of the quarterly backup,
    beside it the fingerprint file with one record for each path of a
    regular file and the profile, and every other path as it was: no
    slot, no log and nothing under the temporary name.  When no path of
    the export holds a carriage return before a line feed, the
    fingerprint file loads back as the fingerprints of the export. *)
Theorem first_run_lays_down_baseline (md5Sum : bytes → bytes) (z : streams)
    (now : Time) (lxdBackupPrefix : string) (c : containerState) (ms : list member)
    (tmpName : string) (σ : fs) :
  σ !! qBackup now lxdBackupPrefix c = None →
  Forall (λ m, regular m → sound m) ms →
  ∃ σ',
    backupContainer md5Sum z now lxdBackupPrefix c (TarZst ms true) tmpName σ
      = Done tt σ'
    ∧ σ' !! qBackup now lxdBackupPrefix c = Some (TarZst ms true)
    ∧ σ' !! md5sumFile (qBackup now lxdBackupPrefix c)
      = Some (Plain (WriteAll (fileDataRecords (recorded md5Sum ms ∅))))
    ∧ σ' !! profileFile (qBackup now lxdBackupPrefix c) (profileName c)
      = Some (Plain (list_ascii_of_string (profile c)))
    ∧ (∀ p, p ≠ qBackup now lxdBackupPrefix c →
            p ≠ md5sumFile (qBackup now lxdBackupPrefix c) →
            p ≠ profileFile (qBackup now lxdBackupPrefix c) (profileName c) →
            σ' !! p = σ !! p)
    ∧ (Forall (λ m, regular m →
                 hasCRLF (list_ascii_of_string (Name (hdr m))) = false) ms →
       loadFileData (md5sumFile (qBackup now lxdBackupPrefix c)) σ'
       = Ok (recorded md5Sum ms ∅)).
Proof.
  intros Hq Hall. eexists. split; [by apply backupContainer_first|].
  pose proof (md5sum_is_no_profile (qBackup now lxdBackupPrefix c)
                (profileName c)) as Hne.
  fold (baseName lxdBackupPrefix c). fold (qBackup now lxdBackupPrefix c).
  fold (md5sumFile (qBackup now lxdBackupPrefix c)).
  fold (profileFile (qBackup now lxdBackupPrefix c) (profileName c)).
  assert (md5sumFile (qBackup now lxdBackupPrefix c)
          ≠ qBackup now lxdBackupPrefix c) as Hm
    by (by apply append_ne_self).
  assert (profileFile (qBackup now lxdBackupPrefix c) (profileName c)
          ≠ qBackup now lxdBackupPrefix c) as Hp
    by (by apply append_ne_self).
  split_and!.
  - rewrite lookup_insert_ne by done. rewrite lookup_insert_ne by done.
    by rewrite lookup_insert_eq.
  - rewrite lookup_insert_ne by done. by rewrite lookup_insert_eq.
  - by rewrite lookup_insert_eq.
  - intros p ? ? ?. by rewrite !lookup_insert_ne by done.
  - intros Hfree. unfold loadFileData.
    rewrite lookup_insert_ne, lookup_insert_eq by done.
    by apply parseFileData_written, recorded_free.
Qed.

Lemma first_run_lays_down_baseline_witness :
  ∃ σ',
    backupContainer sampleSum wholeReads firstOfJuly "lxd-backup-" web
      (TarZst [rootDir; fileA; fileB] true) exportName ∅ = Done tt σ'
    ∧ σ' !! qBackup firstOfJuly "lxd-backup-" web
      = Some (TarZst [rootDir; fileA; fileB] true)
    ∧ σ' !! md5sumFile (qBackup firstOfJuly "lxd-backup-" web)
      = Some (Plain (WriteAll (fileDataRecords
                (recorded sampleSum [rootDir; fileA; fileB] ∅))))
    ∧ σ' !! profileFile (qBackup firstOfJuly "lxd-backup-" web)
              (profileName web)
      = Some (Plain (list_ascii_of_string (profile web)))
    ∧ (∀ p, p ≠ qBackup firstOfJuly "lxd-backup-" web →
            p ≠ md5sumFile (qBackup firstOfJuly "lxd-backup-" web) →
            p ≠ profileFile (qBackup firstOfJuly "lxd-backup-" web)
                  (profileName web) →
            σ' !! p = (∅ : fs) !! p)
    ∧ (Forall (λ m, regular m →
                 hasCRLF (list_ascii_of_string (Name (hdr m))) = false)
         [rootDir; fileA; fileB] →
       loadFileData (md5sumFile (qBackup firstOfJuly "lxd-backup-" web)) σ'
       = Ok (recorded sampleSum [rootDir; fileA; fileB] ∅)).
Proof.
  apply (first_run_lays_down_baseline sampleSum wholeReads firstOfJuly
           "lxd-backup-" web [rootDir; fileA; fileB] exportName ∅).
  - reflexivity.
  - repeat constructor; vm_compute; intros; try done.
Defined.

(** X12. A run on a container that did not change.  When the quarterly
    backup is there, the export is a sound archive and its fingerprints
    are the table the fingerprint file of the quarterly backup loads as,
    the run returns, and all it has done to the directory is to write the
    line No changes to the log and to leave the export under its
    temporary name: the export is not removed, and no slot is touched. *)
Theorem unchanged_container_only_logs (md5Sum : bytes → bytes) (z : streams)
    (now : Time) (lxdBackupPrefix : string) (c : containerState) (ms : list member)
    (tmpName : string) (σ : fs) :
  is_Some (σ !! qBackup now lxdBackupPrefix c) →
  tmpName ≠ md5sumFile (qBackup now lxdBackupPrefix c) →
  Forall (λ m, regular m → sound m) ms →
  loadFileData (md5sumFile (qBackup now lxdBackupPrefix c)) σ
    = Ok (recorded md5Sum ms ∅) →
  backupContainer md5Sum z now lxdBackupPrefix c (TarZst ms true) tmpName σ
  = Done tt
      (<[logFile lxdBackupPrefix c := Plain (noChangesLog now)]>
         (<[tmpName := TarZst ms true]> σ)).
Proof.
  intros Hq Htmp Hall Hload.
  unfold backupContainer, mbind, M_bind, exists_, store, lift.
  fold (baseName lxdBackupPrefix c). fold (qBackup now lxdBackupPrefix c).
  fold (md5sumFile (qBackup now lxdBackupPrefix c)).
  rewrite bool_decide_eq_true_2 by done.
  rewrite fetch_stored by done.
  assert (loadFileData (md5sumFile (qBackup now lxdBackupPrefix c))
            (<[tmpName := TarZst ms true]> σ) = Ok (recorded md5Sum ms ∅))
    as ->.
  { rewrite <-Hload. unfold loadFileData. by rewrite lookup_insert_ne. }
  unfold deltaStage.
  assert (noChanges (diffTables (recorded md5Sum ms ∅)
                       (recorded md5Sum ms ∅)) = true) as ->; [|done].
  by apply noChanges_diffOver.
Qed.

Lemma unchanged_container_only_logs_witness :
  backupContainer sampleSum wholeReads firstOfJuly "lxd-backup-" web
    (TarZst [rootDir; fileA; fileB] true) exportName withOldSlots
  = Done tt
      (<[logFile "lxd-backup-" web := Plain (noChangesLog firstOfJuly)]>
         (<[exportName := TarZst [rootDir; fileA; fileB] true]>
            withOldSlots)).
Proof.
  apply (unchanged_container_only_logs sampleSum wholeReads firstOfJuly
           "lxd-backup-" web [rootDir; fileA; fileB] exportName withOldSlots).
  - by eexists.
  - discriminate.
  - repeat constructor; vm_compute; intros; try done.
  - reflexivity.
Defined.

(** X13. A first export that cannot be fingerprinted blocks its period.
    When the quarterly backup is not there and fingerprinting the export
    fails, the process ends with the export left under the name of the
    quarterly backup and no fingerprint file beside it.  Every later run
    of the same period, however sound its export, then ends at the
    fingerprint file that cannot be opened, and leaves its export under
    its temporary name. *)
Theorem unreadable_first_export_blocks_period (md5Sum : bytes → bytes)
    (z : streams) (now : Time) (lxdBackupPrefix : string) (c : containerState)
    (ms : list member) (intact : bool) (tmpName : string) (σ : fs)
    (e : failure) :
  σ !! qBackup now lxdBackupPrefix c = None →
  σ !! md5sumFile (qBackup now lxdBackupPrefix c) = None →
  fetchLoop md5Sum (qBackup now lxdBackupPrefix c) ms intact ∅ = Err e →
  backupContainer md5Sum z now lxdBackupPrefix c (TarZst ms intact) tmpName σ
    = Fatal e (<[qBackup now lxdBackupPrefix c := TarZst ms intact]> σ)
  ∧ ∀ now' ms' tmpName',
      quarter now' = quarter now →
      tmpName' ≠ md5sumFile (qBackup now lxdBackupPrefix c) →
      Forall (λ m, regular m → sound m) ms' →
      backupContainer md5Sum z now' lxdBackupPrefix c (TarZst ms' true)
        tmpName' (<[qBackup now lxdBackupPrefix c := TarZst ms intact]> σ)
      = Fatal (FailedOpen (md5sumFile (qBackup now lxdBackupPrefix c)))
          (<[tmpName' := TarZst ms' true]>
             (<[qBackup now lxdBackupPrefix c := TarZst ms intact]> σ)).
Proof.
  intros Hq Hmd5 Hfetch. split.
  - unfold backupContainer, mbind, M_bind, exists_, store, lift.
    fold (baseName lxdBackupPrefix c). fold (qBackup now lxdBackupPrefix c).
    rewrite Hq. rewrite bool_decide_eq_false_2 by (by intros [? ?]).
    unfold fetchFileDataFromTar. rewrite lookup_insert_eq. simpl.
    by rewrite Hfetch.
  - intros now' ms' tmpName' Hsame Htmp Hall.
    unfold backupContainer, mbind, M_bind, exists_, store, lift.
    fold (baseName lxdBackupPrefix c). rewrite Hsame.
    fold (qBackup now lxdBackupPrefix c).
    fold (md5sumFile (qBackup now lxdBackupPrefix c)).
    rewrite lookup_insert_eq.
    rewrite bool_decide_eq_true_2 by (by eexists).
    rewrite fetch_stored by done.
    unfold loadFileData. rewrite lookup_insert_ne by done.
    rewrite lookup_insert_ne by (symmetry; by apply append_ne_self).
    by rewrite Hmd5.
Qed.

Lemma unreadable_first_export_blocks_period_witness :
  backupContainer sampleSum wholeReads firstOfJuly "lxd-backup-" web
    (TarZst [fileA; cutShort] false) exportName ∅
    = Fatal FailedCopy
        (<[qBackup firstOfJuly "lxd-backup-" web
           := TarZst [fileA; cutShort] false]> ∅)
  ∧ ∀ now' ms' tmpName',
      quarter now' = quarter firstOfJuly →
      tmpName' ≠ md5sumFile (qBackup firstOfJuly "lxd-backup-" web) →
      Forall (λ m, regular m → sound m) ms' →
      backupContainer sampleSum wholeReads now' "lxd-backup-" web
        (TarZst ms' true) tmpName'
        (<[qBackup firstOfJuly "lxd-backup-" web
           := TarZst [fileA; cutShort] false]> ∅)
      = Fatal (FailedOpen (md5sumFile (qBackup firstOfJuly "lxd-backup-"
                                         web)))
          (<[tmpName' := TarZst ms' true]>
             (<[qBackup firstOfJuly "lxd-backup-" web
                := TarZst [fileA; cutShort] false]> ∅)).
Proof.
  apply (unreadable_first_export_blocks_period sampleSum wholeReads
           firstOfJuly "lxd-backup-" web [fileA; cutShort] false exportName ∅
           FailedCopy); reflexivity.
Defined.

(** X14. A run on a container that changed.  When the quarterly backup is
    there with a fingerprint file that loads, the export is a sound
    archive whose fingerprints differ from that table, the one [Read] of
    the copy loop hands over every entry of the export whole, and the
    temporary name is none of the names of the container, the run returns
    and: the day slot holds the entries of the export whose path changed or was
    added, whatever it held before; the month slot holds the same entries
    when it was not there or the day is the first of the month, and what
    it held before otherwise; the week slot likewise, with Monday; the log
    holds the counts; and the export is gone.  Every slot is a difference
    to the quarterly backup, never to another slot. *)
Theorem changed_run_fills_slots (md5Sum : bytes → bytes) (z : streams)
    (now : Time) (lxdBackupPrefix : string) (c : containerState)
    (ms : list member) (tmpName : string) (σ : fs) (quarterSums : table) :
  is_Some (σ !! qBackup now lxdBackupPrefix c) →
  (∀ s, tmpName ≠ baseName lxdBackupPrefix c +:+ s) →
  Forall sound ms →
  Forall (readWhole z) ms →
  loadFileData (md5sumFile (qBackup now lxdBackupPrefix c)) σ
    = Ok quarterSums →
  quarterSums ≠ recorded md5Sum ms ∅ →
  let d := diffTables quarterSums (recorded md5Sum ms ∅) in
  let monthSlot := baseName lxdBackupPrefix c +:+ monthDelta now in
  let weekSlot := baseName lxdBackupPrefix c +:+ weekDelta now in
  let daySlot := baseName lxdBackupPrefix c +:+ dayDelta now in
  ∃ σ',
    backupContainer md5Sum z now lxdBackupPrefix c (TarZst ms true) tmpName σ
      = Done tt σ'
    ∧ σ' !! daySlot = Some (deltaOf d ms)
    ∧ σ' !! monthSlot
      = (if decide (Day now ≠ 1 ∧ is_Some (σ !! monthSlot))
         then σ !! monthSlot else Some (deltaOf d ms))
    ∧ σ' !! weekSlot
      = (if decide (Weekday now ≠ 1 ∧ is_Some (σ !! weekSlot))
         then σ !! weekSlot else Some (deltaOf d ms))
    ∧ σ' !! logFile lxdBackupPrefix c = Some (Plain (statusLog now d))
    ∧ σ' !! tmpName = None.
Proof.
  intros Hq Htmp Hall Hwhole Hload Hne d monthSlot weekSlot daySlot.
  unfold backupContainer, mbind, M_bind, exists_, store, lift.
  fold (baseName lxdBackupPrefix c). fold (qBackup now lxdBackupPrefix c).
  fold (md5sumFile (qBackup now lxdBackupPrefix c)).
  rewrite bool_decide_eq_true_2 by done.
  rewrite fetch_stored
    by (eapply Forall_impl; [exact Hall|]; by intros).
  assert (loadFileData (md5sumFile (qBackup now lxdBackupPrefix c))
            (<[tmpName := TarZst ms true]> σ) = Ok quarterSums) as ->.
  { rewrite <-Hload. unfold loadFileData. rewrite lookup_insert_ne; [done|].
    unfold md5sumFile, qBackup. rewrite app_assoc_s. apply Htmp. }
  fold d. unfold deltaStage.
  assert (noChanges d = false) as ->.
  { apply not_true_is_false. intros Hno. apply Hne.
    by apply (noChanges_diffOver quarterSums (recorded md5Sum ms ∅)
                (map_to_list quarterSums)
                (map_to_list (recorded md5Sum ms ∅))). }
  unfold mbind, M_bind. rewrite evictBuckets_run.
  fold monthSlot weekSlot daySlot.
  set (σ0 := <[tmpName := TarZst ms true]> σ).
  set (σe := delete daySlot _).
  assert (Hsel : Forall (λ m, selected (filesChangedAdded d) m →
                            sound m ∧ readWhole z m) ms).
  { rewrite Forall_forall in Hall, Hwhole. apply Forall_forall.
    intros m Hin _. split; [by apply Hall|by apply Hwhole]. }
  assert (Hsrc : ∀ σx : fs,
            (∀ p, (∀ s, p ≠ baseName lxdBackupPrefix c +:+ s) →
                  σx !! p = σ0 !! p) →
            σx !! tmpName = Some (TarZst ms true)).
  { intros σx Hx. rewrite Hx by done. apply lookup_insert_eq. }
  assert (Hek : ∀ p, (∀ s, p ≠ baseName lxdBackupPrefix c +:+ s) →
                     σe !! p = σ0 !! p).
  { intros p Hp. unfold σe. rewrite lookup_delete_ne by (symmetry; apply Hp).
    destruct (decide (Weekday now = 1)), (decide (Day now = 1)); simpl;
      by rewrite ?lookup_delete_ne by (symmetry; apply Hp). }
  assert (Hed : σe !! daySlot = None) by apply lookup_delete_eq.
  assert (Hem : σe !! monthSlot
                = if decide (Day now = 1) then None else σ !! monthSlot).
  { unfold σe. rewrite lookup_delete_ne by (unfold daySlot; names_differ).
    assert (∀ σx : fs, (if decide (Weekday now = 1) then delete weekSlot
                        else id) σx !! monthSlot = σx !! monthSlot) as ->.
    { intros σx. destruct (decide (Weekday now = 1)); [|done].
      apply lookup_delete_ne. unfold weekSlot. names_differ. }
    destruct (decide (Day now = 1)); simpl; [apply lookup_delete_eq|].
    apply lookup_insert_ne. apply Htmp. }
  assert (Hew : σe !! weekSlot
                = if decide (Weekday now = 1) then None else σ !! weekSlot).
  { unfold σe. rewrite lookup_delete_ne by (unfold daySlot; names_differ).
    destruct (decide (Weekday now = 1)); simpl; [apply lookup_delete_eq|].
    assert (∀ σx : fs, (if decide (Day now = 1) then delete monthSlot
                        else id) σx !! weekSlot = σx !! weekSlot) as ->.
    { intros σx. destruct (decide (Day now = 1)); [|done].
      apply lookup_delete_ne. unfold monthSlot. names_differ. }
    apply lookup_insert_ne. apply Htmp. }
  destruct (createDeltaBackup_sound z tmpName (filesChangedAdded d)
              (filesRemoved d) monthSlot (profileName c) (profile c) σe ms)
    as (σ1&->&Hm1&Hf1); [by apply Hsrc|done|].
  assert (Hk1 : ∀ p, (∀ s, p ≠ baseName lxdBackupPrefix c +:+ s) →
                     σ1 !! p = σ0 !! p).
  { intros p Hp. rewrite Hf1; [by apply Hek|..];
      unfold removedFile, profileFile, monthSlot; rewrite ?app_assoc_s;
      apply Hp. }
  destruct (createDeltaBackup_sound z tmpName (filesChangedAdded d)
              (filesRemoved d) weekSlot (profileName c) (profile c) σ1 ms)
    as (σ2&->&Hw2&Hf2); [by apply Hsrc|done|].
  assert (Hk2 : ∀ p, (∀ s, p ≠ baseName lxdBackupPrefix c +:+ s) →
                     σ2 !! p = σ0 !! p).
  { intros p Hp. rewrite Hf2; [by apply Hk1|..];
      unfold removedFile, profileFile, weekSlot; rewrite ?app_assoc_s;
      apply Hp. }
  destruct (createDeltaBackup_sound z tmpName (filesChangedAdded d)
              (filesRemoved d) daySlot (profileName c) (profile c) σ2 ms)
    as (σ3&->&Hd3&Hf3); [by apply Hsrc|done|].
  unfold store, remove. eexists. split; [done|].
  assert (Hlast : ∀ p v, p ≠ tmpName → p ≠ logFile lxdBackupPrefix c →
            σ3 !! p = v →
            delete tmpName
              (<[baseName lxdBackupPrefix c +:+ ".log"
                 := Plain (statusLog now d)]> σ3) !! p = v).
  { intros p v ? ? <-. rewrite lookup_delete_ne by done.
    by rewrite lookup_insert_ne. }
  split_and!.
  - apply Hlast; [symmetry; apply Htmp|unfold logFile, daySlot; names_differ|].
    rewrite Hd3.
    assert (σ2 !! daySlot = None) as ->; [|done].
    rewrite Hf2, Hf1, Hed;
      [done|unfold removedFile, profileFile, daySlot, monthSlot, weekSlot;
            names_differ..].
  - apply Hlast;
      [symmetry; apply Htmp|unfold logFile, monthSlot; names_differ|].
    rewrite Hf3, Hf2, Hm1, Hem;
      [|unfold removedFile, profileFile, daySlot, monthSlot, weekSlot;
        names_differ..].
    destruct (decide (Day now = 1)) as [Hday|Hday].
    + rewrite decide_False by (by intros [? ?]).
      by rewrite decide_False by (by intros [? ?]).
    + destruct (decide (is_Some (σ !! monthSlot))) as [Hs|Hs].
      * by rewrite decide_True.
      * by rewrite decide_False by (by intros [? ?]).
  - apply Hlast;
      [symmetry; apply Htmp|unfold logFile, weekSlot; names_differ|].
    rewrite Hf3, Hw2, Hf1, Hew;
      [|unfold removedFile, profileFile, daySlot, monthSlot, weekSlot;
        names_differ..].
    destruct (decide (Weekday now = 1)) as [Hday|Hday].
    + rewrite decide_False by (by intros [? ?]).
      by rewrite decide_False by (by intros [? ?]).
    + destruct (decide (is_Some (σ !! weekSlot))) as [Hs|Hs].
      * by rewrite decide_True.
      * by rewrite decide_False by (by intros [? ?]).
  - rewrite lookup_delete_ne by apply Htmp. apply lookup_insert_eq.
  - apply lookup_delete_eq.
Qed.

Lemma changed_run_fills_slots_witness :
  let d := diffTables (recorded sampleSum [rootDir; fileA; fileB] ∅)
             (recorded sampleSum [rootDir; fileA; fileBgrown] ∅) in
  let monthSlot := baseName "lxd-backup-" web +:+ monthDelta thirdOfJuly in
  let weekSlot := baseName "lxd-backup-" web +:+ weekDelta thirdOfJuly in
  let daySlot := baseName "lxd-backup-" web +:+ dayDelta thirdOfJuly in
  ∃ σ',
    backupContainer sampleSum wholeReads thirdOfJuly "lxd-backup-" web
      (TarZst [rootDir; fileA; fileBgrown] true) exportName withOldSlots
      = Done tt σ'
    ∧ σ' !! daySlot = Some (deltaOf d [rootDir; fileA; fileBgrown])
    ∧ σ' !! monthSlot
      = (if decide (Day thirdOfJuly ≠ 1
                    ∧ is_Some (withOldSlots !! monthSlot))
         then withOldSlots !! monthSlot
         else Some (deltaOf d [rootDir; fileA; fileBgrown]))
    ∧ σ' !! weekSlot
      = (if decide (Weekday thirdOfJuly ≠ 1
                    ∧ is_Some (withOldSlots !! weekSlot))
         then withOldSlots !! weekSlot
         else Some (deltaOf d [rootDir; fileA; fileBgrown]))
    ∧ σ' !! logFile "lxd-backup-" web
      = Some (Plain (statusLog thirdOfJuly d))
    ∧ σ' !! exportName = None.
Proof.
  apply (changed_run_fills_slots sampleSum wholeReads thirdOfJuly
           "lxd-backup-" web [rootDir; fileA; fileBgrown] exportName
           withOldSlots (recorded sampleSum [rootDir; fileA; fileB] ∅)).
  - by eexists.
  - intros s. discriminate.
  - repeat constructor.
  - repeat constructor.
  - reflexivity.
  - intros H. apply (f_equal (lookup "rootfs/b")) in H.
    vm_compute in H. discriminate H.
Defined.

(** The sample run of the third of July: the month and the week slot stay
    as they were, the day slot gets the file that grew. *)
Example sample_changed_run :
  ∃ σ',
    backupContainer sampleSum wholeReads thirdOfJuly "lxd-backup-" web
      (TarZst [rootDir; fileA; fileBgrown] true) exportName withOldSlots
      = Done tt σ'
    ∧ σ' !! "lxd-backup-web-WD3-delta.tar.zst"
      = Some (TarZst [fileBgrown] true)
    ∧ σ' !! "lxd-backup-web-M7-delta.tar.zst" = Some (TarZst [fileA] true)
    ∧ σ' !! "lxd-backup-web-WN3-delta.tar.zst" = Some (TarZst [fileA] true).
Proof. eexists. split; [vm_compute; reflexivity|]. by split_and!. Qed.

(** ** What a delta is good for *)

Lemma lookup_foldr_delete (t : table) (paths : list string) (p : string) :
  foldr delete t paths !! p = if decide (p ∈ paths) then None else t !! p.
Proof.
  induction paths as [|x paths IH].
  - destruct (decide (p ∈ [])) as [Hin|_]; [|done].
    by apply elem_of_nil in Hin.
  - change (foldr delete t (x :: paths))
      with (delete x (foldr delete t paths)).
    destruct (decide (x = p)) as [->|Hne].
    + rewrite lookup_delete_eq.
      destruct (decide (p ∈ p :: paths)) as [|Hn]; [done|].
      destruct Hn. left.
    + rewrite lookup_delete_ne, IH by done.
      destruct (decide (p ∈ paths)) as [Hin|Hin],
               (decide (p ∈ x :: paths)) as [Hin'|Hin']; try done.
      * destruct Hin'. by right.
      * apply elem_of_cons in Hin' as [->|?]; done.
Qed.

Section restore.
Variable md5Sum : bytes → bytes.

Lemma recorded_cons (m : member) (ms : list member) (fd : table) :
  recorded md5Sum (m :: ms) fd
  = if decide (regular m) then recorded md5Sum ms (record1 md5Sum fd m)
    else recorded md5Sum ms fd.
Proof.
  unfold recorded. rewrite filter_cons. by destruct (decide (regular m)).
Qed.

Lemma recorded_selected (S : gset string) (ms : list member)
    (fd fd' : table) :
  (∀ p, fd' !! p = if decide (p ∈ S) then fd !! p else None) →
  ∀ p, recorded md5Sum (filter (selected S) ms) fd' !! p
       = if decide (p ∈ S) then recorded md5Sum ms fd !! p else None.
Proof.
  revert fd fd'. induction ms as [|m ms IH]; intros fd fd' Hfd p.
  - apply Hfd.
  - rewrite filter_cons, (recorded_cons m ms).
    destruct (decide (selected S m)) as [Hsel|Hsel].
    + rewrite recorded_cons. destruct (decide (regular m)).
      * apply IH. intros q. unfold record1.
        destruct (decide (q = Name (hdr m))) as [->|Hq].
        -- rewrite !lookup_insert_eq. by rewrite decide_True.
        -- by rewrite !lookup_insert_ne.
      * by apply IH.
    + destruct (decide (regular m)); [|by apply IH].
      apply IH. intros q. unfold record1.
      destruct (decide (q = Name (hdr m))) as [->|Hq].
      * rewrite Hfd. by rewrite !decide_False.
      * by rewrite lookup_insert_ne.
Qed.
End restore.

(** X15. On an archive, [fetchFileDataFromTar] returns a table exactly
    when the archive is intact to its end and every regular entry
    delivers the bytes its header declares without a read error; the
    table is then the one of all regular entries.  It never returns the
    table of a part of the archive. *)
Theorem fetch_returns_iff (md5Sum : bytes → bytes) (fname : string)
    (ms : list member) (intact : bool) (σ : fs) (fd : table) :
  σ !! fname = Some (TarZst ms intact) →
  fetchFileDataFromTar md5Sum fname σ = Ok fd ↔
  intact = true ∧ Forall (λ m, regular m → sound m) ms
  ∧ fd = recorded md5Sum ms ∅.
Proof.
  intros Hf. unfold fetchFileDataFromTar. rewrite Hf. simpl. split.
  - intros Hrun.
    destruct (fetchLoop_Ok_inv md5Sum _ _ _ _ _ Hrun) as [Hall ->].
    rewrite fetchLoop_sound in Hrun by done. by injection Hrun as <-.
  - intros (->&Hall&->). by rewrite fetchLoop_sound.
Qed.

Lemma fetch_returns_iff_witness :
  fetchFileDataFromTar sampleSum exportName soundExport
    = Ok {["rootfs/a" := "03"; "rootfs/b" := "02"]} ↔
  true = true
  ∧ Forall (λ m, regular m → sound m) [rootDir; fileA; fileB]
  ∧ ({["rootfs/a" := "03"; "rootfs/b" := "02"]} : table)
    = recorded sampleSum [rootDir; fileA; fileB] ∅.
Proof.
  apply (fetch_returns_iff sampleSum exportName [rootDir; fileA; fileB]
           true soundExport). reflexivity.
Defined.

(** X16. A delta restores the export, as far as fingerprints tell.  Take
    the table of the quarterly backup, let the fingerprints of the
    entries that the delta holds override it, and drop the paths listed
    as removed: the result is the table of the export the delta was built
    from, whatever the order in which the comparison ranged over the two
    maps.  On a sound export the delta is itself an archive that
    [fetchFileDataFromTar] fingerprints. *)
Theorem delta_restores_fingerprints (md5Sum : bytes → bytes)
    (quarterSums : table) (ms : list member)
    (qs cs : list (string * string)) (fname : string) :
  qs ≡ₚ map_to_list quarterSums →
  cs ≡ₚ map_to_list (recorded md5Sum ms ∅) →
  let sums := recorded md5Sum ms ∅ in
  let d := diffOver qs cs quarterSums sums in
  let delta := filter (selected (filesChangedAdded d)) ms in
  foldr delete (recorded md5Sum delta ∅ ∪ quarterSums) (filesRemoved d)
    = sums
  ∧ (Forall (λ m, regular m → sound m) ms →
     fetchLoop md5Sum fname delta true ∅ = Ok (recorded md5Sum delta ∅)).
Proof.
  intros Hqs Hcs sums d delta. split.
  - apply map_eq. intros p. rewrite lookup_foldr_delete.
    pose proof (diffOver_changed quarterSums sums qs cs p Hqs Hcs) as Hch.
    pose proof (diffOver_removed quarterSums sums qs cs p Hqs) as Hrm.
    fold d in Hch, Hrm.
    assert (recorded md5Sum delta ∅ !! p
            = if decide (p ∈ filesChangedAdded d) then sums !! p else None)
      as Hdelta.
    { apply (recorded_selected md5Sum (filesChangedAdded d) ms ∅ ∅).
      intros q. rewrite lookup_empty. by destruct (decide _). }
    destruct (decide (p ∈ filesRemoved d)) as [Hin|Hin].
    { apply Hrm in Hin as [_ Hnone]. by rewrite Hnone. }
    destruct (decide (p ∈ filesChangedAdded d)) as [Hc|Hc].
    + apply Hch in Hc as (dg&Hdg&_). rewrite Hdg in *.
      by apply lookup_union_Some_l.
    + rewrite lookup_union_r by done.
      destruct (sums !! p) as [dg|] eqn:Hs.
      * destruct (decide (quarterSums !! p = Some dg)) as [|Hq]; [done|].
        destruct Hc. apply Hch. by exists dg.
      * destruct (quarterSums !! p) as [dg|] eqn:Hq; [|done].
        destruct Hin. apply Hrm. split; [by exists dg|done].
  - intros Hall. apply fetchLoop_sound.
    unfold delta. rewrite Forall_forall in Hall. apply Forall_forall.
    intros m [_ Hin]%list_elem_of_filter. by apply Hall.
Qed.

Lemma delta_restores_fingerprints_witness :
  let quarterSums : table := {["rootfs/a" := "03"; "rootfs/old" := "07"]} in
  let sums := recorded sampleSum [rootDir; fileA; fileB] ∅ in
  let d := diffOver (map_to_list quarterSums) (map_to_list sums)
             quarterSums sums in
  let delta := filter (selected (filesChangedAdded d))
                 [rootDir; fileA; fileB] in
  foldr delete (recorded sampleSum delta ∅ ∪ quarterSums) (filesRemoved d)
    = sums
  ∧ (Forall (λ m, regular m → sound m) [rootDir; fileA; fileB] →
     fetchLoop sampleSum exportName delta true ∅
     = Ok (recorded sampleSum delta ∅)).
Proof.
  apply (delta_restores_fingerprints sampleSum
           {["rootfs/a" := "03"; "rootfs/old" := "07"]}
           [rootDir; fileA; fileB]); reflexivity.
Defined.

(** In the sample the delta holds [rootfs/b] alone and [rootfs/old] is
    listed as removed. *)
Example sample_delta_and_removed :
  let quarterSums : table := {["rootfs/a" := "03"; "rootfs/old" := "07"]} in
  let d := diffTables quarterSums
             (recorded sampleSum [rootDir; fileA; fileB] ∅) in
  filter (selected (filesChangedAdded d)) [rootDir; fileA; fileB] = [fileB]
  ∧ filesRemoved d = ["rootfs/old"].
Proof. split; reflexivity. Qed.

(** ** The names of the slots *)

Lemma sprintfD_inj (a b : Z) : sprintfD a = sprintfD b → a = b.
Proof.
  unfold sprintfD. intros H.
  apply (f_equal NilZero.int_of_string) in H.
  assert (∀ z, Z.to_int z ≠ Decimal.Pos Decimal.Nil
               ∧ Z.to_int z ≠ Decimal.Neg Decimal.Nil) as Hnil.
  { intros [|p|p]; simpl; split; try discriminate;
      intros [= Hp]; by apply DecimalPos.Unsigned.to_uint_nonnil in Hp. }
  rewrite !NilZero.isi in H by apply Hnil.
  injection H as H. apply (f_equal Z.of_int) in H.
  by rewrite !DecimalZ.of_to in H.
Qed.

Lemma length_append (a b : string) :
  String.length (a +:+ b) = (String.length a + String.length b)%nat.
Proof. induction a as [|x a IH]; [done|]. simpl. by rewrite IH. Qed.

Lemma append_cancel_r (a b s : string) : a +:+ s = b +:+ s → a = b.
Proof.
  revert b. induction a as [|x a IH]; intros [|y b] H; [done|..].
  - apply (f_equal String.length) in H.
    rewrite !length_append in H. simpl in H. lia.
  - apply (f_equal String.length) in H.
    rewrite !length_append in H. simpl in H. lia.
  - injection H as -> H. f_equal. by apply IH.
Qed.

(** X17. Which times share a slot.  The name of the month slot depends on
    the month alone, not on the year; the name of the week slot on the
    ISO week modulo four; the name of the day slot on the day of the
    week: two times have the same slot name exactly when they agree on
    that number.  Slots of different kinds never have the same name. *)
Theorem slots_are_reused (now now' : Time) :
  (monthDelta now = monthDelta now' ↔ Month now = Month now')
  ∧ (weekDelta now = weekDelta now' ↔
     Z.rem (ISOWeek now) 4 = Z.rem (ISOWeek now') 4)
  ∧ (dayDelta now = dayDelta now' ↔ Weekday now = Weekday now')
  ∧ monthDelta now ≠ weekDelta now'
  ∧ monthDelta now ≠ dayDelta now'
  ∧ weekDelta now ≠ dayDelta now'.
Proof.
  unfold monthDelta, weekDelta, dayDelta.
  split_and!; try discriminate.
  - split; [|by intros ->].
    intros H%append_cancel. by apply append_cancel_r, sprintfD_inj in H.
  - split; [|by intros ->].
    intros H%append_cancel. by apply append_cancel_r, sprintfD_inj in H.
  - split; [|by intros ->].
    intros H%append_cancel. by apply append_cancel_r, sprintfD_inj in H.
Qed.

(** ** What a run leaves alone *)

Section frame.
Context (P : string → Prop).

Lemma keepsOutside_ret {A} (a : A) : keepsOutside P (mret a).
Proof. by intros σ p _. Qed.

Lemma keepsOutside_fatal {A} (e : failure) : keepsOutside P (@fatal A e).
Proof. by intros σ p _. Qed.

Lemma keepsOutside_bind {A B} (m : M A) (k : A → M B) :
  keepsOutside P m → (∀ a, keepsOutside P (k a)) →
  keepsOutside P (m ≫= k).
Proof.
  intros Hm Hk σ p Hp. specialize (Hm σ p Hp).
  unfold mbind, M_bind. destruct (m σ) as [a σ1|e σ1]; simpl in *.
  - by rewrite Hk.
  - done.
Qed.

Lemma keepsOutside_lift {A} (r : fs → result A) : keepsOutside P (lift r).
Proof. intros σ p _. unfold lift. by destruct (r σ). Qed.

Lemma keepsOutside_exists (path : string) : keepsOutside P (exists_ path).
Proof. by intros σ p _. Qed.

Lemma keepsOutside_store (path : string) (f : file) :
  P path → keepsOutside P (store path f).
Proof.
  intros Hpath σ p Hp. simpl. apply lookup_insert_ne. by intros ->.
Qed.

Lemma keepsOutside_remove (path : string) :
  P path → keepsOutside P (remove path).
Proof.
  intros Hpath σ p Hp. simpl. apply lookup_delete_ne. by intros ->.
Qed.

Lemma keepsOutside_createDeltaBackup (z : streams) (src : string)
    (filesChanged : gset string) (filesRemoved : list string)
    (dest profileName profileData : string) :
  P dest → P (removedFile dest) → P (profileFile dest profileName) →
  keepsOutside P
    (createDeltaBackup z src filesChanged filesRemoved dest profileName
       profileData).
Proof.
  intros Hd Hr Hp σ p Hout.
  destruct (createDeltaBackup_cases z src filesChanged filesRemoved dest
              profileName profileData σ)
    as [[_ ->]|[(_&_&->)|[(_&e&f&_&->)|(_&f&_&_&_&->)]]]; simpl; try done.
  - apply lookup_insert_ne. by intros ->.
  - rewrite !lookup_insert_ne; [done|by intros <-..].
Qed.

Lemma keepsOutside_evictBuckets (now : Time) (base : string) :
  P (base +:+ monthDelta now) → P (base +:+ weekDelta now) →
  P (base +:+ dayDelta now) →
  keepsOutside P (evictBuckets now base).
Proof.
  intros Hm Hw Hd. unfold evictBuckets.
  apply keepsOutside_bind; [|intros _; apply keepsOutside_bind].
  - destruct (decide (Day now = 1));
      [by apply keepsOutside_remove|apply keepsOutside_ret].
  - destruct (decide (Weekday now = 1));
      [by apply keepsOutside_remove|apply keepsOutside_ret].
  - intros _. by apply keepsOutside_remove.
Qed.
End frame.

(** X18. A run for one container leaves every other file alone.  However
    the loop body of [main] ends for a container, with whatever export
    and in whatever directory, every path that is not one of the fourteen
    names of the container (the temporary name, the quarterly backup, its
    fingerprint file and profile, the log, the three slots with their
    lists of removed paths and their profiles) holds afterwards what it
    held before. *)
Theorem run_leaves_other_files_alone (md5Sum : bytes → bytes)
    (z : streams) (now : Time) (lxdBackupPrefix : string)
    (c : containerState) (exported : file)
    (tmpName : string) (σ : fs) (p : string) :
  p ∉ namesOf now lxdBackupPrefix c tmpName →
  outcomeState
    (backupContainer md5Sum z now lxdBackupPrefix c exported tmpName σ) !! p
  = σ !! p.
Proof.
  revert σ p.
  change (keepsOutside (λ p, p ∈ namesOf now lxdBackupPrefix c tmpName)
            (backupContainer md5Sum z now lxdBackupPrefix c exported tmpName)).
  assert (Hin : ∀ i q, namesOf now lxdBackupPrefix c tmpName !! i = Some q →
                       q ∈ namesOf now lxdBackupPrefix c tmpName)
    by (intros i q; apply list_elem_of_lookup_2).
  unfold backupContainer.
  apply keepsOutside_bind; [apply keepsOutside_exists|]. intros present.
  apply keepsOutside_bind.
  { apply keepsOutside_store.
    destruct present; [by apply (Hin 0%nat)|by apply (Hin 1%nat)]. }
  intros _. apply keepsOutside_bind; [apply keepsOutside_lift|].
  intros sums. destruct present.
  - apply keepsOutside_bind; [apply keepsOutside_lift|].
    intros quarterSums. unfold deltaStage.
    destruct (noChanges (diffTables quarterSums sums)).
    { apply keepsOutside_store. by apply (Hin 4%nat). }
    apply keepsOutside_bind.
    { apply keepsOutside_evictBuckets;
        [by apply (Hin 5%nat)|by apply (Hin 6%nat)|by apply (Hin 7%nat)]. }
    intros _. apply keepsOutside_bind.
    { apply keepsOutside_createDeltaBackup;
        [by apply (Hin 5%nat)|by apply (Hin 8%nat)|by apply (Hin 11%nat)]. }
    intros _. apply keepsOutside_bind.
    { apply keepsOutside_createDeltaBackup;
        [by apply (Hin 6%nat)|by apply (Hin 9%nat)|by apply (Hin 12%nat)]. }
    intros _. apply keepsOutside_bind.
    { apply keepsOutside_createDeltaBackup;
        [by apply (Hin 7%nat)|by apply (Hin 10%nat)|by apply (Hin 13%nat)]. }
    intros _. apply keepsOutside_bind.
    { apply keepsOutside_store. by apply (Hin 4%nat). }
    intros _. apply keepsOutside_remove. by apply (Hin 0%nat).
  - apply keepsOutside_bind.
    { apply keepsOutside_store. by apply (Hin 2%nat). }
    intros _. apply keepsOutside_store. by apply (Hin 3%nat).
Qed.

Lemma run_leaves_other_files_alone_witness :
  outcomeState
    (backupContainer sampleSum wholeReads thirdOfJuly "lxd-backup-" web
       (TarZst [rootDir; fileA; fileBgrown] true) exportName withOldSlots)
    !! "lxd-backup-db-M7-delta.tar.zst"
  = withOldSlots !! "lxd-backup-db-M7-delta.tar.zst".
Proof.
  apply (run_leaves_other_files_alone sampleSum wholeReads thirdOfJuly
           "lxd-backup-" web (TarZst [rootDir; fileA; fileBgrown] true)
           exportName
           withOldSlots "lxd-backup-db-M7-delta.tar.zst").
  apply (bool_decide_unpack _). by vm_compute.
Defined.
